(** * SimJS: a shallow embedding of the discrete-event kernel

    The development follows the TypeScript sources: [Heap] (core/Heap.ts),
    [Environment] (core/Environment.ts), [Event] (events/Event.ts),
    [Timeout], [Initialize], [Process], [StopSimulation], [Interrupt],
    [BaseResource], [Resource], [PutResource] and [GetResource]; then
    [ConditionValue] (core/ConditionValue.ts), [Logger] and
    [PerformanceMonitor] (monitoring/), and the event identifiers of
    [Monitor].

    Modelling conventions.
    - JavaScript numbers used as clock values, delays, priorities, sequence
      numbers and amounts are integers ([Z]) in the embedding of the kernel.
      The other numbers that the code accepts are modelled beside it: clock
      values and delays that are NaN or infinite in [Js], [JsHeap] and
      [JsEnvironment], capacities and amounts that are fractions in
      [Fractional]; on integers these are the functions of the embedding.
    - Log entries are values in [Logger]; [LoggerRefs] keeps the entry
      objects in a store and the logger holds references, for what depends
      on one object being logged more than once.
    - Objects live in stores indexed by allocation order; a reference to an
      Event is its index ([EvId]), so aliasing is by index.  All events of a
      [World] belong to its one [Environment].
    - Closures placed in callback lists are defunctionalised ([Callback]).
    - A thrown JavaScript exception is the [Throw] result of the monad [M];
      the text of error messages is abstracted to an error kind.
    - A reading of the wall clock, [Date.now()], is an argument of the
      function that takes it. *)

From Stdlib Require Import ZArith Lia List Permutation Sorted String Bool.
From Stdlib Require Import QArith Qround.
From stdpp Require Import base decidable option list pretty.

Local Open Scope Z_scope.

(* ===================================================================== *)
(** * Part I: the embedding *)
(* ===================================================================== *)

(** ** core/Heap.ts: array-based binary min-heap *)

Module Heap.
Section heap.
Context {T : Type}.
Variable compare : T -> T -> Z.

(** [size(): return this.items.length] *)
Definition size (items : list T) : nat := length items.

(** [peek(): return this.items[0]] *)
Definition peek (items : list T) : option T := items !! 0%nat.

(** The [while (idx > 0)] loop of [_heapifyUp].  [fuel] bounds the number
    of iterations; [idx] iterations are always enough, because [idx]
    strictly decreases until it reaches 0. *)
Fixpoint _heapifyUp_loop (fuel : nat) (item : T) (idx : nat)
  (items : list T) : list T :=
  match fuel with
  | O => items
  | S fuel' =>
      if (0 <? idx)%nat then
        let parentIdx := ((idx - 1) / 2)%nat in
        match items !! parentIdx with
        | None => items
        | Some parent =>
            if compare item parent >=? 0 then items
            else _heapifyUp_loop fuel' item parentIdx
                   (<[idx := parent]> (<[parentIdx := item]> items))
        end
      else items
  end.

Definition _heapifyUp (items : list T) : list T :=
  let idx := (size items - 1)%nat in
  match items !! idx with
  | None => items
  | Some item => _heapifyUp_loop idx item idx items
  end.

(** [push(item): this.items.push(item); this._heapifyUp()] *)
Definition push (item : T) (items : list T) : list T :=
  _heapifyUp (items ++ [item]).

(** [i < length && this.compare(this.items[i], this.items[j]) < 0] *)
Definition lt_at (items : list T) (i j : nat) : bool :=
  match items !! i, items !! j with
  | Some a, Some b => compare a b <? 0
  | _, _ => false
  end.

(** The choice of [smallest] among [idx] and its two children. *)
Definition smallest_of (items : list T) (idx : nat) : nat :=
  let leftIdx := (2 * idx + 1)%nat in
  let rightIdx := (2 * idx + 2)%nat in
  let smallest := idx in
  let smallest := if lt_at items leftIdx smallest then leftIdx else smallest in
  let smallest := if lt_at items rightIdx smallest then rightIdx else smallest in
  smallest.

(** The [while (true)] loop of [_heapifyDown]; [size items] iterations are
    enough, because [idx] strictly increases and stays below the size. *)
Fixpoint _heapifyDown_loop (fuel : nat) (item : T) (idx : nat)
  (items : list T) : list T :=
  match fuel with
  | O => items
  | S fuel' =>
      let smallest := smallest_of items idx in
      if (smallest =? idx)%nat then items
      else
        match items !! smallest with
        | None => items
        | Some s =>
            _heapifyDown_loop fuel' item smallest
              (<[smallest := item]> (<[idx := s]> items))
        end
  end.

Definition _heapifyDown (items : list T) : list T :=
  match items !! 0%nat with
  | None => items
  | Some item => _heapifyDown_loop (size items) item 0%nat items
  end.

(** [pop()]; the result [None] is JavaScript's [null]. *)
Definition pop (items : list T) : option T * list T :=
  if (size items =? 0)%nat then (None, items)
  else
    match peek items, last items with
    | Some top, Some bottom =>
        let items := removelast items in
        if (0 <? size items)%nat
        then (Some top, _heapifyDown (<[0%nat := bottom]> items))
        else (Some top, items)
    | _, _ => (None, items)
    end.

(** Heap order, stated bottom-up: [cle a b] says that [a] does not come
    after [b]; in a heap every parent precedes its children. *)
Definition cle (a b : T) : Prop := 0 <= compare b a.

Definition parent (i : nat) : nat := ((i - 1) / 2)%nat.

Definition heap_ok (items : list T) : Prop :=
  forall i c p, (0 < i)%nat -> items !! i = Some c ->
                items !! parent i = Some p -> cle p c.

(** The loop invariant of [_heapifyUp]: the array is a heap except that the
    moving [item], at [idx], may precede its parent; the children of [idx]
    already follow the parent of [idx]. *)
Definition up_inv (items : list T) (item : T) (idx : nat) : Prop :=
  items !! idx = Some item /\
  (forall i c p, (0 < i)%nat -> i <> idx -> items !! i = Some c ->
                 items !! parent i = Some p -> cle p c) /\
  (forall c x g, (0 < idx)%nat -> (0 < c)%nat -> parent c = idx ->
                 items !! c = Some x -> items !! parent idx = Some g ->
                 cle g x).

(** The loop invariant of [_heapifyDown]: the array is a heap except that
    the moving [item], at [idx], may follow its children; the children of
    [idx] already follow the parent of [idx]. *)
Definition down_inv (items : list T) (item : T) (idx : nat) : Prop :=
  items !! idx = Some item /\
  (forall i c p, (0 < i)%nat -> parent i <> idx -> items !! i = Some c ->
                 items !! parent i = Some p -> cle p c) /\
  (forall c x g, (0 < idx)%nat -> (0 < c)%nat -> parent c = idx ->
                 items !! c = Some x -> items !! parent idx = Some g ->
                 cle g x).

End heap.
End Heap.

(** ** types.ts and the object model *)

(** References to events and resources: positions in the stores. *)
Abbreviation EvId := nat.
Abbreviation ResId := nat.

Inductive Priority := NORMAL | URGENT.

Record QueueItem := mkItem {
  time : Z;
  priority : Z;
  eid : Z;
  event : EvId }.

(** The semantic kinds of the [Error] objects the kernel creates. *)
Inductive ErrKind :=
| EmptySchedule                 (* new EmptySchedule() *)
| AlreadyTriggered (e : EvId)   (* `${this} has already been triggered` *)
| NotAnException                (* TypeError: `${exception} is not an exception.` *)
| NotYetAvailable (e : EvId)    (* `Value of ${this} is not yet available` *)
| InvalidUntil                  (* 'Invalid "until" argument' *)
| InvalidYield                  (* `Invalid Yield value "${nextEvent}"` *)
| NegativeDelay (d : Z)         (* `Negative delay value: ${delay}` *)
| InvalidAmount (a : Z)         (* `Amount (${amount}) must be > 0.` *)
| InvalidCapacity               (* '"capacity" must be > 0.' *)
| NullCallbacks                 (* TypeError: push on a null callback list *)
| NotCallable                   (* TypeError: call of a null [_evaluate] *)
| UserError (msg : string).     (* new Error(msg) built by user code *)

Inductive Value :=
| VUndefined
| VNull
| VBool (b : bool)
| VNum (n : Z)
| VStr (s : string)
| VError (k : ErrKind)
| VStopSimulation (payload : Value)   (* new StopSimulation(event) *)
| VEvent (e : EvId)
| VConditionValue (evs : list EvId).  (* ConditionValue with its [events] *)

(** [static allEvents] and [static anyEvents]. *)
Inductive ConditionEvaluator := allEvents | anyEvents.

(** Values found in callback lists. *)
Inductive Callback :=
| CbUser (tag : string)        (* user closure [() => results.push(tag)] *)
| CbThrow (e : Value)          (* user closure [() => { throw e }] *)
| CbNotFunction                (* an entry that is not a function *)
| CbStopSimulation             (* StopSimulation.callback *)
| CbResume (p : EvId)          (* process._resume.bind(process) *)
| CbCheck (c : EvId)           (* cond._check.bind(cond) *)
| CbBuildValue (c : EvId)      (* cond._buildValue.bind(cond) *)
| CbTriggerPut (r : ResId)     (* resource._triggerPut.bind(resource) *)
| CbTriggerGet (r : ResId).    (* resource._triggerGet.bind(resource) *)

(** Statements a generator body runs between two [yield]s. *)
Inductive Cmd :=
| CmdTimeout (delay : Z) (value : Value)   (* new Timeout(env, delay, value) *)
| CmdEvent                                 (* new Event(env) *)
| CmdSucceed (e : EvId) (v : Value)        (* e.succeed(v) *)
| CmdFail (e : EvId) (v : Value)           (* e.fail(v) *)
| CmdRequest (r : ResId) (amount : Z)      (* r.request(amount) *)
| CmdRelease (r : ResId) (amount : Z)      (* r.release(amount) *)
| CmdNow.                                  (* env.now *)

(** A generator body as a resumption tree: [CoDo c ok err] runs the
    statement [c] and continues with [ok] on its result or with [err] on the
    exception it throws (the body's [catch], or [CoThrow] when there is
    none); [CoYield y next thrown] suspends on [y] and continues with [next]
    when resumed by [next(v)], with [thrown] when resumed by [throw(e)]. *)
Inductive Coroutine :=
| CoReturn (v : Value)
| CoThrow (e : Value)
| CoDo (c : Cmd) (ok : Value -> Coroutine) (err : Value -> Coroutine)
| CoYield (y : Value) (next : Value -> Coroutine) (thrown : Value -> Coroutine).

(** The state of a generator object. *)
Inductive GenState :=
| GenSuspendedStart (body : Coroutine)
| GenSuspendedYield (next thrown : Value -> Coroutine)
| GenCompleted.

(** Fields added by the subclasses of [Event]. *)
Inductive EventClass :=
| IsEvent
| IsTimeout (_delay : Z)
| IsInitialize
| IsProcess (_generator : GenState) (_target : option EvId)
| IsGetResource (resource : ResId) (amount : Z) (proc : option EvId)
| IsPutResource (resource : ResId) (amount : Z) (proc : option EvId).

(** events/Event.ts: the fields of an [Event]; [callbacks = None] is
    [null], [_ok = None] is [undefined]. *)
Record Event := mkEvent {
  callbacks : option (list Callback);
  _ok : option bool;
  _defused : bool;
  _value : Value;
  _scheduled : bool;
  _evaluate : option ConditionEvaluator;
  _events : list EvId;
  _count : Z;
  class : EventClass }.

Record Resource := mkResource {
  capacity : Z;
  users : list Z;
  putQueue : list EvId;
  getQueue : list EvId }.

Record Environment := mkEnv {
  _now : Z;
  _queue : list QueueItem;
  _eid : Z;
  activeProcess : option EvId }.

(** The whole object graph: the environment, the events and resources
    created so far, and the [results] array that [CbUser] closures fill. *)
Record World := mkWorld {
  env : Environment;
  events : list Event;
  resources : list Resource;
  results : list (string * EvId) }.

(** ** State and exceptions *)

Inductive Res (A : Type) :=
| Ok (a : A) (w : World)
| Throw (e : Value) (w : World).
Arguments Ok {A} a w.
Arguments Throw {A} e w.

Definition M (A : Type) : Type := World -> Res A.

Definition world_of {A} (r : Res A) : World :=
  match r with Ok _ w => w | Throw _ w => w end.

Definition ret {A} (a : A) : M A := fun w => Ok a w.

Definition bind {A B} (m : M A) (k : A -> M B) : M B := fun w =>
  match m w with
  | Ok a w' => k a w'
  | Throw e w' => Throw e w'
  end.

Definition throw {A} (e : Value) : M A := fun w => Throw e w.

(** [try { m } catch (e) { h e }] *)
Definition try_catch {A} (m : M A) (h : Value -> M A) : M A := fun w =>
  match m w with
  | Ok a w' => Ok a w'
  | Throw e w' => h e w'
  end.

(** [try { m } finally { f }], for an [f] that does not throw. *)
Definition finally {A} (m : M A) (f : M unit) : M A := fun w =>
  match m w with
  | Ok a w' => Ok a (world_of (f w'))
  | Throw e w' => Throw e (world_of (f w'))
  end.

Definition gets {A} (f : World -> A) : M A := fun w => Ok (f w) w.

Definition modify (f : World -> World) : M unit := fun w => Ok tt (f w).

Definition when (b : bool) (m : M unit) : M unit := if b then m else ret tt.

Notation "'let*' x ':=' m 'in' k" := (bind m (fun x => k))
  (at level 10, x name, m at level 100, k at level 200).

(** ** Store access *)

Definition PENDING : Value := VStr "PENDING".

Definition blank_event (cls : EventClass) : Event :=
  mkEvent (Some []) None false PENDING false None [] 0 cls.

(** Dereferencing an [EvId]; ids handed out by the constructors are always
    in range. *)
Definition ev (w : World) (e : EvId) : Event :=
  default (blank_event IsEvent) (events w !! e).

Definition blank_resource : Resource := mkResource 0 [] [] [].

Definition res (w : World) (r : ResId) : Resource :=
  default blank_resource (resources w !! r).

Definition set_callbacks (c : option (list Callback)) (x : Event) : Event :=
  mkEvent c (_ok x) (_defused x) (_value x) (_scheduled x) (_evaluate x)
    (_events x) (_count x) (class x).
Definition set_ok (o : option bool) (x : Event) : Event :=
  mkEvent (callbacks x) o (_defused x) (_value x) (_scheduled x) (_evaluate x)
    (_events x) (_count x) (class x).
Definition set_defused (d : bool) (x : Event) : Event :=
  mkEvent (callbacks x) (_ok x) d (_value x) (_scheduled x) (_evaluate x)
    (_events x) (_count x) (class x).
Definition set_value (v : Value) (x : Event) : Event :=
  mkEvent (callbacks x) (_ok x) (_defused x) v (_scheduled x) (_evaluate x)
    (_events x) (_count x) (class x).
Definition set_scheduled (s : bool) (x : Event) : Event :=
  mkEvent (callbacks x) (_ok x) (_defused x) (_value x) s (_evaluate x)
    (_events x) (_count x) (class x).
Definition set_count (n : Z) (x : Event) : Event :=
  mkEvent (callbacks x) (_ok x) (_defused x) (_value x) (_scheduled x)
    (_evaluate x) (_events x) n (class x).
Definition set_class (c : EventClass) (x : Event) : Event :=
  mkEvent (callbacks x) (_ok x) (_defused x) (_value x) (_scheduled x)
    (_evaluate x) (_events x) (_count x) c.

Definition set_users (u : list Z) (x : Resource) : Resource :=
  mkResource (capacity x) u (putQueue x) (getQueue x).
Definition set_putQueue (q : list EvId) (x : Resource) : Resource :=
  mkResource (capacity x) (users x) q (getQueue x).
Definition set_getQueue (q : list EvId) (x : Resource) : Resource :=
  mkResource (capacity x) (users x) (putQueue x) q.

Definition with_env (f : Environment -> Environment) (w : World) : World :=
  mkWorld (f (env w)) (events w) (resources w) (results w).
Definition with_events (f : list Event -> list Event) (w : World) : World :=
  mkWorld (env w) (f (events w)) (resources w) (results w).
Definition with_resources (f : list Resource -> list Resource) (w : World)
  : World :=
  mkWorld (env w) (events w) (f (resources w)) (results w).
Definition with_results (f : list (string * EvId) -> list (string * EvId))
  (w : World) : World :=
  mkWorld (env w) (events w) (resources w) (f (results w)).

(** Field assignment on the event [e]. *)
Definition update_event (e : EvId) (f : Event -> Event) : M unit :=
  modify (with_events (alter f e)).

Definition update_resource (r : ResId) (f : Resource -> Resource) : M unit :=
  modify (with_resources (alter f r)).

(** Allocation of a new object; the result is its reference. *)
Definition alloc_event (x : Event) : M EvId := fun w =>
  Ok (length (events w)) (with_events (fun l => l ++ [x]) w).

Definition alloc_resource (x : Resource) : M ResId := fun w =>
  Ok (length (resources w)) (with_resources (fun l => l ++ [x]) w).

Definition set_activeProcess (p : option EvId) : M unit :=
  modify (with_env (fun E => mkEnv (_now E) (_queue E) (_eid E) p)).

(** [callbacks.push(cb)] on the list of [e]; pushing on [null] is a
    TypeError. *)
Definition push_callback (e : EvId) (cb : Callback) : M unit :=
  let* cbs := gets (fun w => callbacks (ev w e)) in
  match cbs with
  | None => throw (VError NullCallbacks)
  | Some l => update_event e (set_callbacks (Some (l ++ [cb])))
  end.

(** ** core/Environment.ts: the queue order, [schedule] and [peek] *)

(** The comparator given to [new Heap<QueueItem>(...)], on integer times;
    [JsEnvironment.queue_compare] is the comparator on all numbers. *)
Definition queue_compare (a b : QueueItem) : Z :=
  if negb (time a =? time b) then time a - time b
  else if negb (priority a =? priority b) then priority a - priority b
  else eid a - eid b.

Definition Environment_new (initialTime : Z) : Environment :=
  mkEnv initialTime [] 0 None.

(** A program state right after [new Environment(initialTime)]. *)
Definition World_new (initialTime : Z) : World :=
  mkWorld (Environment_new initialTime) [] [] [].

Definition now (w : World) : Z := _now (env w).

(** [priority === 'URGENT' ? 0 : 1] *)
Definition priority_class (p : Priority) : Z :=
  match p with URGENT => 0 | NORMAL => 1 end.

Definition enqueue (event : EvId) (priority : Priority) (delay : Z)
  (E : Environment) : Environment :=
  let scheduledTime := _now E + delay in
  mkEnv (_now E)
    (Heap.push queue_compare
       (mkItem scheduledTime (priority_class priority) (_eid E) event)
       (_queue E))
    (_eid E + 1)
    (activeProcess E).

(** [schedule(event, priority = 'NORMAL', delay = 0)] *)
Definition schedule (event : EvId) (priority : Priority) (delay : Z)
  : M unit :=
  let* _ := modify (with_env (enqueue event priority delay)) in
  update_event event (set_scheduled true).

(** [peek()]; the result [None] is [Infinity], which is the time of no item
    here ([JsEnvironment.peek] has the items scheduled for [Infinity]). *)
Definition peek (w : World) : option Z :=
  if (Heap.size (_queue (env w)) =? 0)%nat then None
  else match Heap.peek (_queue (env w)) with
       | Some item => Some (time item)
       | None => None
       end.

(** ** events/Event.ts *)

Definition is_PENDING (v : Value) : bool :=
  match v with VStr s => String.eqb s "PENDING" | _ => false end.

(** [get triggered(): this._value !== 'PENDING'] *)
Definition triggered (w : World) (e : EvId) : bool :=
  negb (is_PENDING (_value (ev w e))).

(** [get processed(): this.callbacks === null] *)
Definition processed (w : World) (e : EvId) : bool :=
  match callbacks (ev w e) with None => true | Some _ => false end.

(** Truthiness of an [_ok] field. *)
Definition truthy (o : option bool) : bool :=
  match o with Some true => true | _ => false end.

(** [x instanceof Error] *)
Definition is_Error (v : Value) : bool :=
  match v with VError _ | VStopSimulation _ => true | _ => false end.

(** [get ok()] *)
Definition ok (e : EvId) : M (option bool) :=
  let* t := gets (fun w => triggered w e) in
  if t then gets (fun w => _ok (ev w e))
  else throw (VError (NotYetAvailable e)).

(** [get value()] *)
Definition value (e : EvId) : M Value :=
  let* v := gets (fun w => _value (ev w e)) in
  if is_PENDING v then throw (VError (NotYetAvailable e)) else ret v.

(** [if (!this._scheduled) { this.env.schedule(this); this._scheduled = true }] *)
Definition schedule_once (self : EvId) : M unit :=
  let* s := gets (fun w => _scheduled (ev w self)) in
  when (negb s)
    (let* _ := schedule self NORMAL 0 in
     update_event self (set_scheduled true)).

(** [trigger(event)] *)
Definition trigger (self event : EvId) : M unit :=
  let* src := gets (fun w => ev w event) in
  let* _ := update_event self (set_ok (_ok src)) in
  let* _ := update_event self (set_value (_value src)) in
  schedule_once self.

(** [succeed(value = null)] *)
Definition succeed (self : EvId) (value : Value) : M unit :=
  let* v := gets (fun w => _value (ev w self)) in
  if negb (is_PENDING v) then throw (VError (AlreadyTriggered self))
  else
    let* _ := update_event self (set_ok (Some true)) in
    let* _ := update_event self (set_value value) in
    schedule_once self.

(** [fail(exception)] *)
Definition fail (self : EvId) (exception : Value) : M unit :=
  let* v := gets (fun w => _value (ev w self)) in
  if negb (is_PENDING v) then throw (VError (AlreadyTriggered self))
  else if negb (is_Error exception) then throw (VError NotAnException)
  else
    let* _ := update_event self (set_ok (Some false)) in
    let* _ := update_event self (set_value exception) in
    schedule_once self.

(** [allEvents(events, count)] and [anyEvents(events, count)] *)
Definition apply_evaluate (f : ConditionEvaluator) (events : list EvId)
  (count : Z) : bool :=
  match f with
  | allEvents => Z.of_nat (length events) =? count
  | anyEvents => (0 <? count) || (length events =? 0)%nat
  end.

(** [_check(event)] *)
Definition _check (self event : EvId) : M unit :=
  let* v := gets (fun w => _value (ev w self)) in
  if negb (is_PENDING v) then ret tt
  else
    let* _ := update_event self (fun x => set_count (_count x + 1) x) in
    let* child_ok := gets (fun w => _ok (ev w event)) in
    if negb (truthy child_ok) then
      let* _ := update_event event (set_defused true) in
      let* child_value := gets (fun w => _value (ev w event)) in
      fail self child_value
    else
      let* me := gets (fun w => ev w self) in
      match _evaluate me with
      | None => throw (VError NotCallable)
      | Some f =>
          if apply_evaluate f (_events me) (_count me)
          then succeed self (VConditionValue [])
          else ret tt
      end.

(** [_removeCheckCallbacks()]: the argument of [includes] is a function
    freshly made by [bind], which is identical to no element of any list,
    so the test is false for every child and no list is changed. *)
Definition _removeCheckCallbacks (self : EvId) : M unit := ret tt.

(** [_populateValue(value)]: the children whose callbacks are [null]. *)
Definition _populateValue (w : World) (children : list EvId) : list EvId :=
  List.filter (processed w) children.

(** [_buildValue(event)] *)
Definition _buildValue (self event : EvId) : M unit :=
  let* _ := _removeCheckCallbacks self in
  let* o := gets (fun w => _ok (ev w event)) in
  when (truthy o)
    (let* v := gets (fun w =>
                 VConditionValue (_populateValue w (_events (ev w self)))) in
     update_event self (set_value v)).

(** The [for (let event of this._events)] loop of [_initializeCondition]. *)
Fixpoint _initializeCondition_loop (self : EvId) (children : list EvId)
  : M unit :=
  match children with
  | [] => ret tt
  | event :: rest =>
      let* cbs := gets (fun w => callbacks (ev w event)) in
      let* _ := match cbs with
                | None => _check self event
                | Some _ => push_callback event (CbCheck self)
                end in
      _initializeCondition_loop self rest
  end.

(** [_initializeCondition()] *)
Definition _initializeCondition (self : EvId) : M unit :=
  let* children := gets (fun w => _events (ev w self)) in
  let* _ := _initializeCondition_loop self children in
  push_callback self (CbBuildValue self).

(** [constructor(env, evaluate = null, events = [])]; [cls] holds the
    fields of the subclass being constructed. *)
Definition Event_new (cls : EventClass) (evaluate : option ConditionEvaluator)
  (children : list EvId) : M EvId :=
  let* self := alloc_event
                 (mkEvent (Some []) None false PENDING false evaluate
                    children 0 cls) in
  let* _ := when (0 <? length children)%nat (_initializeCondition self) in
  ret self.

(** [and(other)] and [or(other)] *)
Definition Event_and (self other : EvId) : M EvId :=
  Event_new IsEvent (Some allEvents) [self; other].
Definition Event_or (self other : EvId) : M EvId :=
  Event_new IsEvent (Some anyEvents) [self; other].

(** ** events/Timeout.ts *)

Definition Timeout_new (delay : Z) (value : Value) : M EvId :=
  let* self := Event_new (IsTimeout delay) None [] in
  if delay <? 0 then throw (VError (NegativeDelay delay))
  else
    let* _ := update_event self (set_ok (Some true)) in
    let* _ := update_event self (set_value value) in
    let* _ := schedule self NORMAL delay in
    ret self.

(** ** events/Initialize.ts *)

Definition Initialize_new (process : EvId) : M EvId :=
  let* self := Event_new IsInitialize None [] in
  let* _ := update_event self (set_callbacks (Some [CbResume process])) in
  let* _ := update_event self (set_ok (Some true)) in
  let* _ := schedule self URGENT 0 in
  ret self.

(** ** errors/StopSimulation.ts and errors/Interrupt.ts *)

(** [static callback(event)] *)
Definition StopSimulation_callback (event : EvId) : M unit :=
  let* o := ok event in
  if truthy o then
    let* v := value event in
    throw (VStopSimulation v)
  else
    let* v := gets (fun w => _value (ev w event)) in
    throw v.

(** The text [`${v}`]; exact on primitive values, a class tag on objects. *)
Definition js_toString (v : Value) : string :=
  match v with
  | VUndefined => "undefined"
  | VNull => "null"
  | VBool true => "true"
  | VBool false => "false"
  | VNum n => pretty n
  | VStr s => s
  | VError _ => "Error"
  | VStopSimulation _ => "StopSimulation"
  | VEvent _ => "<Event object>"
  | VConditionValue _ => "[object Object]"
  end.

(** [new Interrupt(cause).toString()], that is [`${this.name}: ${this.cause}`] *)
Definition Interrupt_toString (cause : Value) : string :=
  ("Interrupt: " ++ js_toString cause)%string.

(** ** resources/Resource.ts and resources/BaseResource.ts *)

(** [constructor(env, capacity = 1)] *)
Definition Resource_new (capacity : Z) : M ResId :=
  if capacity <=? 0 then throw (VError InvalidCapacity)
  else alloc_resource (mkResource capacity [] [] []).

(** [event.amount]; [None] is [undefined]. *)
Definition amount_of (w : World) (e : EvId) : option Z :=
  match class (ev w e) with
  | IsGetResource _ a _ => Some a
  | IsPutResource _ a _ => Some a
  | _ => None
  end.

(** [for (let i = 0; i < amount; i++) this.users.push(1)], for an integer
    [amount] ([Fractional.turns] counts the turns for any amount). *)
Definition push_users (amount : Z) (users : list Z) : list Z :=
  Nat.iter (Z.to_nat amount) (fun u => u ++ [1]) users.

(** [for (let i = 0; i < amount; i++) this.users.pop()], for an integer
    [amount]. *)
Definition pop_users (amount : Z) (users : list Z) : list Z :=
  Nat.iter (Z.to_nat amount) (@removelast Z) users.

(** [_doGet(event)] *)
Definition _doGet (r : ResId) (event : EvId) : M bool :=
  let* R := gets (fun w => res w r) in
  let* a := gets (fun w => amount_of w event) in
  match a with
  | None => ret false
  | Some amount =>
      let available := capacity R - Z.of_nat (length (users R)) in
      if available >=? amount then
        let* _ := update_resource r (set_users (push_users amount (users R))) in
        let* _ := succeed event VNull in
        ret true
      else ret false
  end.

(** [_doPut(event)] *)
Definition _doPut (r : ResId) (event : EvId) : M bool :=
  let* R := gets (fun w => res w r) in
  let* a := gets (fun w => amount_of w event) in
  match a with
  | None => ret false
  | Some amount =>
      if Z.of_nat (length (users R)) >=? amount then
        let* _ := update_resource r (set_users (pop_users amount (users R))) in
        let* _ := succeed event VNull in
        ret true
      else ret false
  end.

(** The [while (idx < this.putQueue.length)] loop of [_triggerPut]; every
    iteration either removes an element or advances [idx], so the length
    of the queue at entry bounds the number of iterations. *)
Fixpoint _triggerPut_loop (fuel : nat) (r : ResId) (idx : nat) : M unit :=
  match fuel with
  | O => ret tt
  | S fuel' =>
      let* q := gets (fun w => putQueue (res w r)) in
      match q !! idx with
      | None => ret tt
      | Some putEvent =>
          let* proceed := _doPut r putEvent in
          let* t := gets (fun w => triggered w putEvent) in
          let* idx' :=
            (if t then
               let* _ := update_resource r
                           (fun R => set_putQueue (delete idx (putQueue R)) R) in
               ret idx
             else ret (S idx)) in
          if negb proceed then ret tt else _triggerPut_loop fuel' r idx'
      end
  end.

Definition _triggerPut (r : ResId) : M unit :=
  let* q := gets (fun w => putQueue (res w r)) in
  _triggerPut_loop (length q) r 0%nat.

(** The loop of [_triggerGet]. *)
Fixpoint _triggerGet_loop (fuel : nat) (r : ResId) (idx : nat) : M unit :=
  match fuel with
  | O => ret tt
  | S fuel' =>
      let* q := gets (fun w => getQueue (res w r)) in
      match q !! idx with
      | None => ret tt
      | Some getEvent =>
          let* proceed := _doGet r getEvent in
          let* t := gets (fun w => triggered w getEvent) in
          let* idx' :=
            (if t then
               let* _ := update_resource r
                           (fun R => set_getQueue (delete idx (getQueue R)) R) in
               ret idx
             else ret (S idx)) in
          if negb proceed then ret tt else _triggerGet_loop fuel' r idx'
      end
  end.

Definition _triggerGet (r : ResId) : M unit :=
  let* q := gets (fun w => getQueue (res w r)) in
  _triggerGet_loop (length q) r 0%nat.

(** resources/PutResource.ts: [constructor(resource, amount)] *)
Definition PutResource_new (r : ResId) (amount : Z) : M EvId :=
  let* proc := gets (fun w => activeProcess (env w)) in
  let* self := Event_new (IsPutResource r amount proc) None [] in
  if amount <=? 0 then throw (VError (InvalidAmount amount))
  else
    let* _ := update_resource r (fun R => set_putQueue (putQueue R ++ [self]) R) in
    let* _ := push_callback self (CbTriggerGet r) in
    let* _ := _triggerPut r in
    ret self.

(** Modelled from the spec: resources/GetResource.ts is not among the
    sources.  The spec (4.6): "On construction: validate [amount > 0]
    (else CapacityViolation); remember the currently active Process (may be
    null); enqueue self in the resource's get_queue; push the resource's
    trigger-put handler onto self's callbacks; call the resource's
    trigger_put procedure once; call trigger_get once". *)
Definition GetResource_new (r : ResId) (amount : Z) : M EvId :=
  let* proc := gets (fun w => activeProcess (env w)) in
  let* self := Event_new (IsGetResource r amount proc) None [] in
  if amount <=? 0 then throw (VError (InvalidAmount amount))
  else
    let* _ := update_resource r (fun R => set_getQueue (getQueue R ++ [self]) R) in
    let* _ := push_callback self (CbTriggerPut r) in
    let* _ := _triggerPut r in
    let* _ := _triggerGet r in
    ret self.

(** [const index = queue.indexOf(e); if (index > -1) queue.splice(index, 1)] *)
Fixpoint remove_first (e : EvId) (q : list EvId) : list EvId :=
  match q with
  | [] => []
  | x :: rest => if (x =? e)%nat then rest else x :: remove_first e rest
  end.

(** [PutResource.cancel()]; for a [GetResource] the same on [getQueue]
    (spec 4.6, Cancellation). *)
Definition cancel (self : EvId) : M unit :=
  let* t := gets (fun w => triggered w self) in
  if t then ret tt
  else
    let* c := gets (fun w => class (ev w self)) in
    match c with
    | IsPutResource r _ _ =>
        update_resource r (fun R => set_putQueue (remove_first self (putQueue R)) R)
    | IsGetResource r _ _ =>
        update_resource r (fun R => set_getQueue (remove_first self (getQueue R)) R)
    | _ => ret tt
    end.

(** [get(amount)], [put(amount)], [request(amount = 1)], [release(amount = 1)] *)
Definition get (r : ResId) (amount : Z) : M EvId := GetResource_new r amount.
Definition put (r : ResId) (amount : Z) : M EvId := PutResource_new r amount.
Definition request (r : ResId) (amount : Z) : M EvId := GetResource_new r amount.
Definition release (r : ResId) (amount : Z) : M EvId := PutResource_new r amount.

(** ** events/Process.ts *)

Definition generator_of (w : World) (self : EvId) : GenState :=
  match class (ev w self) with
  | IsProcess g _ => g
  | _ => GenCompleted
  end.

Definition set_generator (self : EvId) (g : GenState) : M unit :=
  update_event self (fun x =>
    match class x with
    | IsProcess _ t => set_class (IsProcess g t) x
    | _ => x
    end).

(** One statement of a generator body. *)
Definition exec_cmd (c : Cmd) : M Value :=
  match c with
  | CmdTimeout delay v => let* e := Timeout_new delay v in ret (VEvent e)
  | CmdEvent => let* e := Event_new IsEvent None [] in ret (VEvent e)
  | CmdSucceed e v => let* _ := succeed e v in ret (VEvent e)
  | CmdFail e v => let* _ := fail e v in ret (VEvent e)
  | CmdRequest r a => let* e := request r a in ret (VEvent e)
  | CmdRelease r a => let* e := release r a in ret (VEvent e)
  | CmdNow => gets (fun w => VNum (now w))
  end.

(** The [while (nextEvent !== null)] loop of [_resume], entered with the
    part [c] of the generator body that the pending [next]/[throw] call runs.
    A returned value ends the loop with [_ok = true]; a yielded Event with
    live callbacks receives the resume callback and ends the loop; a
    yielded Event with [callbacks === null] becomes the next waking event;
    any other yielded value is an error.  An exception leaving the
    generator leaves the loop as [Throw]. *)
Fixpoint _resume_loop (self : EvId) (c : Coroutine) : M unit :=
  match c with
  | CoReturn v =>
      let* _ := set_generator self GenCompleted in
      let* _ := update_event self (set_ok (Some true)) in
      update_event self (set_value v)
  | CoThrow e =>
      let* _ := set_generator self GenCompleted in
      throw e
  | CoDo cmd k_ok k_err =>
      fun w =>
        match exec_cmd cmd w with
        | Ok r w' => _resume_loop self (k_ok r) w'
        | Throw e w' => _resume_loop self (k_err e) w'
        end
  | CoYield y next thrown =>
      let* _ := set_generator self (GenSuspendedYield next thrown) in
      match y with
      | VEvent nextEvent =>
          fun w =>
            match callbacks (ev w nextEvent) with
            | Some _ => push_callback nextEvent (CbResume self) w
            | None =>
                if truthy (_ok (ev w nextEvent))
                then _resume_loop self (next (_value (ev w nextEvent))) w
                else _resume_loop self (thrown (_value (ev w nextEvent))) w
            end
      | _ => throw (VError InvalidYield)
      end
  end.

(** The first [generator.next(v)] or [generator.throw(e)] of a [_resume]
    call, by the state of the generator object. *)
Definition _resume_enter (self event : EvId) : M unit :=
  let* g := gets (fun w => generator_of w self) in
  let* waking := gets (fun w => ev w event) in
  match g with
  | GenSuspendedStart body =>
      if truthy (_ok waking) then _resume_loop self body
      else
        let* _ := set_generator self GenCompleted in
        throw (_value waking)
  | GenSuspendedYield next thrown =>
      if truthy (_ok waking) then _resume_loop self (next (_value waking))
      else _resume_loop self (thrown (_value waking))
  | GenCompleted =>
      if truthy (_ok waking) then
        let* _ := update_event self (set_ok (Some true)) in
        update_event self (set_value VUndefined)
      else throw (_value waking)
  end.

(** [_resume(event)].  The branch [if (nextEvent === null)] after the loop
    is dead: the loop is entered with an Event and leaves a non-Event
    [nextEvent] only by the Invalid Yield error. *)
Definition _resume (self event : EvId) : M unit :=
  let* _ := set_activeProcess (Some self) in
  finally
    (try_catch (_resume_enter self event)
       (fun e =>
          let* _ := update_event self (set_ok (Some false)) in
          let* _ := update_event self (set_value e) in
          schedule self NORMAL 0))
    (set_activeProcess None).

(** [constructor(env, generator)], for a [generator] that is a generator
    function with body [body]. *)
Definition Process_new (body : Coroutine) : M EvId :=
  let* self := Event_new (IsProcess (GenSuspendedStart body) None) None [] in
  let* target := Initialize_new self in
  let* _ := update_event self (fun x =>
              set_class (IsProcess (GenSuspendedStart body) (Some target)) x) in
  ret self.

(** [get isAlive(): this._value === 'PENDING'] *)
Definition isAlive (w : World) (self : EvId) : bool :=
  is_PENDING (_value (ev w self)).

(** [interrupt(cause = null)] *)
Definition interrupt (self : EvId) (cause : Value) : M unit :=
  let* alive := gets (fun w => isAlive w self) in
  when alive
    (let* _ := update_event self (set_ok (Some false)) in
     let* _ := update_event self (set_value (VStr (Interrupt_toString cause))) in
     schedule self NORMAL 0).

(** ** core/Environment.ts: [step] and [run] *)

(** The call [callback(event)]. *)
Definition call_callback (cb : Callback) (event : EvId) : M unit :=
  match cb with
  | CbUser tag => modify (with_results (fun l => l ++ [(tag, event)]))
  | CbThrow e => throw e
  | CbNotFunction => ret tt
  | CbStopSimulation => StopSimulation_callback event
  | CbResume p => _resume p event
  | CbCheck c => _check c event
  | CbBuildValue c => _buildValue c event
  | CbTriggerPut r => _triggerPut r
  | CbTriggerGet r => _triggerGet r
  end.

(** [for (const callback of event.callbacks)]: the array iterator reads
    the array at index [i] at every turn, so callbacks pushed while fanning
    are visited too.  [None] means that [fuel] turns were not enough. *)
Fixpoint fan (fuel : nat) (event : EvId) (i : nat) (w : World)
  : option (Res unit) :=
  match fuel with
  | O => None
  | S fuel' =>
      match callbacks (ev w event) with
      | None => Some (Ok tt w)
      | Some cbs =>
          match cbs !! i with
          | None => Some (Ok tt w)
          | Some cb =>
              match call_callback cb event w with
              | Ok _ w' => fan fuel' event (S i) w'
              | Throw e w' => Some (Throw e w')
              end
          end
      end
  end.

(** The assignments [queueItem = this._queue.pop(); this._now = time]. *)
Definition advance (queueItem : QueueItem) (q : list QueueItem) (w : World)
  : World :=
  with_env (fun E => mkEnv (time queueItem) q (_eid E) (activeProcess E)) w.

(** [step()] *)
Definition step (fuel : nat) (w : World) : option (Res unit) :=
  if (Heap.size (_queue (env w)) =? 0)%nat
  then Some (Throw (VError EmptySchedule) w)
  else
    match Heap.pop queue_compare (_queue (env w)) with
    | (None, _) => Some (Ok tt w)
    | (Some queueItem, q) =>
        let w1 := advance queueItem q w in
        match callbacks (ev w1 (event queueItem)) with
        | None => Some (Ok tt w1)
        | Some _ =>
            match fan fuel (event queueItem) 0%nat w1 with
            | None => None
            | Some (Throw e w2) => Some (Throw e w2)
            | Some (Ok _ w2) =>
                let x := ev w2 (event queueItem) in
                if negb (truthy (_ok x)) && negb (_defused x)
                then Some (Throw (_value x) w2)
                else Some (Ok tt w2)
            end
        end
    end.

(** The argument of [run]: absent or [null], a number, an Event, or a
    value of another type. *)
Inductive Until :=
| UntilNull
| UntilNumber (t : Z)
| UntilEvent (e : EvId)
| UntilOther.

(** [while (this._queue.size() > 0) this.step()]; at most [n] steps. *)
Fixpoint run_loop (fuel : nat) (n : nat) (w : World) : option (Res unit) :=
  match n with
  | O => None
  | S n' =>
      if (0 <? Heap.size (_queue (env w)))%nat then
        match step fuel w with
        | None => None
        | Some (Throw e w') => Some (Throw e w')
        | Some (Ok _ w') => run_loop fuel n' w'
        end
      else Some (Ok tt w)
  end.

(** [run(until = null)] *)
Definition run (fuel : nat) (until : Until) (w : World) : option (Res unit) :=
  match until with
  | UntilNull => run_loop fuel fuel w
  | UntilOther => Some (Throw (VError InvalidUntil) w)
  | UntilNumber _ => run_loop fuel fuel w
  | UntilEvent e =>
      match push_callback e CbStopSimulation w with
      | Ok _ w' => run_loop fuel fuel w'
      | Throw x w' => Some (Throw x w')
      end
  end.

(** [process(generatorFunction)] *)
Definition process (body : Coroutine) : M EvId := Process_new body.

(** ** The programming interface *)

(** The calls a user program makes. *)
Inductive Api :=
| ApiEvent (evaluate : option ConditionEvaluator) (children : list EvId)
| ApiSucceed (e : EvId) (v : Value)
| ApiFail (e : EvId) (v : Value)
| ApiTrigger (e src : EvId)
| ApiSetDefused (e : EvId) (b : bool)
| ApiAddCallback (e : EvId) (cb : Callback)
| ApiSchedule (e : EvId) (p : Priority) (delay : Z)
| ApiTimeout (delay : Z) (v : Value)
| ApiProcess (body : Coroutine)
| ApiInterrupt (p : EvId) (cause : Value)
| ApiResource (capacity : Z)
| ApiGet (r : ResId) (amount : Z)
| ApiPut (r : ResId) (amount : Z)
| ApiCancel (e : EvId)
| ApiTriggerGet (r : ResId)
| ApiTriggerPut (r : ResId)
| ApiStep
| ApiRun (until : Until).

(** A call whose result value is dropped. *)
Definition lift {A} (m : M A) (w : World) : option (Res unit) :=
  match m w with
  | Ok _ w' => Some (Ok tt w')
  | Throw e w' => Some (Throw e w')
  end.

Definition call (fuel : nat) (a : Api) : World -> option (Res unit) :=
  match a with
  | ApiEvent evaluate children => lift (Event_new IsEvent evaluate children)
  | ApiSucceed e v => lift (succeed e v)
  | ApiFail e v => lift (fail e v)
  | ApiTrigger e src => lift (trigger e src)
  | ApiSetDefused e b => lift (update_event e (set_defused b))
  | ApiAddCallback e cb => lift (push_callback e cb)
  | ApiSchedule e p delay => lift (schedule e p delay)
  | ApiTimeout delay v => lift (Timeout_new delay v)
  | ApiProcess body => lift (process body)
  | ApiInterrupt p cause => lift (interrupt p cause)
  | ApiResource capacity => lift (Resource_new capacity)
  | ApiGet r amount => lift (get r amount)
  | ApiPut r amount => lift (put r amount)
  | ApiCancel e => lift (cancel e)
  | ApiTriggerGet r => lift (_triggerGet r)
  | ApiTriggerPut r => lift (_triggerPut r)
  | ApiStep => step fuel
  | ApiRun until => run fuel until
  end.

(** The states a program reaches from a new environment with calls that
    satisfy [allowed]; a call that throws leaves the state it reached. *)
Inductive reachable_by (allowed : Api -> Prop) (initialTime : Z)
  : World -> Prop :=
| reach_new : reachable_by allowed initialTime (World_new initialTime)
| reach_call w fuel a r :
    reachable_by allowed initialTime w ->
    allowed a ->
    call fuel a w = Some r ->
    reachable_by allowed initialTime (world_of r).

Definition any_call (a : Api) : Prop := True.

Definition reachable : Z -> World -> Prop := reachable_by any_call.

(** Calls that give [schedule] no negative delay. *)
Definition nonneg_delay (a : Api) : Prop :=
  match a with
  | ApiSchedule _ _ delay => 0 <= delay
  | _ => True
  end.

(** Programs that only create resources, get, put, cancel, drive the
    queues and step. *)
Definition resource_call (a : Api) : Prop :=
  match a with
  | ApiResource _ | ApiGet _ _ | ApiPut _ _ | ApiCancel _
  | ApiTriggerGet _ | ApiTriggerPut _ | ApiStep => True
  | _ => False
  end.

(** ** Vocabulary of the properties *)

(** The lexicographic order on (time, priority class, insertion sequence). *)
Definition lex_lt (a b : QueueItem) : Prop :=
  time a < time b \/
  (time a = time b /\
   (priority a < priority b \/
    (priority a = priority b /\ eid a < eid b))).

Definition same_key (a b : QueueItem) : Prop :=
  time a = time b /\ priority a = priority b /\ eid a = eid b.

Definition lex_le (a b : QueueItem) : Prop := lex_lt a b \/ same_key a b.

(** The queue is a heap whose items carry distinct sequence numbers, all
    below the counter [_eid]. *)
Definition queue_wf (E : Environment) : Prop :=
  Heap.heap_ok queue_compare (_queue E) /\
  (forall x, x ∈ _queue E -> eid x < _eid E) /\
  NoDup (map eid (_queue E)).


(** Popping until the heap is empty: the order in which [step] would take
    the items out. *)
Fixpoint drain (n : nat) (q : list QueueItem) : list QueueItem :=
  match n with
  | O => []
  | S n' =>
      match Heap.pop queue_compare q with
      | (Some x, q') => x :: drain n' q'
      | (None, _) => []
      end
  end.

Definition pop_order (q : list QueueItem) : list QueueItem :=
  drain (length q) q.

(** Predicates on environments kept by every [schedule] with a delay that
    is not negative, and by assignments to [activeProcess]. *)
Definition stable (I : Environment -> Prop) : Prop :=
  (forall E e p d, 0 <= d -> I E -> I (enqueue e p d E)) /\
  (forall E a, I E -> I (mkEnv (_now E) (_queue E) (_eid E) a)).

(** ... and by [schedule] with any delay. *)
Definition stable_any (I : Environment -> Prop) : Prop :=
  forall E e p d, I E -> I (enqueue e p d E).

(** ... and by taking the next item out of the queue. *)
Definition pop_stable (I : Environment -> Prop) : Prop :=
  forall E x q, I E -> Heap.pop queue_compare (_queue E) = (Some x, q) ->
                I (mkEnv (time x) q (_eid E) (activeProcess E)).

(** A computation keeps every stable predicate on the environment. *)
Definition preserves {A} (m : M A) : Prop :=
  forall I, stable I -> forall w, I (env w) -> I (env (world_of (m w))).

(** Units acquired from, and released to, the resource [r]: the amounts of
    its triggered get and put events. *)
Definition acquired_of (r : ResId) (x : Event) : Z :=
  match class x with
  | IsGetResource r' a _ =>
      if (r' =? r)%nat && negb (is_PENDING (_value x)) then a else 0
  | _ => 0
  end.

Definition released_of (r : ResId) (x : Event) : Z :=
  match class x with
  | IsPutResource r' a _ =>
      if (r' =? r)%nat && negb (is_PENDING (_value x)) then a else 0
  | _ => 0
  end.

Definition sumZ (l : list Z) : Z := fold_right Z.add 0 l.

Definition acquired (w : World) (r : ResId) : Z :=
  sumZ (map (acquired_of r) (events w)).

Definition released (w : World) (r : ResId) : Z :=
  sumZ (map (released_of r) (events w)).

Definition user_count (w : World) (r : ResId) : Z :=
  Z.of_nat (length (users (res w r))).

(** User callbacks: closures that record their tag, and entries that
    are not functions. *)
Definition is_user (cb : Callback) : bool :=
  match cb with CbUser _ | CbNotFunction => true | _ => false end.

(** What the user callbacks of [cbs] push on [results] when called, in
    order, with [event]. *)
Fixpoint user_log (event : EvId) (cbs : list Callback)
  : list (string * EvId) :=
  match cbs with
  | [] => []
  | CbUser tag :: l => (tag, event) :: user_log event l
  | _ :: l => user_log event l
  end.

(** The generator function
    [function* () { try { yield new Timeout(env, 100) } catch (e) { return e } }]. *)
Definition try_yield_timeout : Coroutine :=
  CoDo (CmdTimeout 100 VNull)
    (fun t => CoYield t (fun _ => CoReturn VUndefined) (fun e => CoReturn e))
    (fun e => CoReturn e).

(** The callbacks that the resource events carry. *)
Definition is_trigger (cb : Callback) : bool :=
  match cb with CbTriggerPut _ | CbTriggerGet _ => true | _ => false end.

(** A queued request: an existing event that is still pending. *)
Definition queued_ok (w : World) (e : EvId) : Prop :=
  (e < length (events w))%nat /\ is_PENDING (_value (ev w e)) = true.

(** The state of one resource agrees with the events of the world. *)
Record resource_ok (w : World) (r : ResId) (R : Resource) : Prop := {
  ro_capacity : 0 < capacity R;
  ro_bound : Z.of_nat (length (users R)) <= capacity R;
  ro_count : Z.of_nat (length (users R)) = acquired w r - released w r;
  ro_get_nodup : NoDup (getQueue R);
  ro_put_nodup : NoDup (putQueue R);
  ro_get : forall e, e ∈ getQueue R ->
             queued_ok w e /\
             exists a p, class (ev w e) = IsGetResource r a p /\ 0 < a;
  ro_put : forall e, e ∈ putQueue R ->
             queued_ok w e /\
             exists a p, class (ev w e) = IsPutResource r a p /\ 0 < a }.

(** The worlds of programs that only use resources: every callback is a
    resource trigger, every resource is consistent, and an event that was
    triggered belongs to an existing resource. *)
Record res_inv (w : World) : Prop := {
  ri_callbacks : forall e, exists cbs,
      callbacks (ev w e) = Some cbs /\ forallb is_trigger cbs = true;
  ri_resources : forall r R, resources w !! r = Some R -> resource_ok w r R;
  ri_triggered : forall e, is_PENDING (_value (ev w e)) = false ->
      exists r a p, (r < length (resources w))%nat /\
        (class (ev w e) = IsGetResource r a p \/
         class (ev w e) = IsPutResource r a p) }.

(** Get events ([g = true]) and put events ([g = false]), their queues and
    the change of the user count when one is granted. *)
Definition kind_class (g : bool) (r : ResId) (a : Z) (p : option EvId)
  : EventClass :=
  if g then IsGetResource r a p else IsPutResource r a p.

Definition kind_queue (g : bool) (R : Resource) : list EvId :=
  if g then getQueue R else putQueue R.

Definition kind_delta (g : bool) (a : Z) : Z := if g then a else - a.

(** The callback that a new request of the kind [g] carries. *)
Definition kind_callback (g : bool) (r : ResId) : Callback :=
  if g then CbTriggerPut r else CbTriggerGet r.

(** [queue.push(self)] on the queue of the kind [g]. *)
Definition kind_push (g : bool) (self : EvId) (R : Resource) : Resource :=
  if g then set_getQueue (getQueue R ++ [self]) R
  else set_putQueue (putQueue R ++ [self]) R.

(** ** Programs and scenarios used in the statements *)


(** The state after the calls of [l], made in order; a call that does not
    terminate within [fuel] ends the program. *)
Fixpoint run_calls (fuel : nat) (l : list Api) (w : World) : World :=
  match l with
  | [] => w
  | a :: l' =>
      match call fuel a w with
      | Some r => run_calls fuel l' (world_of r)
      | None => w
      end
  end.

(** Two events scheduled for the same instant, the NORMAL one first and
    the URGENT one second, and a third one for an earlier instant. *)
Definition three_scheduled : World :=
  run_calls 5
    [ApiEvent None []; ApiEvent None []; ApiEvent None [];
     ApiSchedule 0%nat NORMAL 5; ApiSchedule 1%nat URGENT 5;
     ApiSchedule 2%nat NORMAL 3]
    (World_new 0).


(** One event succeeded with "first", another failed with an Error. *)
Definition succeeded_and_failed : World :=
  run_calls 5
    [ApiEvent None []; ApiEvent None [];
     ApiSucceed 0%nat (VStr "first");
     ApiFail 1%nat (VError (UserError "second"))]
    (World_new 0).

Definition one_event : World :=
  run_calls 5 [ApiEvent None []] (World_new 0).

(** An event with two user callbacks, succeeded with "v". *)
Definition two_callbacks : World :=
  run_calls 5
    [ApiEvent None [];
     ApiAddCallback 0%nat (CbUser "cb1");
     ApiAddCallback 0%nat (CbUser "cb2");
     ApiSucceed 0%nat (VStr "v")]
    (World_new 0).

Definition timeout_at_10 : World :=
  run_calls 5 [ApiTimeout 10 VNull] (World_new 0).

(** The process of [try_yield_timeout], interrupted with [cause] right
    after its construction. *)
Definition interrupted (cause : string) : World :=
  run_calls 5
    [ApiProcess try_yield_timeout; ApiInterrupt 0%nat (VStr cause)]
    (World_new 0).

(** A resource of capacity 2; three requests of one unit, of which the
    third has to wait; then a release of one unit, and the steps that
    process the granted events. *)
Definition contended : World :=
  run_calls 5
    [ApiResource 2; ApiGet 0%nat 1; ApiGet 0%nat 1; ApiGet 0%nat 1;
     ApiStep; ApiStep; ApiPut 0%nat 1; ApiStep]
    (World_new 0).

(** ** Programs on a heap *)

(** What [Heap] asks of its comparator: the sign of [compare a b] orders
    [a] and [b] consistently. *)
Definition comparator_ok {T} (compare : T -> T -> Z) : Prop :=
  (forall a, Heap.cle compare a a) /\
  (forall a b, compare a b < 0 -> Heap.cle compare a b) /\
  (forall a b c, Heap.cle compare a b -> Heap.cle compare b c ->
                 Heap.cle compare a c).

(** [for (const x of l) heap.push(x)] *)
Definition push_all {T} (compare : T -> T -> Z) (l items : list T) : list T :=
  fold_left (fun h x => Heap.push compare x h) l items.

(** [while (heap.size() > 0) out.push(heap.pop())], at most [n] turns. *)
Fixpoint pop_all {T} (compare : T -> T -> Z) (n : nat) (items : list T)
  : list T :=
  match n with
  | O => []
  | S n' =>
      match Heap.pop compare items with
      | (Some x, rest) => x :: pop_all compare n' rest
      | (None, _) => []
      end
  end.

(** Sorting through the heap: push everything, then pop everything. *)
Definition heap_sort {T} (compare : T -> T -> Z) (l : list T) : list T :=
  pop_all compare (length l) (push_all compare l []).

(** ** core/ConditionValue.ts *)

(** A ConditionValue is its [events] array.  [has(item)] *)
Definition ConditionValue_has (events : list EvId) (item : EvId) : bool :=
  bool_decide (item ∈ events).

(** [get(item)]; the result [None] is the thrown Error
    [`Key ${item} not found`]. *)
Definition ConditionValue_get (w : World) (events : list EvId) (item : EvId)
  : option Value :=
  if ConditionValue_has events item then Some (_value (ev w item)) else None.

(** [keys()], [values()] and [entries()] *)
Definition ConditionValue_keys (events : list EvId) : list EvId := events.

Definition ConditionValue_values (w : World) (events : list EvId)
  : list Value :=
  map (fun event => _value (ev w event)) events.

Definition ConditionValue_entries (w : World) (events : list EvId)
  : list (EvId * Value) :=
  map (fun event => (event, _value (ev w event))) events.

(** ** monitoring/Logger.ts *)

Module Logger.

(** types.ts: [LogLevel], and the fields of [BaseLogEntry] that the logger
    reads ([metadata] and the fields of the entry subtypes are carried
    along by JavaScript and never inspected here). *)
Inductive LogLevel := DEBUG | INFO | WARN | ERROR | CRITICAL.

Inductive MonitoringEventType :=
| EVENT_SCHEDULED | EVENT_EXECUTED | EVENT_SUCCEEDED | EVENT_FAILED
| PROCESS_STARTED | PROCESS_RESUMED | PROCESS_YIELDED | PROCESS_COMPLETED
| PROCESS_INTERRUPTED
| RESOURCE_REQUESTED | RESOURCE_ACQUIRED | RESOURCE_RELEASED
| RESOURCE_QUEUE_JOINED | RESOURCE_QUEUE_LEFT
| SIMULATION_STARTED | SIMULATION_STEPPED | SIMULATION_STOPPED
| SIMULATION_ERROR
| PERFORMANCE_SAMPLE.

Record BaseLogEntry := mkEntry {
  timestamp : Z;
  simulationTime : Z;
  level : LogLevel;
  type : MonitoringEventType;
  message : string;
  component : string }.

#[global] Instance LogLevel_eq_dec : EqDecision LogLevel.
Proof. solve_decision. Defined.

#[global] Instance MonitoringEventType_eq_dec : EqDecision MonitoringEventType.
Proof. solve_decision. Defined.

(** A [Record<K, number>] object filled by
    [stats[k] = (stats[k] || 0) + 1]: the keys in insertion order. *)
Fixpoint dict_get {K} `{EqDecision K} (k : K) (d : list (K * Z)) : option Z :=
  match d with
  | [] => None
  | (k', n) :: d' => if decide (k = k') then Some n else dict_get k d'
  end.

Fixpoint dict_set {K} `{EqDecision K} (k : K) (v : Z) (d : list (K * Z))
  : list (K * Z) :=
  match d with
  | [] => [(k, v)]
  | (k', n) :: d' =>
      if decide (k = k') then (k', v) :: d' else (k', n) :: dict_set k v d'
  end.

(** [stats[k] = (stats[k] || 0) + 1] *)
Definition bump {K} `{EqDecision K} (k : K) (d : list (K * Z)) : list (K * Z) :=
  dict_set k
    (match dict_get k d with
     | Some n => (if n =? 0 then 0 else n) + 1
     | None => 0 + 1
     end) d.


(** A hook is a closure; it is known by its identity, and what the logger
    does with it is to call it: [calls] records these calls. *)
Abbreviation Hook := nat.

(** A logger: of its [config], the fields [logLevel] and [maxLogEntries]
    that [log] reads (the output format only matters to the exporters). *)
Record Logger := mk {
  logLevel : LogLevel;
  maxLogEntries : Z;
  logEntries : list BaseLogEntry;
  hooks : list Hook;
  calls : list (Hook * BaseLogEntry) }.

(** [constructor(config)] *)
Definition new (logLevel : LogLevel) (maxLogEntries : Z) : Logger :=
  mk logLevel maxLogEntries [] [] [].

Definition LOG_LEVELS (l : LogLevel) : Z :=
  match l with
  | DEBUG => 0 | INFO => 1 | WARN => 2 | ERROR => 3 | CRITICAL => 4
  end.

(** [shouldLog(level)] *)
Definition shouldLog (L : Logger) (level : LogLevel) : bool :=
  LOG_LEVELS level >=? LOG_LEVELS (logLevel L).

Definition set_timestamp (t : Z) (e : BaseLogEntry) : BaseLogEntry :=
  mkEntry t (simulationTime e) (level e) (type e) (message e) (component e).

(** [log(entry)], where [Date_now] is the value of [Date.now()].  The entry
    is taken by value, as an object that is logged once; [LoggerRefs.log]
    keeps the entry objects in a store. *)
Definition log (entry : BaseLogEntry) (Date_now : Z) (L : Logger) : Logger :=
  if negb (shouldLog L (level entry)) then L
  else
    let entry := set_timestamp Date_now entry in
    let entries := logEntries L ++ [entry] in
    let entries :=
      if Z.of_nat (length entries) >? maxLogEntries L
      then drop 1 entries else entries in
    mk (logLevel L) (maxLogEntries L) entries (hooks L)
       (calls L ++ map (fun hook => (hook, entry)) (hooks L)).



(** [clear()] *)
Definition clear (L : Logger) : Logger :=
  mk (logLevel L) (maxLogEntries L) [] (hooks L) (calls L).

(** The result of [getStatistics()], for the dictionaries whose keys are
    of an enumerated type. *)
Record Statistics := mkStatistics {
  totalEntries : Z;
  entriesByLevel : list (LogLevel * Z);
  entriesByType : list (MonitoringEventType * Z);
  timeRange : Z * Z }.

Definition getStatistics (L : Logger) : Statistics :=
  let start := match logEntries L with
               | e :: _ => simulationTime e
               | [] => 0
               end in
  let end_ := match last (logEntries L) with
              | Some e => simulationTime e
              | None => 0
              end in
  let stats := mkStatistics (Z.of_nat (length (logEntries L))) [] []
                 (start, end_) in
  fold_left
    (fun stats entry =>
       mkStatistics (totalEntries stats)
         (bump (level entry) (entriesByLevel stats))
         (bump (type entry) (entriesByType stats))
         (timeRange stats))
    (logEntries L) stats.

(** A run of [log] calls, each with its reading of the clock. *)
Definition log_all (es : list (BaseLogEntry * Z)) (L : Logger) : Logger :=
  fold_left (fun L et => log (fst et) (snd et) L) es L.

(** The entries of [es] that pass the level of [L], stamped. *)
Definition accepted (L : Logger) (es : list (BaseLogEntry * Z))
  : list BaseLogEntry :=
  map (fun et => set_timestamp (snd et) (fst et))
    (List.filter (fun et => shouldLog L (level (fst et))) es).

End Logger.

(** ** monitoring/PerformanceMonitor.ts *)

Module PerformanceMonitor.

(** The counters of a PerformanceMonitor. *)
Record PerformanceMonitor := mk {
  isMonitoring : bool;
  eventsProcessed : Z;
  eventExecutionTimes : list Z;
  simulationStartTime : Z;
  eventQueueSize : Z }.

(** [constructor(logger, sampleInterval)], at the clock reading
    [Date_now]. *)
Definition new (Date_now : Z) : PerformanceMonitor :=
  mk false 0 [] Date_now 0.

(** [start()] and [stop()] *)
Definition start (Date_now : Z) (P : PerformanceMonitor) : PerformanceMonitor :=
  if isMonitoring P then P
  else mk true (eventsProcessed P) (eventExecutionTimes P) Date_now
         (eventQueueSize P).

Definition stop (P : PerformanceMonitor) : PerformanceMonitor :=
  if negb (isMonitoring P) then P
  else mk false (eventsProcessed P) (eventExecutionTimes P)
         (simulationStartTime P) (eventQueueSize P).

(** [slice(-n)] *)
Definition slice_last {A} (n : Z) (l : list A) : list A :=
  drop (Z.to_nat (Z.of_nat (length l) - n)) l.

(** [recordEventExecution(executionTime)] *)
Definition recordEventExecution (executionTime : Z) (P : PerformanceMonitor)
  : PerformanceMonitor :=
  let times := eventExecutionTimes P ++ [executionTime] in
  let times := if Z.of_nat (length times) >? 10000
               then slice_last 5000 times else times in
  mk (isMonitoring P) (eventsProcessed P + 1) times (simulationStartTime P)
     (eventQueueSize P).

(** [updateEventQueueSize(size)] *)
Definition updateEventQueueSize (size : Z) (P : PerformanceMonitor)
  : PerformanceMonitor :=
  mk (isMonitoring P) (eventsProcessed P) (eventExecutionTimes P)
     (simulationStartTime P) size.

(** [reset()] *)
Definition reset (Date_now : Z) (P : PerformanceMonitor) : PerformanceMonitor :=
  mk (isMonitoring P) 0 [] Date_now 0.

(** A run of [recordEventExecution] calls. *)
Definition record_all (ts : list Z) (P : PerformanceMonitor)
  : PerformanceMonitor :=
  fold_left (fun P t => recordEventExecution t P) ts P.

End PerformanceMonitor.

(** ** monitoring/Monitor.ts: the identifiers of events *)

Module Monitor.

(** The part of a Monitor that names events: the counter and the WeakMap
    from Event objects to their identifiers. *)
Record Ids := mk {
  eventIdCounter : Z;
  eventIds : list (EvId * string) }.

Definition new : Ids := mk 0 [].



(** What [reset()] does to this part: the counter starts again, the
    WeakMap is kept. *)
Definition reset (M : Ids) : Ids := mk 0 (eventIds M).


End Monitor.


(** ** Further vocabulary *)


(** The calls that process events. *)
Definition is_step (a : Api) : bool :=
  match a with ApiStep | ApiRun _ => true | _ => false end.

(** An event with one user callback that failed with an Error, and the
    same event defused. *)
Definition failed_event : World :=
  run_calls 5
    [ApiEvent None []; ApiAddCallback 0%nat (CbUser "cb");
     ApiFail 0%nat (VError (UserError "boom"))]
    (World_new 0).

(** Two events and the condition [e0.and(e1)], with [e0] succeeded. *)
Definition and_condition : World :=
  run_calls 5
    [ApiEvent None []; ApiEvent None [];
     ApiEvent (Some allEvents) [0%nat; 1%nat];
     ApiSucceed 0%nat (VNum 1)]
    (World_new 0).

(** [m] returns normally and has put [e] on the queue, for the current
    time with the priority NORMAL, unless [e] was marked as scheduled. *)
Definition queues_once (m : M unit) (w : World) (e : EvId) : Prop :=
  exists w', m w = Ok tt w' /\
    _scheduled (ev w' e) = true /\
    env w' = if _scheduled (ev w e) then env w
             else enqueue e NORMAL 0 (env w).

(** No event of the world has had its callback list released. *)
Definition live (w : World) : Prop :=
  forall e x, events w !! e = Some x -> callbacks x <> None.

(** A computation that releases no callback list. *)
Definition keeps_live {A} (m : M A) : Prop :=
  forall w, live w -> live (world_of (m w)).


(** The generator function
    [function* () { yield new Timeout(env, d); return v }]. *)
Definition sleeper (d : Z) (v : Value) : Coroutine :=
  CoDo (CmdTimeout d VNull)
    (fun t => CoYield t (fun _ => CoReturn v) (fun e => CoThrow e))
    (fun e => CoThrow e).

(** [const p = env.process(sleeper); p.callbacks.push(cb)] in a new
    environment. *)
Definition sleeper_program (t0 d : Z) (v : Value) (tag : string) : World :=
  run_calls 2 [ApiProcess (sleeper d v); ApiAddCallback 0%nat (CbUser tag)]
    (World_new t0).

(** [env.process(g)] in a new environment, for a generator function whose
    first [yield] gives [y]. *)
Definition yielding_program (t0 : Z) (y : Value)
  (next thrown : Value -> Coroutine) : World :=
  run_calls 2 [ApiProcess (CoYield y next thrown)] (World_new t0).

(** A resource of capacity 2 with one unit in use; a request for two
    units waits, and a later request for one unit waits behind it. *)
Definition blocked : World :=
  run_calls 5
    [ApiResource 2; ApiGet 0%nat 1; ApiGet 0%nat 2; ApiGet 0%nat 1]
    (World_new 0).

(** A resource of capacity 2 with both units in use. *)
Definition in_use : World :=
  run_calls 5 [ApiResource 2; ApiGet 0%nat 2] (World_new 0).

(** The generator function
    [function* () { try { yield e } catch (x) { return x } }]. *)
Definition try_yield (e : EvId) : Coroutine :=
  CoYield (VEvent e) (fun _ => CoReturn VUndefined) (fun x => CoReturn x).

(** An event, a process that waits for it inside [try]/[catch], started,
    and the event failed with the Error [x]. *)
Definition catching_program (t0 : Z) (k : ErrKind) : World :=
  run_calls 5
    [ApiEvent None []; ApiProcess (try_yield 0%nat); ApiStep;
     ApiFail 0%nat (VError k)]
    (World_new t0).

(** ** Vocabulary on what [step] and [run] leave, and on conditions *)




(** Successive calls [self._check(c)], one for each member of [l]. *)
Fixpoint check_all (self : EvId) (l : list EvId) : M unit :=
  match l with
  | [] => ret tt
  | c :: l' => let* _ := _check self c in check_all self l'
  end.

(** Two events and the condition [e0.and(e1)]; [e0] succeeds, is processed,
    is scheduled once more and is processed again; [e1] stays pending. *)
Definition processed_twice (t0 : Z) (v : Value) : World :=
  run_calls 5
    [ApiEvent None []; ApiEvent None [];
     ApiEvent (Some allEvents) [0%nat; 1%nat];
     ApiSucceed 0%nat v; ApiStep; ApiSchedule 0%nat NORMAL 0; ApiStep]
    (World_new t0).

(** Two events that have succeeded and the condition [e0.and(e1)], before
    any step. *)
Definition both_succeeded : World :=
  run_calls 5
    [ApiEvent None []; ApiEvent None [];
     ApiEvent (Some allEvents) [0%nat; 1%nat];
     ApiSucceed 0%nat (VNum 1); ApiSucceed 1%nat (VNum 2)]
    (World_new 0).

(** ** JavaScript numbers: NaN and the infinities

    The embedding above takes clock values and delays to be integers.
    [schedule] checks nothing and [Timeout] only rejects [delay < 0], which
    is false of NaN: both also take NaN and [Infinity].  What follows models
    numbers with these values, the heap under a comparator that returns
    such a number, and the part of the Environment that orders the queue
    (the clock, the heap and the counter). *)

Module Js.

Inductive number := Int (z : Z) | Infinity | NegInfinity | NaN.

(** [a + b] *)
Definition add (a b : number) : number :=
  match a, b with
  | NaN, _ | _, NaN => NaN
  | Int x, Int y => Int (x + y)
  | Infinity, NegInfinity | NegInfinity, Infinity => NaN
  | Infinity, _ | _, Infinity => Infinity
  | NegInfinity, _ | _, NegInfinity => NegInfinity
  end.

(** [a - b] *)
Definition sub (a b : number) : number :=
  match a, b with
  | NaN, _ | _, NaN => NaN
  | Int x, Int y => Int (x - y)
  | Infinity, Infinity | NegInfinity, NegInfinity => NaN
  | Infinity, _ | _, NegInfinity => Infinity
  | NegInfinity, _ | _, Infinity => NegInfinity
  end.

(** [a !== b]: NaN differs from every number, itself included. *)
Definition strict_ne (a b : number) : bool :=
  match a, b with
  | Int x, Int y => negb (x =? y)
  | Infinity, Infinity | NegInfinity, NegInfinity => false
  | _, _ => true
  end.

(** [n >= 0] and [n < 0]: both are false of NaN. *)
Definition ge0 (n : number) : bool :=
  match n with Int z => z >=? 0 | Infinity => true | _ => false end.

Definition lt0 (n : number) : bool :=
  match n with Int z => z <? 0 | NegInfinity => true | _ => false end.

End Js.

(** core/Heap.ts once more, for a comparator whose result is a JavaScript
    number. *)
Module JsHeap.
Section heap.
Context {T : Type}.
Variable compare : T -> T -> Js.number.

Definition size (items : list T) : nat := length items.

Definition peek (items : list T) : option T := items !! 0%nat.

Fixpoint _heapifyUp_loop (fuel : nat) (item : T) (idx : nat)
  (items : list T) : list T :=
  match fuel with
  | O => items
  | S fuel' =>
      if (0 <? idx)%nat then
        let parentIdx := ((idx - 1) / 2)%nat in
        match items !! parentIdx with
        | None => items
        | Some parent =>
            if Js.ge0 (compare item parent) then items
            else _heapifyUp_loop fuel' item parentIdx
                   (<[idx := parent]> (<[parentIdx := item]> items))
        end
      else items
  end.

Definition _heapifyUp (items : list T) : list T :=
  let idx := (size items - 1)%nat in
  match items !! idx with
  | None => items
  | Some item => _heapifyUp_loop idx item idx items
  end.

Definition push (item : T) (items : list T) : list T :=
  _heapifyUp (items ++ [item]).

Definition lt_at (items : list T) (i j : nat) : bool :=
  match items !! i, items !! j with
  | Some a, Some b => Js.lt0 (compare a b)
  | _, _ => false
  end.

Definition smallest_of (items : list T) (idx : nat) : nat :=
  let leftIdx := (2 * idx + 1)%nat in
  let rightIdx := (2 * idx + 2)%nat in
  let smallest := idx in
  let smallest := if lt_at items leftIdx smallest then leftIdx else smallest in
  let smallest := if lt_at items rightIdx smallest then rightIdx else smallest in
  smallest.

Fixpoint _heapifyDown_loop (fuel : nat) (item : T) (idx : nat)
  (items : list T) : list T :=
  match fuel with
  | O => items
  | S fuel' =>
      let smallest := smallest_of items idx in
      if (smallest =? idx)%nat then items
      else
        match items !! smallest with
        | None => items
        | Some s =>
            _heapifyDown_loop fuel' item smallest
              (<[smallest := item]> (<[idx := s]> items))
        end
  end.

Definition _heapifyDown (items : list T) : list T :=
  match items !! 0%nat with
  | None => items
  | Some item => _heapifyDown_loop (size items) item 0%nat items
  end.

Definition pop (items : list T) : option T * list T :=
  if (size items =? 0)%nat then (None, items)
  else
    match peek items, last items with
    | Some top, Some bottom =>
        let items := removelast items in
        if (0 <? size items)%nat
        then (Some top, _heapifyDown (<[0%nat := bottom]> items))
        else (Some top, items)
    | _, _ => (None, items)
    end.

End heap.
End JsHeap.

(** core/Environment.ts on these numbers: the queue items, the comparator,
    [schedule], [peek] and the first statements of [step]. *)
Module JsEnvironment.

Record QueueItem := mkItem {
  time : Js.number;
  priority : Z;
  eid : Z;
  event : EvId }.

Record Environment := mkEnv {
  _now : Js.number;
  _queue : list QueueItem;
  _eid : Z }.

(** The comparator given to [new Heap<QueueItem>(...)]. *)
Definition queue_compare (a b : QueueItem) : Js.number :=
  if Js.strict_ne (time a) (time b) then Js.sub (time a) (time b)
  else if negb (priority a =? priority b) then Js.Int (priority a - priority b)
  else Js.Int (eid a - eid b).

Definition new (initialTime : Js.number) : Environment :=
  mkEnv initialTime [] 0.

(** [schedule(event, priority, delay)], without the flag it sets on the
    event. *)
Definition schedule (event : EvId) (priority : Priority) (delay : Js.number)
  (E : Environment) : Environment :=
  let scheduledTime := Js.add (_now E) delay in
  mkEnv (_now E)
    (JsHeap.push queue_compare
       (mkItem scheduledTime (priority_class priority) (_eid E) event)
       (_queue E))
    (_eid E + 1).

(** [peek()] *)
Definition peek (E : Environment) : Js.number :=
  if (JsHeap.size (_queue E) =? 0)%nat then Js.Infinity
  else match JsHeap.peek (_queue E) with
       | Some item => time item
       | None => Js.Infinity
       end.


(** The test of [Timeout]'s constructor, [delay < 0], passes. *)
Definition Timeout_accepts (delay : Js.number) : bool := negb (Js.lt0 delay).

(** Popping until the heap is empty. *)
Fixpoint drain (n : nat) (q : list QueueItem) : list QueueItem :=
  match n with
  | O => []
  | S n' =>
      match JsHeap.pop queue_compare q with
      | (Some x, q') => x :: drain n' q'
      | (None, _) => []
      end
  end.

Definition pop_order (q : list QueueItem) : list QueueItem :=
  drain (length q) q.

End JsEnvironment.

(** An integer queue item and an integer environment as values of the
    model with NaN and infinities. *)
Definition to_js_item (x : QueueItem) : JsEnvironment.QueueItem :=
  JsEnvironment.mkItem (Js.Int (time x)) (priority x) (eid x) (event x).

Definition to_js (E : Environment) : JsEnvironment.Environment :=
  JsEnvironment.mkEnv (Js.Int (_now E)) (map to_js_item (_queue E)) (_eid E).






(** ** resources/Resource.ts on amounts that are not integers

    The constructors reject a capacity and an amount that are not
    positive, and take every other number.  Here capacities and amounts
    are rational numbers; [users] is the array of the Resource, and the
    result [true] of [_doGet] and [_doPut] also stands for the call
    [event.succeed()] they make before returning it. *)
Module Fractional.

Record Resource := mk {
  capacity : Q;
  users : list Z }.

(** [constructor(env, capacity = 1)]; [None] is the Error thrown when
    [capacity <= 0]. *)
Definition new (capacity : Q) : option Resource :=
  if Qle_bool capacity 0 then None else Some (mk capacity []).

(** The test [amount <= 0] of [PutResource] and [GetResource] passes. *)
Definition accepts (amount : Q) : bool := negb (Qle_bool amount 0).

(** The number of turns of [for (let i = 0; i < amount; i++)]: one for
    each natural number below [amount]. *)
Definition turns (amount : Q) : nat := Z.to_nat (Qceiling amount).

(** [_doGet(event)], where [amount] is [event.amount] *)
Definition _doGet (amount : Q) (R : Resource) : bool * Resource :=
  let available := (capacity R - inject_Z (Z.of_nat (length (users R))))%Q in
  if Qle_bool amount available
  then (true, mk (capacity R)
                (Nat.iter (turns amount) (fun u => u ++ [1]) (users R)))
  else (false, R).

(** [_doPut(event)] *)
Definition _doPut (amount : Q) (R : Resource) : bool * Resource :=
  if Qle_bool amount (inject_Z (Z.of_nat (length (users R))))
  then (true, mk (capacity R)
                (Nat.iter (turns amount) (@removelast Z) (users R)))
  else (false, R).

End Fractional.

(** [new Resource(env, 2)], then a request of 1 and a release of 0.5. *)
Definition half_released : bool * Fractional.Resource :=
  Fractional._doPut (1 # 2)
    (snd (Fractional._doGet 1 (Fractional.mk 2 []))).

(** [new Resource(env, 1.5)], then requests of 1 and of 0.5. *)
Definition overfilled : bool * Fractional.Resource :=
  Fractional._doGet (1 # 2)
    (snd (Fractional._doGet 1 (Fractional.mk (3 # 2) []))).

(** ** monitoring/Logger.ts: entry objects held by reference

    [log] writes [timestamp] into the object it is given and pushes that
    object, so [logEntries] holds references: an object that is logged
    twice is stored twice and shows the timestamp of the later call in both
    places.  [Logger.log] is what this does when every call brings an
    object of its own.  Here the entry objects of a program live in a store,
    [objects], and an entry is named by its position there. *)

Module LoggerRefs.

Abbreviation EntryRef := nat.
Abbreviation BaseLogEntry := Logger.BaseLogEntry.
Abbreviation LogLevel := Logger.LogLevel.
Abbreviation Hook := Logger.Hook.

Record Logger := mk {
  objects : list BaseLogEntry;
  logLevel : LogLevel;
  maxLogEntries : Z;
  logEntries : list EntryRef;
  hooks : list Hook;
  calls : list (Hook * EntryRef) }.

(** [constructor(config)], in a program whose entry objects are
    [objects]. *)
Definition new (logLevel : LogLevel) (maxLogEntries : Z)
  (objects : list BaseLogEntry) : Logger :=
  mk objects logLevel maxLogEntries [] [] [].

(** [shouldLog(level)] *)
Definition shouldLog (L : Logger) (level : LogLevel) : bool :=
  Logger.LOG_LEVELS level >=? Logger.LOG_LEVELS (logLevel L).

(** [log(entry)], where [Date_now] is the value of [Date.now()]; a
    reference to no object is not a call of the program. *)
Definition log (entry : EntryRef) (Date_now : Z) (L : Logger) : Logger :=
  match objects L !! entry with
  | None => L
  | Some o =>
      if negb (shouldLog L (Logger.level o)) then L
      else
        let objects := <[entry := Logger.set_timestamp Date_now o]> (objects L) in
        let entries := logEntries L ++ [entry] in
        let entries :=
          if Z.of_nat (length entries) >? maxLogEntries L
          then drop 1 entries else entries in
        mk objects (logLevel L) (maxLogEntries L) entries (hooks L)
           (calls L ++ map (fun hook => (hook, entry)) (hooks L))
  end.

(** [getLogEntries()]: the stored references, each read in the store. *)
Definition getLogEntries (L : Logger) : list (option BaseLogEntry) :=
  map (fun entry => objects L !! entry) (logEntries L).

(** A run of [log] calls, each with its reading of the clock. *)
Definition log_all (cs : list (EntryRef * Z)) (L : Logger) : Logger :=
  fold_left (fun L c => log (fst c) (snd c) L) cs L.

(** The calls of [cs] whose object passes the level. *)
Definition accepted (logLevel : LogLevel)
  (objects : list BaseLogEntry) (cs : list (EntryRef * Z))
  : list (EntryRef * Z) :=
  List.filter
    (fun c => match objects !! fst c with
              | Some o => Logger.LOG_LEVELS (Logger.level o)
                          >=? Logger.LOG_LEVELS logLevel
              | None => false
              end) cs.

(** The reading of the clock at the last call of [cs] on the object
    [entry]. *)
Definition last_stamp (entry : EntryRef) (cs : list (EntryRef * Z))
  : option Z :=
  option_map snd (last (List.filter (fun c => (fst c =? entry)%nat) cs)).

Definition stamped (o : BaseLogEntry) (t : option Z) : BaseLogEntry :=
  match t with Some t => Logger.set_timestamp t o | None => o end.

End LoggerRefs.

(* ===================================================================== *)
(** * Part II: properties *)
(* ===================================================================== *)

(** ** The binary heap *)

Section heap_facts.
Context {T : Type}.
Variable compare : T -> T -> Z.

Local Abbreviation cle := (Heap.cle compare).
Local Abbreviation heap_ok := (Heap.heap_ok compare).
Local Abbreviation parent := Heap.parent.
Local Abbreviation up_inv := (Heap.up_inv compare).
Local Abbreviation down_inv := (Heap.down_inv compare).

Hypothesis cle_refl : forall a, cle a a.
Hypothesis cle_asym : forall a b, compare a b < 0 -> cle a b.
Hypothesis cle_trans : forall a b c, cle a b -> cle b c -> cle a c.

Lemma parent_lt i : (0 < i)%nat -> (parent i < i)%nat.
Proof.
  intros Hi. unfold Heap.parent.
  assert ((i - 1) / 2 <= i - 1)%nat by (apply Nat.Div0.div_le_upper_bound; lia).
  lia.
Qed.

Lemma parent_children i c :
  (0 < c)%nat -> parent c = i <-> (c = 2 * i + 1 \/ c = 2 * i + 2)%nat.
Proof.
  intros Hc. unfold Heap.parent.
  pose proof (Nat.div_mod_eq (c - 1) 2) as E.
  pose proof (Nat.mod_upper_bound (c - 1) 2 ltac:(lia)) as B.
  split; intros H.
  - lia.
  - destruct H as [-> | ->].
    + replace (2 * i + 1 - 1)%nat with (i * 2)%nat by lia.
      apply Nat.div_mul; lia.
    + replace (2 * i + 2 - 1)%nat with (1 + i * 2)%nat by lia.
      rewrite Nat.div_add by lia. reflexivity.
Qed.

Lemma heap_ok_nil : heap_ok [].
Proof. intros i c p _ H. destruct i; discriminate. Qed.

(** In a heap the root precedes every element. *)
Lemma root_minimal (items : list T) r :
  heap_ok items -> items !! 0%nat = Some r ->
  forall i x, items !! i = Some x -> cle r x.
Proof.
  intros Hh Hr i. induction i as [i IH] using lt_wf_ind. intros x Hx.
  destruct (decide (i = 0%nat)) as [-> | Hne].
  - rewrite Hr in Hx. inversion Hx; subst. apply cle_refl.
  - assert (Hlt : (parent i < i)%nat) by (apply parent_lt; lia).
    assert (Hp : is_Some (items !! parent i)).
    { apply lookup_lt_is_Some. apply lookup_lt_Some in Hx. lia. }
    destruct Hp as [p Hp].
    eapply cle_trans; [ apply (IH _ Hlt _ Hp) | ].
    apply (Hh i); auto; lia.
Qed.

(** Exchanging two cells permutes the array. *)
Lemma insert_cons_perm (l : list T) j a b :
  l !! j = Some b -> b :: <[j := a]> l ≡ₚ a :: l.
Proof.
  revert j. induction l as [|x l IH]; intros [|j] H; simplify_eq/=.
  - apply Permutation_swap.
  - rewrite (Permutation_swap x b), (IH _ H). apply Permutation_swap.
Qed.

Lemma exchange_perm (l : list T) i j a b :
  l !! i = Some a -> l !! j = Some b ->
  <[j := a]> (<[i := b]> l) ≡ₚ l.
Proof.
  revert i j. induction l as [|x l IH]; intros [|i] [|j] Hi Hj; simplify_eq/=.
  - reflexivity.
  - apply insert_cons_perm; assumption.
  - symmetry. rewrite <- (insert_cons_perm l i b a Hi). reflexivity.
  - f_equiv. apply IH; assumption.
Qed.

(** Reading the array after the exchange done by one loop iteration. *)
Lemma lookup_exchange (l : list T) i j a b k :
  (i < length l)%nat -> (j < length l)%nat -> i <> j ->
  <[j := a]> (<[i := b]> l) !! k =
    if decide (k = j) then Some a
    else if decide (k = i) then Some b else l !! k.
Proof.
  intros Hi Hj Hne.
  destruct (decide (k = j)) as [-> | Hkj].
  - apply list_lookup_insert_eq. rewrite length_insert. assumption.
  - rewrite list_lookup_insert_ne by congruence.
    destruct (decide (k = i)) as [-> | Hki].
    + apply list_lookup_insert_eq. assumption.
    + apply list_lookup_insert_ne. congruence.
Qed.

(** *** [_heapifyUp] *)

Lemma _heapifyUp_loop_S fuel item idx (items : list T) :
  Heap._heapifyUp_loop compare (S fuel) item idx items =
  if (0 <? idx)%nat then
    match items !! parent idx with
    | None => items
    | Some par =>
        if compare item par >=? 0 then items
        else Heap._heapifyUp_loop compare fuel item (parent idx)
               (<[idx := par]> (<[parent idx := item]> items))
    end
  else items.
Proof. reflexivity. Qed.

Lemma _heapifyUp_loop_ok fuel : forall item idx items,
  (idx <= fuel)%nat -> up_inv items item idx ->
  heap_ok (Heap._heapifyUp_loop compare fuel item idx items).
Proof.
  induction fuel as [|fuel IH]; intros item idx items Hfuel (Hitem & Hrest & Hgrand).
  - assert (idx = 0%nat) by lia; subst. simpl.
    intros i c p Hi Hc Hp. eapply Hrest; eauto; lia.
  - rewrite _heapifyUp_loop_S. destruct (0 <? idx)%nat eqn:Hpos.
    2:{ apply Nat.ltb_ge in Hpos. assert (idx = 0%nat) by lia; subst.
        intros i c p Hi Hc Hp. eapply Hrest; eauto; lia. }
    apply Nat.ltb_lt in Hpos.
    pose proof (parent_lt idx Hpos) as Hplt.
    pose proof (lookup_lt_Some _ _ _ Hitem) as Hlen.
    destruct (items !! parent idx) as [par|] eqn:Hpar.
    2:{ apply lookup_ge_None in Hpar. lia. }
    destruct (compare item par >=? 0) eqn:Hcmp.
    + apply Z.geb_le in Hcmp.
      intros i c p Hi Hc Hp.
      destruct (decide (i = idx)) as [Heq | Hne]; [ subst i | eapply Hrest; eauto ].
      rewrite Hitem in Hc. rewrite Hpar in Hp. simplify_eq. exact Hcmp.
    + assert (Hlt : compare item par < 0).
      { destruct (Z.geb_spec (compare item par) 0); [discriminate | lia]. }
      apply IH; [lia | ].
      assert (Hlk : forall k,
        <[idx := par]> (<[parent idx := item]> items) !! k =
        if decide (k = idx) then Some par
        else if decide (k = parent idx) then Some item else items !! k).
      { intros k. apply lookup_exchange; lia. }
      split; [ | split ].
      * rewrite Hlk. repeat case_decide; try lia; reflexivity.
      * intros i c p Hi Hne. rewrite !Hlk.
        pose proof (parent_lt i Hi) as Hpi.
        repeat case_decide; intros Hc Hp; simplify_eq; try lia.
        all: try (apply cle_asym; eassumption).
        all: try (eapply Hgrand; solve [eauto]).
        all: try (eapply Hrest; solve [eauto | congruence]).
        eapply cle_trans; [apply cle_asym; eassumption | ].
        eapply Hrest; [ | | eassumption | ]; [lia | congruence | congruence].
      * intros c x g Hp0 Hc Hpc. rewrite !Hlk.
        pose proof (parent_lt _ Hp0) as Hpp.
        pose proof (parent_lt _ Hc) as Hcc.
        repeat case_decide; intros Hx Hg; simplify_eq; try lia;
          match goal with
          | Hm : _ !! parent ?j = Some ?m |- cle ?g ?x =>
              assert (cle g m) by (apply (Hrest (parent j) m g); auto; lia)
          end;
          first [ assumption
                | eapply cle_trans; [eassumption | ];
                  eapply Hrest; [ | | eassumption | ];
                  [lia | congruence | congruence] ].
Qed.

Lemma _heapifyUp_loop_perm fuel : forall item idx items,
  items !! idx = Some item ->
  Heap._heapifyUp_loop compare fuel item idx items ≡ₚ items.
Proof.
  induction fuel as [|fuel IH]; intros item idx items Hitem; [reflexivity | ].
  rewrite _heapifyUp_loop_S.
  destruct (0 <? idx)%nat eqn:Hpos; [ | reflexivity ].
  apply Nat.ltb_lt in Hpos. pose proof (parent_lt idx Hpos) as Hplt.
  destruct (items !! parent idx) as [par|] eqn:Hpar; [ | reflexivity ].
  destruct (compare item par >=? 0); [reflexivity | ].
  pose proof (lookup_lt_Some _ _ _ Hitem) as Hlen.
  rewrite IH.
  - apply exchange_perm; assumption.
  - rewrite (lookup_exchange items (parent idx) idx par item) by lia.
    repeat case_decide; try lia; reflexivity.
Qed.

Lemma push_heap_ok item (items : list T) :
  heap_ok items -> heap_ok (Heap.push compare item items).
Proof.
  intros Hh. unfold Heap.push, Heap._heapifyUp, Heap.size.
  rewrite length_app. simpl.
  replace (length items + 1 - 1)%nat with (length items) by lia.
  rewrite list_lookup_middle by reflexivity.
  apply _heapifyUp_loop_ok; [lia | ].
  split; [ | split ].
  - apply list_lookup_middle. reflexivity.
  - intros i c p Hi Hne Hc Hp.
    assert (i < length items)%nat.
    { apply lookup_lt_Some in Hc. rewrite length_app in Hc. simpl in Hc. lia. }
    pose proof (parent_lt i Hi).
    rewrite lookup_app_l in Hc by lia. rewrite lookup_app_l in Hp by lia.
    eapply Hh; eauto.
  - intros c x g _ Hc Hpc Hx.
    apply lookup_lt_Some in Hx. rewrite length_app in Hx. simpl in Hx.
    pose proof (parent_lt c Hc). lia.
Qed.

Lemma push_perm item (items : list T) :
  Heap.push compare item items ≡ₚ item :: items.
Proof.
  unfold Heap.push, Heap._heapifyUp, Heap.size.
  rewrite length_app. simpl.
  replace (length items + 1 - 1)%nat with (length items) by lia.
  rewrite list_lookup_middle by reflexivity.
  rewrite _heapifyUp_loop_perm by (apply list_lookup_middle; reflexivity).
  symmetry. apply Permutation_cons_append.
Qed.

(** *** [_heapifyDown] *)

Lemma _heapifyDown_loop_S fuel item idx (items : list T) :
  Heap._heapifyDown_loop compare (S fuel) item idx items =
  if (Heap.smallest_of compare items idx =? idx)%nat then items
  else
    match items !! Heap.smallest_of compare items idx with
    | None => items
    | Some s =>
        Heap._heapifyDown_loop compare fuel item
          (Heap.smallest_of compare items idx)
          (<[Heap.smallest_of compare items idx := item]> (<[idx := s]> items))
    end.
Proof. reflexivity. Qed.

Lemma lt_at_true (items : list T) i j :
  Heap.lt_at compare items i j = true ->
  exists a b, items !! i = Some a /\ items !! j = Some b /\ compare a b < 0.
Proof.
  unfold Heap.lt_at. intros H.
  destruct (items !! i) as [a|]; [ | discriminate ].
  destruct (items !! j) as [b|]; [ | discriminate ].
  exists a, b. repeat split. apply Z.ltb_lt. exact H.
Qed.

Lemma lt_at_false (items : list T) i j a b :
  Heap.lt_at compare items i j = false ->
  items !! i = Some a -> items !! j = Some b -> cle b a.
Proof.
  unfold Heap.lt_at, Heap.cle. intros H Ha Hb. rewrite Ha, Hb in H.
  apply Z.ltb_ge in H. exact H.
Qed.

(** What [smallest] is after the two tests of one loop iteration. *)
Lemma smallest_of_spec (items : list T) idx item :
  items !! idx = Some item ->
  exists m, items !! Heap.smallest_of compare items idx = Some m /\
    (Heap.smallest_of compare items idx = idx \/
     (0 < Heap.smallest_of compare items idx)%nat /\
     parent (Heap.smallest_of compare items idx) = idx) /\
    cle m item /\
    (forall c x, (0 < c)%nat -> parent c = idx -> items !! c = Some x ->
                 cle m x).
Proof.
  intros Hitem. unfold Heap.smallest_of.
  assert (Hl : parent (2 * idx + 1) = idx) by (apply parent_children; lia).
  assert (Hr : parent (2 * idx + 2) = idx) by (apply parent_children; lia).
  destruct (Heap.lt_at compare items (2 * idx + 1) idx) eqn:E1.
  - destruct (lt_at_true _ _ _ E1) as (a & b & Ha & Hb & Hab).
    assert (b = item) by congruence; subst b.
    destruct (Heap.lt_at compare items (2 * idx + 2) (2 * idx + 1)) eqn:E2.
    + destruct (lt_at_true _ _ _ E2) as (a' & b' & Ha' & Hb' & Hab').
      assert (b' = a) by congruence; subst b'.
      exists a'. split; [assumption | ]. split; [right; split; [lia | assumption] | ].
      split; [eapply cle_trans; apply cle_asym; eassumption | ].
      intros c x Hc Hpc Hx. apply parent_children in Hpc; [ | assumption ].
      destruct Hpc; subst c.
      * assert (x = a) by congruence; subst x. apply cle_asym; assumption.
      * assert (x = a') by congruence; subst x. apply cle_refl.
    + exists a. split; [assumption | ]. split; [right; split; [lia | assumption] | ].
      split; [apply cle_asym; assumption | ].
      intros c x Hc Hpc Hx. apply parent_children in Hpc; [ | assumption ].
      destruct Hpc; subst c.
      * assert (x = a) by congruence; subst x. apply cle_refl.
      * eapply lt_at_false; eassumption.
  - destruct (Heap.lt_at compare items (2 * idx + 2) idx) eqn:E2.
    + destruct (lt_at_true _ _ _ E2) as (a' & b' & Ha' & Hb' & Hab').
      assert (b' = item) by congruence; subst b'.
      exists a'. split; [assumption | ]. split; [right; split; [lia | assumption] | ].
      split; [apply cle_asym; assumption | ].
      intros c x Hc Hpc Hx. apply parent_children in Hpc; [ | assumption ].
      destruct Hpc; subst c.
      * eapply cle_trans; [apply cle_asym; eassumption | ].
        eapply lt_at_false; eassumption.
      * assert (x = a') by congruence; subst x. apply cle_refl.
    + exists item. split; [assumption | ]. split; [left; reflexivity | ].
      split; [apply cle_refl | ].
      intros c x Hc Hpc Hx. apply parent_children in Hpc; [ | assumption ].
      destruct Hpc; subst c.
      * apply (lt_at_false items _ idx x item E1); assumption.
      * apply (lt_at_false items _ idx x item E2); assumption.
Qed.

Lemma _heapifyDown_loop_ok fuel : forall item idx items,
  (length items <= fuel + idx)%nat -> down_inv items item idx ->
  heap_ok (Heap._heapifyDown_loop compare fuel item idx items).
Proof.
  induction fuel as [|fuel IH]; intros item idx items Hfuel (Hitem & Hrest & Hgrand).
  - apply lookup_lt_Some in Hitem. lia.
  - rewrite _heapifyDown_loop_S.
    destruct (smallest_of_spec items idx item Hitem)
      as (m & Hm & Hwhere & Hmi & Hmc).
    set (s := Heap.smallest_of compare items idx) in *.
    destruct (s =? idx)%nat eqn:Hs.
    + apply Nat.eqb_eq in Hs. rewrite Hs, Hitem in Hm.
      assert (m = item) by congruence; subst m.
      intros i c p Hi Hc Hp.
      destruct (decide (parent i = idx)) as [Hpi | Hpi].
      * rewrite Hpi, Hitem in Hp. assert (p = item) by congruence; subst p.
        eapply Hmc; eauto.
      * eapply Hrest; eauto.
    + apply Nat.eqb_neq in Hs.
      destruct Hwhere as [Hw | [Hs0 Hps]]; [congruence | ].
      rewrite Hm.
      pose proof (parent_lt s Hs0) as Hslt.
      pose proof (lookup_lt_Some _ _ _ Hm) as Hslen.
      pose proof (lookup_lt_Some _ _ _ Hitem) as Hilen.
      assert (Hlk : forall k,
        <[s := item]> (<[idx := m]> items) !! k =
        if decide (k = s) then Some item
        else if decide (k = idx) then Some m else items !! k).
      { intros k. apply lookup_exchange; lia. }
      apply IH; [rewrite !length_insert; lia | ].
      split; [ | split ].
      * rewrite Hlk. rewrite decide_True by reflexivity. reflexivity.
      * intros i c p Hi Hpi. rewrite !Hlk.
        pose proof (parent_lt i Hi) as Hilt.
        destruct (decide (i = s)) as [His | His].
        { subst i. rewrite Hps. rewrite decide_False by lia.
          rewrite decide_True by reflexivity. intros Hc Hp.
          assert (c = item) by congruence. assert (p = m) by congruence.
          subst c p. exact Hmi. }
        rewrite (decide_False (P := parent i = s)) by assumption.
        destruct (decide (i = idx)) as [Hii | Hii].
        { subst i. rewrite decide_False by lia. intros Hc Hp.
          assert (c = m) by congruence; subst c.
          eapply (Hgrand s); eauto. }
        destruct (decide (parent i = idx)) as [Hpx | Hpx].
        { intros Hc Hp. assert (p = m) by congruence; subst p.
          eapply Hmc; eauto. }
        intros Hc Hp. eapply Hrest; eauto.
      * intros c x g _ Hc Hpc. rewrite !Hlk.
        pose proof (parent_lt c Hc) as Hclt.
        rewrite Hps.
        rewrite (decide_False (P := c = s)) by lia.
        rewrite (decide_False (P := c = idx)) by lia.
        rewrite (decide_False (P := idx = s)) by lia.
        rewrite (decide_True (P := idx = idx)) by reflexivity.
        intros Hx Hg. assert (g = m) by congruence; subst g.
        apply (Hrest c x m); auto; [lia | ]. rewrite Hpc. exact Hm.
Qed.

Lemma _heapifyDown_loop_perm fuel : forall item idx items,
  items !! idx = Some item ->
  Heap._heapifyDown_loop compare fuel item idx items ≡ₚ items.
Proof.
  induction fuel as [|fuel IH]; intros item idx items Hitem; [reflexivity | ].
  rewrite _heapifyDown_loop_S.
  destruct (Heap.smallest_of compare items idx =? idx)%nat eqn:Hs; [reflexivity | ].
  apply Nat.eqb_neq in Hs.
  destruct (items !! Heap.smallest_of compare items idx) as [m|] eqn:Hm;
    [ | reflexivity ].
  pose proof (lookup_lt_Some _ _ _ Hm) as Hslen.
  pose proof (lookup_lt_Some _ _ _ Hitem) as Hilen.
  rewrite IH.
  - apply exchange_perm; assumption.
  - rewrite (lookup_exchange items idx _ item m) by (assumption || congruence).
    rewrite decide_True by reflexivity. reflexivity.
Qed.

(** *** [pop] *)

Lemma pop_nil : Heap.pop compare (@nil T) = (None, []).
Proof. reflexivity. Qed.

Lemma pop_cons_inv (items : list T) :
  items <> [] ->
  exists top rest, items !! 0%nat = Some top /\
                   Heap.pop compare items = (Some top, rest).
Proof.
  intros Hne. destruct items as [|top l]; [congruence | ].
  unfold Heap.pop, Heap.size, Heap.peek. simpl length. simpl Nat.eqb.
  cbn [lookup list_lookup].
  destruct (last (top :: l)) as [bottom|] eqn:Hlast.
  - match goal with |- context [if ?b then _ else _] => destruct b end;
      do 2 eexists; split; reflexivity.
  - apply last_None in Hlast. discriminate.
Qed.

Lemma pop_spec (items : list T) top rest :
  heap_ok items -> Heap.pop compare items = (Some top, rest) ->
  items !! 0%nat = Some top /\ heap_ok rest /\ items ≡ₚ top :: rest.
Proof.
  intros Hh. destruct items as [|x l] using rev_ind; [discriminate | ].
  unfold Heap.pop, Heap.size, Heap.peek.
  rewrite length_app. simpl length.
  replace (length l + 1 =? 0)%nat with false by (symmetry; apply Nat.eqb_neq; lia).
  rewrite last_snoc, removelast_last.
  destruct l as [|t l'].
  - simpl. intros H. inversion H; subst. repeat split; auto using heap_ok_nil.
  - cbn [lookup list_lookup app]. simpl length. simpl Nat.ltb.
    cbn [insert list_insert].
    intros H. inversion H; subst top rest. clear H.
    split; [reflexivity | ].
    unfold Heap._heapifyDown, Heap.size. cbn [lookup list_lookup].
    split.
    + apply _heapifyDown_loop_ok; [simpl; lia | ].
      split; [reflexivity | split ].
      * intros i c p Hi Hpi Hc Hp.
        destruct i as [|i]; [lia | ].
        destruct (parent (S i)) as [|pi] eqn:Epi; [congruence | ].
        apply (Hh (S i) c p); [lia | | ].
        { cbn [lookup list_lookup app] in *.
          apply lookup_app_l_Some. exact Hc. }
        { rewrite Epi. cbn [lookup list_lookup app] in *.
          apply lookup_app_l_Some. exact Hp. }
      * intros c y g H0. lia.
    + rewrite _heapifyDown_loop_perm by reflexivity.
      simpl. f_equiv. symmetry. apply Permutation_cons_append.
Qed.

(** [pop] returns an element that precedes every element of the heap. *)
Lemma pop_minimal (items : list T) top rest :
  heap_ok items -> Heap.pop compare items = (Some top, rest) ->
  forall x, x ∈ items -> cle top x.
Proof.
  intros Hh Hpop x Hx.
  destruct (pop_spec items top rest Hh Hpop) as (Htop & _ & _).
  apply list_elem_of_lookup in Hx. destruct Hx as [i Hi].
  eapply root_minimal; eauto.
Qed.

(** *** The loops never run out of fuel *)

(** More fuel than [idx] does not change the result of the loop of
    [_heapifyUp]: the fuel given by [_heapifyUp] is never used up. *)
Lemma _heapifyUp_loop_fuel fuel : forall k item idx (items : list T),
  (idx <= fuel)%nat ->
  Heap._heapifyUp_loop compare (fuel + k) item idx items =
  Heap._heapifyUp_loop compare fuel item idx items.
Proof.
  induction fuel as [|fuel IH]; intros k item idx items Hidx.
  - assert (idx = 0%nat) by lia; subst idx. destruct k; reflexivity.
  - change (S fuel + k)%nat with (S (fuel + k)).
    rewrite !_heapifyUp_loop_S.
    destruct (0 <? idx)%nat eqn:Hpos; [ | reflexivity ].
    apply Nat.ltb_lt in Hpos. pose proof (parent_lt idx Hpos).
    destruct (items !! parent idx); [ | reflexivity ].
    destruct (compare item t >=? 0); [reflexivity | ].
    apply IH. lia.
Qed.

Lemma smallest_of_range (items : list T) idx :
  Heap.smallest_of compare items idx = idx \/
  (idx < Heap.smallest_of compare items idx)%nat.
Proof.
  unfold Heap.smallest_of.
  destruct (Heap.lt_at compare items (2 * idx + 1) idx);
    match goal with |- context [if ?b then _ else _] => destruct b end; lia.
Qed.

Lemma smallest_of_end (items : list T) idx :
  (length items <= idx)%nat -> Heap.smallest_of compare items idx = idx.
Proof.
  intros H. unfold Heap.smallest_of, Heap.lt_at.
  rewrite (lookup_ge_None_2 items (2 * idx + 1)) by lia.
  rewrite (lookup_ge_None_2 items (2 * idx + 2)) by lia.
  reflexivity.
Qed.

(** Likewise for the loop of [_heapifyDown], whose index grows towards
    the size of the array. *)
Lemma _heapifyDown_loop_fuel fuel : forall k item idx (items : list T),
  (length items <= fuel + idx)%nat ->
  Heap._heapifyDown_loop compare (fuel + k) item idx items =
  Heap._heapifyDown_loop compare fuel item idx items.
Proof.
  induction fuel as [|fuel IH]; intros k item idx items Hlen.
  - destruct k; [reflexivity | ].
    simpl Nat.add. rewrite _heapifyDown_loop_S.
    rewrite smallest_of_end by lia. rewrite Nat.eqb_refl. reflexivity.
  - change (S fuel + k)%nat with (S (fuel + k)).
    rewrite !_heapifyDown_loop_S.
    destruct (smallest_of_range items idx) as [Hs | Hs].
    + rewrite Hs, Nat.eqb_refl. reflexivity.
    + destruct (Heap.smallest_of compare items idx =? idx)%nat; [reflexivity | ].
      destruct (items !! Heap.smallest_of compare items idx); [ | reflexivity ].
      apply IH. rewrite !length_insert. lia.
Qed.

End heap_facts.

(** ** The queue order *)

Ltac cmp_cases :=
  unfold Heap.cle, queue_compare, lex_le, lex_lt, same_key in *;
  repeat match goal with
         | |- context [Z.eqb ?x ?y] => destruct (Z.eqb_spec x y); simpl
         | H : context [Z.eqb ?x ?y] |- _ =>
             destruct (Z.eqb_spec x y); simpl in H
         end.

Lemma queue_compare_refl a : Heap.cle queue_compare a a.
Proof. cmp_cases; lia. Qed.

Lemma queue_compare_asym a b :
  queue_compare a b < 0 -> Heap.cle queue_compare a b.
Proof. cmp_cases; lia. Qed.

Lemma queue_compare_trans a b c :
  Heap.cle queue_compare a b -> Heap.cle queue_compare b c ->
  Heap.cle queue_compare a c.
Proof. cmp_cases; lia. Qed.




Lemma cle_lex a b : Heap.cle queue_compare a b <-> lex_le a b.
Proof. cmp_cases; lia. Qed.



(** The heap lemmas at the queue comparator. *)
Lemma queue_push_heap_ok x q :
  Heap.heap_ok queue_compare q ->
  Heap.heap_ok queue_compare (Heap.push queue_compare x q).
Proof.
  apply (push_heap_ok queue_compare queue_compare_asym queue_compare_trans).
Qed.

Lemma queue_pop_spec q top rest :
  Heap.heap_ok queue_compare q ->
  Heap.pop queue_compare q = (Some top, rest) ->
  q !! 0%nat = Some top /\ Heap.heap_ok queue_compare rest /\ q ≡ₚ top :: rest.
Proof.
  apply (pop_spec queue_compare queue_compare_refl queue_compare_asym
           queue_compare_trans).
Qed.

Lemma queue_pop_minimal q top rest :
  Heap.heap_ok queue_compare q ->
  Heap.pop queue_compare q = (Some top, rest) ->
  forall x, x ∈ q -> lex_le top x.
Proof.
  intros Hh Hp x Hx. apply cle_lex.
  exact (pop_minimal queue_compare queue_compare_refl queue_compare_asym
           queue_compare_trans q top rest Hh Hp x Hx).
Qed.

(** ** Predicates on the environment that the kernel keeps *)

Lemma queue_wf_new t : queue_wf (Environment_new t).
Proof.
  repeat split; simpl.
  - apply heap_ok_nil.
  - intros x Hx. inversion Hx.
  - constructor.
Qed.

Lemma queue_wf_enqueue E e p d : queue_wf E -> queue_wf (enqueue e p d E).
Proof.
  intros (Hh & Hlt & Hnd). unfold enqueue, queue_wf. simpl.
  pose proof (push_perm queue_compare
                (mkItem (_now E + d) (priority_class p) (_eid E) e) (_queue E))
    as Hperm.
  split; [ | split ].
  - apply queue_push_heap_ok. exact Hh.
  - intros x Hx. rewrite Hperm in Hx. apply elem_of_cons in Hx.
    destruct Hx as [-> | Hx]; simpl; [lia | ].
    specialize (Hlt x Hx). lia.
  - rewrite Hperm. simpl. constructor; [ | exact Hnd ].
    intros Hin. apply list_elem_of_fmap in Hin.
    destruct Hin as (y & Hy & Hyq). specialize (Hlt y Hyq). lia.
Qed.

Lemma queue_wf_pop E x q :
  queue_wf E -> Heap.pop queue_compare (_queue E) = (Some x, q) ->
  queue_wf (mkEnv (time x) q (_eid E) (activeProcess E)).
Proof.
  intros (Hh & Hlt & Hnd) Hpop.
  destruct (queue_pop_spec _ _ _ Hh Hpop) as (_ & Hh' & Hperm).
  unfold queue_wf. simpl. split; [exact Hh' | split ].
  - intros y Hy. apply Hlt. rewrite Hperm. apply elem_of_cons. auto.
  - rewrite Hperm in Hnd. simpl in Hnd. apply NoDup_cons in Hnd. tauto.
Qed.

Lemma queue_wf_stable : stable queue_wf.
Proof.
  split.
  - intros E e p d _. apply queue_wf_enqueue.
  - intros E a H. exact H.
Qed.

Lemma queue_wf_stable_any : stable_any queue_wf.
Proof. intros E e p d. apply queue_wf_enqueue. Qed.

Lemma queue_wf_pop_stable : pop_stable queue_wf.
Proof. intros E x q. apply queue_wf_pop. Qed.



(** ** Every kernel function keeps the stable predicates *)

Lemma preserves_ret {A} (a : A) : preserves (ret a).
Proof. intros I HI w Hw. exact Hw. Qed.

Lemma preserves_throw {A} e : preserves (@throw A e).
Proof. intros I HI w Hw. exact Hw. Qed.

Lemma preserves_gets {A} (f : World -> A) : preserves (gets f).
Proof. intros I HI w Hw. exact Hw. Qed.

Lemma preserves_bind {A B} (m : M A) (k : A -> M B) :
  preserves m -> (forall a, preserves (k a)) -> preserves (bind m k).
Proof.
  intros Hm Hk I HI w Hw. unfold bind.
  specialize (Hm I HI w Hw). destruct (m w) as [a w' | e w']; simpl in *.
  - apply Hk; assumption.
  - exact Hm.
Qed.

Lemma preserves_when b m : preserves m -> preserves (when b m).
Proof. intros H. destruct b; simpl; [exact H | apply preserves_ret]. Qed.

Lemma preserves_try_catch {A} (m : M A) h :
  preserves m -> (forall e, preserves (h e)) -> preserves (try_catch m h).
Proof.
  intros Hm Hh I HI w Hw. unfold try_catch.
  specialize (Hm I HI w Hw). destruct (m w) as [a w' | e w']; simpl in *.
  - exact Hm.
  - apply Hh; assumption.
Qed.

Lemma preserves_finally {A} (m : M A) f :
  preserves m -> preserves f -> preserves (finally m f).
Proof.
  intros Hm Hf I HI w Hw. unfold finally.
  specialize (Hm I HI w Hw).
  destruct (m w) as [a w' | e w']; simpl in *; apply Hf; assumption.
Qed.

Lemma preserves_modify f :
  (forall w, env (f w) = env w) -> preserves (modify f).
Proof. intros Hf I HI w Hw. simpl. rewrite Hf. exact Hw. Qed.

Lemma preserves_update_event e f : preserves (update_event e f).
Proof. apply preserves_modify. reflexivity. Qed.

Lemma preserves_update_resource r f : preserves (update_resource r f).
Proof. apply preserves_modify. reflexivity. Qed.

Lemma preserves_alloc_event x : preserves (alloc_event x).
Proof. intros I HI w Hw. exact Hw. Qed.

Lemma preserves_alloc_resource x : preserves (alloc_resource x).
Proof. intros I HI w Hw. exact Hw. Qed.

Lemma preserves_set_activeProcess p : preserves (set_activeProcess p).
Proof. intros I [_ HI] w Hw. simpl. apply HI. exact Hw. Qed.

Lemma preserves_log f : preserves (modify (with_results f)).
Proof. apply preserves_modify. reflexivity. Qed.

Lemma preserves_schedule e p d : 0 <= d -> preserves (schedule e p d).
Proof.
  intros Hd I HI w Hw. unfold schedule, bind, modify, update_event. simpl.
  destruct HI as [HI _]. apply HI; assumption.
Qed.

Create HintDb pres.

#[local] Hint Resolve preserves_update_event preserves_update_resource
  preserves_alloc_event preserves_alloc_resource preserves_set_activeProcess
  preserves_log : pres.

(** Decomposes a goal [preserves m] along the structure of [m]. *)
Ltac pres :=
  repeat first
    [ apply preserves_ret
    | apply preserves_throw
    | apply preserves_gets
    | apply preserves_bind; [ | intros ? ]
    | apply preserves_when
    | apply preserves_try_catch; [ | intros ? ]
    | apply preserves_finally
    | apply preserves_schedule;
      repeat match goal with
             | H : (_ <? _) = false |- _ => apply Z.ltb_ge in H
             end; lia
    | solve [eauto with pres]
    | progress cbv zeta
    | match goal with
      | |- preserves (if ?b then _ else _) => destruct b eqn:?
      | |- preserves (match ?x with _ => _ end) => destruct x eqn:?
      end ].

Lemma preserves_push_callback e cb : preserves (push_callback e cb).
Proof. unfold push_callback. pres. Qed.
#[local] Hint Resolve preserves_push_callback : pres.

Lemma preserves_schedule_once e : preserves (schedule_once e).
Proof. unfold schedule_once. pres. Qed.
#[local] Hint Resolve preserves_schedule_once : pres.

Lemma preserves_trigger e src : preserves (trigger e src).
Proof. unfold trigger. pres. Qed.

Lemma preserves_succeed e v : preserves (succeed e v).
Proof. unfold succeed. pres. Qed.

Lemma preserves_fail e v : preserves (fail e v).
Proof. unfold fail. pres. Qed.
#[local] Hint Resolve preserves_trigger preserves_succeed preserves_fail : pres.

Lemma preserves__check c e : preserves (_check c e).
Proof. unfold _check. pres. Qed.

Lemma preserves__buildValue c e : preserves (_buildValue c e).
Proof. unfold _buildValue, _removeCheckCallbacks. pres. Qed.
#[local] Hint Resolve preserves__check preserves__buildValue : pres.

Lemma preserves__initializeCondition_loop self children :
  preserves (_initializeCondition_loop self children).
Proof. induction children as [|c l IH]; simpl; pres. Qed.
#[local] Hint Resolve preserves__initializeCondition_loop : pres.

Lemma preserves__initializeCondition self : preserves (_initializeCondition self).
Proof. unfold _initializeCondition. pres. Qed.
#[local] Hint Resolve preserves__initializeCondition : pres.

Lemma preserves_Event_new cls f l : preserves (Event_new cls f l).
Proof. unfold Event_new. pres. Qed.
#[local] Hint Resolve preserves_Event_new : pres.

Lemma preserves_Timeout_new d v : preserves (Timeout_new d v).
Proof. unfold Timeout_new. pres. Qed.

Lemma preserves_Initialize_new p : preserves (Initialize_new p).
Proof. unfold Initialize_new. pres. Qed.

Lemma preserves_StopSimulation_callback e :
  preserves (StopSimulation_callback e).
Proof. unfold StopSimulation_callback, ok, value. pres. Qed.
#[local] Hint Resolve preserves_Timeout_new preserves_Initialize_new
  preserves_StopSimulation_callback : pres.

Lemma preserves__doGet r e : preserves (_doGet r e).
Proof. unfold _doGet. pres. Qed.

Lemma preserves__doPut r e : preserves (_doPut r e).
Proof. unfold _doPut. pres. Qed.
#[local] Hint Resolve preserves__doGet preserves__doPut : pres.

Lemma preserves__triggerPut_loop fuel : forall r idx,
  preserves (_triggerPut_loop fuel r idx).
Proof. induction fuel as [|fuel IH]; intros r idx; simpl; pres. Qed.

Lemma preserves__triggerGet_loop fuel : forall r idx,
  preserves (_triggerGet_loop fuel r idx).
Proof. induction fuel as [|fuel IH]; intros r idx; simpl; pres. Qed.
#[local] Hint Resolve preserves__triggerPut_loop preserves__triggerGet_loop
  : pres.

Lemma preserves__triggerPut r : preserves (_triggerPut r).
Proof. unfold _triggerPut. pres. Qed.

Lemma preserves__triggerGet r : preserves (_triggerGet r).
Proof. unfold _triggerGet. pres. Qed.
#[local] Hint Resolve preserves__triggerPut preserves__triggerGet : pres.

Lemma preserves_PutResource_new r a : preserves (PutResource_new r a).
Proof. unfold PutResource_new. pres. Qed.

Lemma preserves_GetResource_new r a : preserves (GetResource_new r a).
Proof. unfold GetResource_new. pres. Qed.

Lemma preserves_cancel e : preserves (cancel e).
Proof. unfold cancel. pres. Qed.
#[local] Hint Resolve preserves_PutResource_new preserves_GetResource_new
  preserves_cancel : pres.

Lemma preserves_exec_cmd c : preserves (exec_cmd c).
Proof. destruct c; unfold exec_cmd, request, release; pres. Qed.

Lemma preserves__resume_loop self c : preserves (_resume_loop self c).
Proof.
  induction c as [v | e | cmd k_ok IHok k_err IHerr | y next IHn thrown IHt];
    simpl.
  - unfold set_generator. pres.
  - unfold set_generator. pres.
  - intros I HI w Hw.
    pose proof (preserves_exec_cmd cmd I HI w Hw) as H.
    destruct (exec_cmd cmd w) as [r w' | e w']; simpl in H.
    + apply IHok; assumption.
    + apply IHerr; assumption.
  - unfold set_generator. apply preserves_bind; [pres | intros _ ].
    destruct y; pres.
    intros I HI w Hw.
    destruct (callbacks (ev w e)).
    + apply preserves_push_callback; assumption.
    + destruct (truthy (_ok (ev w e))); [apply IHn | apply IHt]; assumption.
Qed.
#[local] Hint Resolve preserves__resume_loop : pres.

Lemma preserves__resume_enter self e : preserves (_resume_enter self e).
Proof. unfold _resume_enter, set_generator. pres. Qed.
#[local] Hint Resolve preserves__resume_enter : pres.

Lemma preserves__resume self e : preserves (_resume self e).
Proof. unfold _resume. pres. Qed.

Lemma preserves_Process_new body : preserves (Process_new body).
Proof. unfold Process_new. pres. Qed.

Lemma preserves_interrupt p cause : preserves (interrupt p cause).
Proof. unfold interrupt. pres. Qed.
#[local] Hint Resolve preserves__resume preserves_Process_new
  preserves_interrupt : pres.

Lemma preserves_Resource_new c : preserves (Resource_new c).
Proof. unfold Resource_new. pres. Qed.

Lemma preserves_process body : preserves (process body).
Proof. unfold process. pres. Qed.

Lemma preserves_get r a : preserves (get r a).
Proof. unfold get. pres. Qed.

Lemma preserves_put r a : preserves (put r a).
Proof. unfold put. pres. Qed.
#[local] Hint Resolve preserves_Resource_new preserves_process preserves_get
  preserves_put : pres.

Lemma preserves_call_callback cb e : preserves (call_callback cb e).
Proof. destruct cb; simpl; pres. Qed.

(** ** [step], [run] and the programming interface keep them too *)

Lemma fan_keeps I : stable I -> forall fuel e i w r,
  I (env w) -> fan fuel e i w = Some r -> I (env (world_of r)).
Proof.
  intros HI fuel. induction fuel as [|fuel IH]; intros e i w r Hw Hfan;
    [discriminate | ].
  simpl in Hfan.
  destruct (callbacks (ev w e)) as [cbs|]; [ | inversion Hfan; exact Hw ].
  destruct (cbs !! i) as [cb|]; [ | inversion Hfan; exact Hw ].
  pose proof (preserves_call_callback cb e I HI w Hw) as Hcb.
  destruct (call_callback cb e w) as [u w' | x w']; simpl in Hcb.
  - eapply IH; eauto.
  - inversion Hfan. exact Hcb.
Qed.

Lemma step_keeps I : stable I -> pop_stable I -> forall fuel w r,
  I (env w) -> step fuel w = Some r -> I (env (world_of r)).
Proof.
  intros HI HP fuel w r Hw Hstep. unfold step in Hstep.
  destruct (Heap.size (_queue (env w)) =? 0)%nat;
    [inversion Hstep; exact Hw | ].
  destruct (Heap.pop queue_compare (_queue (env w))) as [[x|] q] eqn:Hpop;
    [ | inversion Hstep; exact Hw ].
  assert (Hw1 : I (env (advance x q w))) by (apply HP; assumption).
  destruct (callbacks (ev (advance x q w) (event x)));
    [ | inversion Hstep; exact Hw1 ].
  destruct (fan fuel (event x) 0 (advance x q w)) as [[u w2 | e w2]|] eqn:Hfan;
    [ | | discriminate ].
  - pose proof (fan_keeps I HI _ _ _ _ _ Hw1 Hfan) as Hw2. simpl in Hw2.
    destruct (negb (truthy (_ok (ev w2 (event x)))) &&
              negb (_defused (ev w2 (event x))));
      inversion Hstep; exact Hw2.
  - pose proof (fan_keeps I HI _ _ _ _ _ Hw1 Hfan) as Hw2.
    inversion Hstep. exact Hw2.
Qed.

Lemma run_loop_keeps I : stable I -> pop_stable I -> forall fuel n w r,
  I (env w) -> run_loop fuel n w = Some r -> I (env (world_of r)).
Proof.
  intros HI HP fuel n. induction n as [|n IH]; intros w r Hw Hrun;
    [discriminate | ].
  simpl in Hrun.
  destruct (0 <? Heap.size (_queue (env w)))%nat;
    [ | inversion Hrun; exact Hw ].
  destruct (step fuel w) as [[u w' | e w']|] eqn:Hstep; [ | | discriminate ].
  - eapply IH; [ | exact Hrun ].
    exact (step_keeps I HI HP _ _ _ Hw Hstep).
  - inversion Hrun. exact (step_keeps I HI HP _ _ _ Hw Hstep).
Qed.

Lemma run_keeps I : stable I -> pop_stable I -> forall fuel until w r,
  I (env w) -> run fuel until w = Some r -> I (env (world_of r)).
Proof.
  intros HI HP fuel until w r Hw Hrun. unfold run in Hrun.
  destruct until as [ | t | e | ].
  - eapply run_loop_keeps; eauto.
  - eapply run_loop_keeps; eauto.
  - pose proof (preserves_push_callback e CbStopSimulation I HI w Hw) as Hp.
    destruct (push_callback e CbStopSimulation w) as [u w' | x w'];
      simpl in Hp.
    + eapply run_loop_keeps; eauto.
    + inversion Hrun. exact Hp.
  - inversion Hrun. exact Hw.
Qed.

Lemma lift_keeps {A} (m : M A) I : preserves m -> stable I -> forall w r,
  I (env w) -> lift m w = Some r -> I (env (world_of r)).
Proof.
  intros Hm HI w r Hw Hl. unfold lift in Hl.
  specialize (Hm I HI w Hw).
  destruct (m w); inversion Hl; exact Hm.
Qed.

Lemma call_keeps I : stable I -> pop_stable I -> forall fuel a w r,
  nonneg_delay a \/ stable_any I ->
  I (env w) -> call fuel a w = Some r -> I (env (world_of r)).
Proof.
  intros HI HP fuel a w r Ha Hw Hcall.
  destruct a; simpl in Hcall;
    try (eapply lift_keeps; [ | exact HI | exact Hw | exact Hcall ];
         solve [pres]).
  - (* schedule *)
    destruct Ha as [Hd | Hany].
    + simpl in Hd.
      eapply lift_keeps; [ | exact HI | exact Hw | exact Hcall ].
      apply preserves_schedule. exact Hd.
    + unfold lift, schedule, bind, modify, update_event in Hcall.
      simpl in Hcall. inversion Hcall. simpl. apply Hany. exact Hw.
  - eapply step_keeps; eauto.
  - eapply run_keeps; eauto.
Qed.

(** In every reachable state the queue is a heap of items with distinct
    sequence numbers. *)
Lemma reachable_queue_wf allowed t w :
  reachable_by allowed t w -> queue_wf (env w).
Proof.
  induction 1 as [ | w fuel a r Hr IH Ha Hcall ].
  - apply queue_wf_new.
  - eapply (call_keeps queue_wf queue_wf_stable queue_wf_pop_stable);
      eauto using queue_wf_stable_any.
Qed.


(** [step] leaves the clock at the time of the item it popped. *)
Lemma step_now fuel w r x q :
  Heap.pop queue_compare (_queue (env w)) = (Some x, q) ->
  step fuel w = Some r -> now (world_of r) = time x.
Proof.
  intros Hpop Hstep. unfold step in Hstep.
  assert (HI : stable (fun E => _now E = time x)).
  { split; intros; simpl; assumption. }
  destruct (Heap.size (_queue (env w)) =? 0)%nat eqn:Hsz.
  { apply Nat.eqb_eq in Hsz. unfold Heap.size in Hsz.
    apply length_zero_iff_nil in Hsz. rewrite Hsz in Hpop. discriminate. }
  rewrite Hpop in Hstep.
  assert (Hw1 : _now (env (advance x q w)) = time x) by reflexivity.
  destruct (callbacks (ev (advance x q w) (event x)));
    [ | inversion Hstep; exact Hw1 ].
  destruct (fan fuel (event x) 0 (advance x q w)) as [[u w2 | e w2]|] eqn:Hfan;
    [ | | discriminate ].
  - pose proof (fan_keeps _ HI _ _ _ _ _ Hw1 Hfan) as Hw2. simpl in Hw2.
    destruct (negb (truthy (_ok (ev w2 (event x)))) &&
              negb (_defused (ev w2 (event x))));
      inversion Hstep; exact Hw2.
  - pose proof (fan_keeps _ HI _ _ _ _ _ Hw1 Hfan) as Hw2.
    inversion Hstep. exact Hw2.
Qed.

(** ** Running a list of calls *)

Lemma reachable_run_calls allowed t fuel l : forall w,
  reachable_by allowed t w -> Forall allowed l ->
  reachable_by allowed t (run_calls fuel l w).
Proof.
  induction l as [|a l IH]; intros w Hw Hl; simpl; [exact Hw | ].
  inversion Hl; subst.
  destruct (call fuel a w) as [r|] eqn:Hcall; [ | exact Hw ].
  apply IH; [ | assumption ].
  eapply reach_call; eauto.
Qed.


(** ** Fanning user callbacks *)

Lemma with_results_nil w : with_results (fun l => l ++ []) w = w.
Proof. destruct w. unfold with_results. simpl. rewrite app_nil_r. reflexivity. Qed.

Lemma with_results_app a b w :
  with_results (fun l => l ++ b) (with_results (fun l => l ++ a) w) =
  with_results (fun l => l ++ a ++ b) w.
Proof. unfold with_results. simpl. rewrite app_assoc. reflexivity. Qed.

(** Fanning a run of user callbacks only extends [results]. *)
Lemma fan_user_prefix e tail : forall rest done w fuel,
  callbacks (ev w e) = Some (done ++ rest ++ tail) ->
  forallb is_user rest = true ->
  fan (length rest + fuel) e (length done) w =
  fan fuel e (length done + length rest)
    (with_results (fun l => l ++ user_log e rest) w).
Proof.
  induction rest as [|cb rest IH]; intros done w fuel Hcb Hu.
  - simpl. rewrite Nat.add_0_r, with_results_nil. reflexivity.
  - simpl in Hu. apply andb_true_iff in Hu. destruct Hu as [Hcbu Hu].
    change ((cb :: rest) ++ tail) with (cb :: (rest ++ tail)) in Hcb.
    cbn [length Nat.add fan]. rewrite Hcb.
    rewrite list_lookup_middle by reflexivity.
    assert (Hcb' : forall w1, events w1 = events w ->
              callbacks (ev w1 e) = Some ((done ++ [cb]) ++ rest ++ tail)).
    { intros w1 Hw1. unfold ev in *. rewrite Hw1, Hcb.
      rewrite <- app_assoc. reflexivity. }
    replace (length done + S (length rest))%nat
      with (length (done ++ [cb]) + length rest)%nat
      by (rewrite length_app; simpl; lia).
    replace (S (length done)) with (length (done ++ [cb]))
      by (rewrite length_app; simpl; lia).
    destruct cb; try discriminate; simpl.
    + rewrite (IH (done ++ [CbUser tag])) by (auto using Hcb').
      rewrite with_results_app. reflexivity.
    + rewrite (IH (done ++ [CbNotFunction])) by (auto using Hcb').
      reflexivity.
Qed.

(** [step] on an event whose callbacks are user callbacks: each is called
    once, in registration order; the callback list stays in place. *)
Lemma step_user_callbacks fuel w x q cbs :
  Heap.pop queue_compare (_queue (env w)) = (Some x, q) ->
  callbacks (ev w (event x)) = Some cbs ->
  forallb is_user cbs = true ->
  (length cbs < fuel)%nat ->
  exists r, step fuel w = Some r /\
    world_of r = with_results (fun l => l ++ user_log (event x) cbs)
                   (advance x q w) /\
    callbacks (ev (world_of r) (event x)) = Some cbs /\
    processed (world_of r) (event x) = false.
Proof.
  intros Hpop Hcb Hu Hfuel. unfold step.
  destruct (Heap.size (_queue (env w)) =? 0)%nat eqn:Hsz.
  { apply Nat.eqb_eq in Hsz. apply length_zero_iff_nil in Hsz.
    rewrite Hsz in Hpop. discriminate. }
  rewrite Hpop. cbv zeta.
  assert (Hcb1 : callbacks (ev (advance x q w) (event x)) = Some ([] ++ cbs ++ []))
    by (rewrite app_nil_r; exact Hcb).
  replace (callbacks (ev (advance x q w) (event x))) with (Some cbs) by (symmetry; exact Hcb).
  replace fuel with (length cbs + (fuel - length cbs))%nat by lia.
  rewrite (fan_user_prefix _ [] cbs [] _ _ Hcb1 Hu).
  destruct (fuel - length cbs)%nat as [|k] eqn:Hk; [lia | ].
  cbn [fan].
  replace (callbacks (ev (with_results (fun l => l ++ user_log (event x) cbs)
                            (advance x q w)) (event x)))
    with (Some cbs) by (symmetry; exact Hcb).
  rewrite lookup_ge_None_2 by (simpl; lia).
  match goal with
  | |- context [if ?b then _ else _] => destruct b
  end; eexists; (split; [reflexivity | ]); simpl;
    unfold processed;
    replace (callbacks (ev (with_results (fun l => l ++ user_log (event x) cbs)
                              (advance x q w)) (event x)))
      with (Some cbs) by (symmetry; exact Hcb);
    auto.
Qed.

(** ** The queue on JavaScript numbers *)

(** On integers the heap on JavaScript numbers is the heap of the
    embedding. *)
Section heap_on_integers.
Context {A B : Type} (f : A -> B).
Variable cA : A -> A -> Z.
Variable cB : B -> B -> Js.number.
Hypothesis cB_f : forall a b, cB (f a) (f b) = Js.Int (cA a b).

Lemma JsHeap_heapifyUp_loop_map fuel : forall item idx l,
  JsHeap._heapifyUp_loop cB fuel (f item) idx (map f l) =
  map f (Heap._heapifyUp_loop cA fuel item idx l).
Proof.
  induction fuel as [|fuel IH]; intros item idx l; [reflexivity | ].
  cbn [JsHeap._heapifyUp_loop Heap._heapifyUp_loop].
  destruct (0 <? idx)%nat; [ | reflexivity ].
  rewrite list_lookup_fmap.
  destruct (l !! ((idx - 1) / 2)%nat) as [p|]; cbn [fmap option_fmap option_map];
    [ | reflexivity ].
  rewrite cB_f. cbn [Js.ge0].
  destruct (cA item p >=? 0); [reflexivity | ].
  rewrite <- IH. f_equal.
  change (map f) with (fmap (M := list) f).
  rewrite !list_fmap_insert. reflexivity.
Qed.

Lemma JsHeap_push_map x l :
  JsHeap.push cB (f x) (map f l) = map f (Heap.push cA x l).
Proof.
  unfold JsHeap.push, Heap.push, JsHeap._heapifyUp, Heap._heapifyUp,
    JsHeap.size, Heap.size.
  change [f x] with (map f [x]). rewrite <- map_app.
  rewrite length_map, list_lookup_fmap.
  destruct ((l ++ [x]) !! (length (l ++ [x]) - 1)%nat) as [item|]; simpl;
    [ | reflexivity ].
  apply JsHeap_heapifyUp_loop_map.
Qed.






End heap_on_integers.

Lemma queue_compare_to_js a b :
  JsEnvironment.queue_compare (to_js_item a) (to_js_item b) =
  Js.Int (queue_compare a b).
Proof.
  unfold JsEnvironment.queue_compare, queue_compare. simpl.
  destruct (time a =? time b); simpl; [ | reflexivity ].
  destruct (priority a =? priority b); reflexivity.
Qed.

(** [schedule] with an integer delay and the first statements of [step], on
    an integer environment, are those of the embedding. *)
Lemma schedule_to_js e p d E :
  JsEnvironment.schedule e p (Js.Int d) (to_js E) = to_js (enqueue e p d E).
Proof.
  unfold JsEnvironment.schedule, to_js, enqueue. simpl. f_equal.
  rewrite <- (JsHeap_push_map to_js_item queue_compare
                JsEnvironment.queue_compare queue_compare_to_js).
  reflexivity.
Qed.










(** ** What [step] leaves in the queue *)




(** ** C2: [step] pops a minimal item *)




(** ** C10: the pop order is determined by the scheduled items *)



(** ** Running a queue of plain events *)






(** ** Reading the event store *)

Lemma ev_with_env f w e : ev (with_env f w) e = ev w e.
Proof. reflexivity. Qed.

Lemma ev_alter_eq f w e :
  (e < length (events w))%nat -> ev (with_events (alter f e) w) e = f (ev w e).
Proof.
  intros He. unfold ev, with_events in *. simpl.
  rewrite list_lookup_alter_eq.
  destruct (lookup_lt_is_Some_2 _ _ He) as [x Hx]. rewrite !Hx. reflexivity.
Qed.

Lemma ev_alter_ne f w e e' :
  e <> e' -> ev (with_events (alter f e) w) e' = ev w e'.
Proof.
  intros He. unfold ev, with_events. simpl.
  rewrite list_lookup_alter_ne by assumption. reflexivity.
Qed.

Lemma length_events_alter f w e :
  length (events (with_events (alter f e) w)) = length (events w).
Proof. unfold with_events. simpl. apply length_alter. Qed.

(** [schedule_once] returns normally and changes, in the event store, at
    most the [_scheduled] flag of its event. *)
Lemma schedule_once_spec e w :
  exists w', schedule_once e w = Ok tt w' /\
    length (events w') = length (events w) /\
    resources w' = resources w /\ results w' = results w /\
    (forall x, x <> e -> ev w' x = ev w x) /\
    (ev w' e = ev w e \/ ev w' e = set_scheduled true (ev w e)).
Proof.
  unfold schedule_once, bind, gets, when.
  destruct (_scheduled (ev w e)) eqn:Hs; simpl.
  - exists w. repeat split; auto.
  - unfold schedule, bind, modify, update_event. simpl.
    eexists. split; [reflexivity | ].
    unfold with_events, with_env, ev in *. simpl.
    rewrite !length_alter. repeat split.
    + intros x Hx. rewrite !list_lookup_alter_ne by congruence. reflexivity.
    + rewrite !list_lookup_alter_eq.
      destruct (events w !! e) as [x|] eqn:Hx; simpl; auto.
Qed.

Lemma is_PENDING_iff v : is_PENDING v = true <-> v = PENDING.
Proof.
  unfold PENDING. destruct v; simpl; try (split; [discriminate | intros H; inversion H]).
  rewrite String.eqb_eq. split; congruence.
Qed.

(** What [succeed] does to a pending event. *)
Lemma succeed_pending w e v :
  (e < length (events w))%nat -> is_PENDING (_value (ev w e)) = true ->
  exists w', succeed e v w = Ok tt w' /\
    length (events w') = length (events w) /\
    resources w' = resources w /\ results w' = results w /\
    (forall x, x <> e -> ev w' x = ev w x) /\
    (ev w' e = set_value v (set_ok (Some true) (ev w e)) \/
     ev w' e = set_scheduled true (set_value v (set_ok (Some true) (ev w e)))).
Proof.
  intros He Hp. unfold succeed, bind, gets. rewrite Hp. simpl.
  unfold update_event, modify. simpl.
  set (w2 := with_events (alter (set_value v) e)
               (with_events (alter (set_ok (Some true)) e) w)).
  assert (H2 : ev w2 e = set_value v (set_ok (Some true) (ev w e))).
  { unfold w2. rewrite ev_alter_eq by (rewrite length_events_alter; exact He).
    rewrite ev_alter_eq by exact He. reflexivity. }
  destruct (schedule_once_spec e w2) as (w' & Hs & Hl & Hr & Hres & Ho & Hself).
  exists w'. split; [exact Hs | ].
  split; [rewrite Hl; unfold w2; rewrite !length_events_alter; reflexivity | ].
  split; [rewrite Hr; reflexivity | ].
  split; [rewrite Hres; reflexivity | ].
  split.
  - intros x Hx. rewrite Ho by exact Hx. unfold w2.
    rewrite !ev_alter_ne by congruence. reflexivity.
  - rewrite <- H2. exact Hself.
Qed.

(** What [fail] does to a pending event, given an [Error]. *)
Lemma fail_pending w e x :
  (e < length (events w))%nat -> is_PENDING (_value (ev w e)) = true ->
  is_Error x = true ->
  exists w', fail e x w = Ok tt w' /\
    length (events w') = length (events w) /\
    (forall y, y <> e -> ev w' y = ev w y) /\
    (ev w' e = set_value x (set_ok (Some false) (ev w e)) \/
     ev w' e = set_scheduled true (set_value x (set_ok (Some false) (ev w e)))).
Proof.
  intros He Hp Hx. unfold fail, bind, gets. rewrite Hp, Hx. simpl.
  unfold update_event, modify. simpl.
  set (w2 := with_events (alter (set_value x) e)
               (with_events (alter (set_ok (Some false)) e) w)).
  assert (H2 : ev w2 e = set_value x (set_ok (Some false) (ev w e))).
  { unfold w2. rewrite ev_alter_eq by (rewrite length_events_alter; exact He).
    rewrite ev_alter_eq by exact He. reflexivity. }
  destruct (schedule_once_spec e w2) as (w' & Hs & Hl & _ & _ & Ho & Hself).
  exists w'. split; [exact Hs | ].
  split; [rewrite Hl; unfold w2; rewrite !length_events_alter; reflexivity | ].
  split.
  - intros y Hy. rewrite Ho by exact Hy. unfold w2.
    rewrite !ev_alter_ne by congruence. reflexivity.
  - rewrite <- H2. exact Hself.
Qed.

(** ** C4: at most one [succeed] or [fail]; [trigger] is not guarded *)

(** C4 as stated fails for [trigger]: on a target that was already
    triggered (succeeded with "first") it returns normally and replaces
    the outcome of the target by that of its source. *)
Lemma trigger_overwrites_outcome :
  triggered succeeded_and_failed 0%nat = true /\
  _ok (ev succeeded_and_failed 0%nat) = Some true /\
  _value (ev succeeded_and_failed 0%nat) = VStr "first" /\
  exists w', trigger 0%nat 1%nat succeeded_and_failed = Ok tt w' /\
    _ok (ev w' 0%nat) = Some false /\
    _value (ev w' 0%nat) = VError (UserError "second").
Proof.
  repeat split. eexists. vm_compute. repeat split.
Qed.

(** C4, amended. [succeed] and [fail] on an event that is not Pending
    throw the already-triggered error and leave the whole state, so also
    the target's [(ok, value)], unchanged; [trigger] has no such test: it
    always returns normally and gives the target the outcome of its
    source. *)
Theorem succeed_fail_at_most_once :
  (forall w e v, triggered w e = true ->
     succeed e v w = Throw (VError (AlreadyTriggered e)) w) /\
  (forall w e x, triggered w e = true ->
     fail e x w = Throw (VError (AlreadyTriggered e)) w) /\
  (forall w e src, (e < length (events w))%nat ->
     exists w', trigger e src w = Ok tt w' /\
       _ok (ev w' e) = _ok (ev w src) /\
       _value (ev w' e) = _value (ev w src)).
Proof.
  split; [ | split ].
  - intros w e v Ht. unfold triggered in Ht.
    unfold succeed, bind, gets. rewrite Ht. reflexivity.
  - intros w e x Ht. unfold triggered in Ht.
    unfold fail, bind, gets. rewrite Ht. reflexivity.
  - intros w e src He. unfold trigger, bind, gets, update_event, modify. simpl.
    set (w2 := with_events (alter (set_value (_value (ev w src))) e)
                 (with_events (alter (set_ok (_ok (ev w src))) e) w)).
    assert (H2 : ev w2 e =
              set_value (_value (ev w src)) (set_ok (_ok (ev w src)) (ev w e))).
    { unfold w2. rewrite ev_alter_eq by (rewrite length_events_alter; exact He).
      rewrite ev_alter_eq by exact He. reflexivity. }
    destruct (schedule_once_spec e w2) as (w' & Hs & _ & _ & _ & _ & Hself).
    exists w'. split; [exact Hs | ].
    destruct Hself as [-> | ->]; rewrite H2; split; reflexivity.
Qed.

(** ** C9: the pending state is the value 'PENDING' *)

(** C9. On a pending event, [succeed(v)] makes [triggered] true for every
    [v] other than the string 'PENDING'; [succeed('PENDING')] returns
    normally and leaves [triggered] false, after which a further [succeed],
    or a [fail] with an Error, goes through without the already-triggered
    error. *)
Theorem succeed_PENDING_sentinel (w : World) (e : EvId) :
  (e < length (events w))%nat -> triggered w e = false ->
  (forall v, v <> PENDING ->
     exists w', succeed e v w = Ok tt w' /\ triggered w' e = true) /\
  (exists w1, succeed e PENDING w = Ok tt w1 /\ triggered w1 e = false /\
     (forall v2, exists w2, succeed e v2 w1 = Ok tt w2 /\
                            _value (ev w2 e) = v2) /\
     (forall x, is_Error x = true ->
        exists w2, fail e x w1 = Ok tt w2 /\ _value (ev w2 e) = x /\
                   _ok (ev w2 e) = Some false)).
Proof.
  intros He Ht. unfold triggered in Ht. apply negb_false_iff in Ht.
  split.
  - intros v Hv.
    destruct (succeed_pending w e v He Ht) as (w' & Hs & _ & _ & _ & _ & Hself).
    exists w'. split; [exact Hs | ].
    unfold triggered.
    assert (Hval : _value (ev w' e) = v)
      by (destruct Hself as [-> | ->]; reflexivity).
    rewrite Hval. apply negb_true_iff.
    destruct (is_PENDING v) eqn:E; [ | reflexivity ].
    apply is_PENDING_iff in E. contradiction.
  - destruct (succeed_pending w e PENDING He Ht)
      as (w1 & Hs & Hl & _ & _ & _ & Hself).
    assert (Hval : _value (ev w1 e) = PENDING)
      by (destruct Hself as [-> | ->]; reflexivity).
    assert (He1 : (e < length (events w1))%nat) by (rewrite Hl; exact He).
    assert (Hp1 : is_PENDING (_value (ev w1 e)) = true)
      by (rewrite Hval; reflexivity).
    exists w1. split; [exact Hs | ]. split.
    { unfold triggered. rewrite Hp1. reflexivity. }
    split.
    + intros v2.
      destruct (succeed_pending w1 e v2 He1 Hp1)
        as (w2 & Hs2 & _ & _ & _ & _ & Hself2).
      exists w2. split; [exact Hs2 | ].
      destruct Hself2 as [-> | ->]; reflexivity.
    + intros x Hx.
      destruct (fail_pending w1 e x He1 Hp1 Hx) as (w2 & Hs2 & _ & _ & Hself2).
      exists w2. split; [exact Hs2 | ].
      destruct Hself2 as [-> | ->]; split; reflexivity.
Qed.

Lemma succeed_PENDING_sentinel_witness :
  (forall v, v <> PENDING ->
     exists w', succeed 0%nat v one_event = Ok tt w' /\
                triggered w' 0%nat = true) /\
  (exists w1, succeed 0%nat PENDING one_event = Ok tt w1 /\
     triggered w1 0%nat = false /\
     (forall v2, exists w2, succeed 0%nat v2 w1 = Ok tt w2 /\
                            _value (ev w2 0%nat) = v2) /\
     (forall x, is_Error x = true ->
        exists w2, fail 0%nat x w1 = Ok tt w2 /\ _value (ev w2 0%nat) = x /\
                   _ok (ev w2 0%nat) = Some false)).
Proof.
  apply (succeed_PENDING_sentinel one_event 0%nat).
  - vm_compute. lia.
  - reflexivity.
Defined.

(** ** C7: a condition over no children *)

(** C7 as stated fails: after [new Event(env, Event.anyEvents, [])] and
    after [new Event(env, Event.allEvents, [])] the new event is not
    triggered and nothing is scheduled. *)
Lemma empty_condition_not_triggered :
  (exists w', Event_new IsEvent (Some anyEvents) [] (World_new 0) = Ok 0%nat w' /\
     triggered w' 0%nat = false /\ peek w' = None) /\
  (exists w', Event_new IsEvent (Some allEvents) [] (World_new 0) = Ok 0%nat w' /\
     triggered w' 0%nat = false /\ peek w' = None).
Proof. split; eexists; vm_compute; repeat split. Qed.

(** C7, amended. The constructor initialises the condition only for a
    non-empty child list; over an empty child set, for [allEvents] as for
    [anyEvents], the new event is a plain pending event: not triggered, not
    scheduled, without callbacks, the environment untouched.  Both
    predicates do hold of the empty set with count 0, but the constructor
    does not evaluate them. *)
Theorem empty_condition_stays_pending (w : World) (f : ConditionEvaluator) :
  exists w',
    Event_new IsEvent (Some f) [] w = Ok (length (events w)) w' /\
    triggered w' (length (events w)) = false /\
    processed w' (length (events w)) = false /\
    _scheduled (ev w' (length (events w))) = false /\
    callbacks (ev w' (length (events w))) = Some [] /\
    env w' = env w /\
    apply_evaluate f [] 0 = true.
Proof.
  eexists. split; [reflexivity | ].
  assert (Hev : ev (with_events (fun l => l ++
             [mkEvent (Some []) None false PENDING false (Some f) [] 0 IsEvent]) w)
             (length (events w)) =
           mkEvent (Some []) None false PENDING false (Some f) [] 0 IsEvent).
  { unfold ev, with_events. simpl.
    rewrite list_lookup_middle by reflexivity. reflexivity. }
  unfold triggered, processed. rewrite Hev. simpl.
  repeat split. destruct f; reflexivity.
Qed.

(** ** C8: [schedule] and negative delays *)



(** ** C6: fanning, and the callback list after it *)

(** C6. [step] calls each user callback of the popped event once, in
    registration order, but it does not release the callback list: after
    the step the list is what it was and [processed] is still false.  Here
    for every event that has only user callbacks, and for the event of
    [two_callbacks] in particular. *)
Theorem step_does_not_release_callbacks :
  (forall fuel w x q cbs,
     Heap.pop queue_compare (_queue (env w)) = (Some x, q) ->
     callbacks (ev w (event x)) = Some cbs ->
     forallb is_user cbs = true ->
     (length cbs < fuel)%nat ->
     exists r, step fuel w = Some r /\
       results (world_of r) = results w ++ user_log (event x) cbs /\
       callbacks (ev (world_of r) (event x)) = Some cbs /\
       processed (world_of r) (event x) = false) /\
  (exists w', step 5 two_callbacks = Some (Ok tt w') /\
     results w' = [("cb1"%string, 0%nat); ("cb2"%string, 0%nat)] /\
     triggered w' 0%nat = true /\
     callbacks (ev w' 0%nat) = Some [CbUser "cb1"; CbUser "cb2"] /\
     processed w' 0%nat = false).
Proof.
  split.
  - intros fuel w x q cbs Hpop Hcb Hu Hfuel.
    destruct (step_user_callbacks fuel w x q cbs Hpop Hcb Hu Hfuel)
      as (r & Hstep & Hw & Hcbs & Hproc).
    exists r. split; [exact Hstep | ].
    split; [rewrite Hw; reflexivity | ]. split; assumption.
  - eexists. split; [vm_compute; reflexivity | ]. repeat split.
Qed.

(** ** C1: [run(until)] *)

(** C1 as stated fails.  With one event queued for time 10, [run(5)]
    processes it and returns with the clock at 10, not 5; and
    [run(event)] on that event does not return normally: the
    StopSimulation raised by the attached callback leaves [run]. *)
Lemma run_until_not_as_claimed :
  (exists w', run 5 (UntilNumber 5) timeout_at_10 = Some (Ok tt w') /\
     now w' = 10 /\ processed w' 0%nat = false) /\
  (exists w', run 5 (UntilEvent 0%nat) timeout_at_10 =
                Some (Throw (VStopSimulation VNull) w') /\
     now w' = 10).
Proof.
  split; eexists; (split; [vm_compute; reflexivity | ]); repeat split.
Qed.

Lemma fan_step_StopSimulation fuel w x q cbs v :
  Heap.pop queue_compare (_queue (env w)) = (Some x, q) ->
  callbacks (ev w (event x)) = Some (cbs ++ [CbStopSimulation]) ->
  forallb is_user cbs = true ->
  _ok (ev w (event x)) = Some true ->
  _value (ev w (event x)) = v -> v <> PENDING ->
  (length cbs + 1 < fuel)%nat ->
  exists w', step fuel w = Some (Throw (VStopSimulation v) w') /\
             now w' = time x.
Proof.
  intros Hpop Hcb Hu Hok Hv Hnp Hfuel. unfold step.
  destruct (Heap.size (_queue (env w)) =? 0)%nat eqn:Hsz.
  { apply Nat.eqb_eq in Hsz. apply length_zero_iff_nil in Hsz.
    rewrite Hsz in Hpop. discriminate. }
  rewrite Hpop. cbv zeta.
  replace (callbacks (ev (advance x q w) (event x)))
    with (Some (cbs ++ [CbStopSimulation])) by (symmetry; exact Hcb).
  assert (Hcb1 : callbacks (ev (advance x q w) (event x)) =
                 Some ([] ++ cbs ++ [CbStopSimulation])) by exact Hcb.
  replace fuel with (length cbs + (fuel - length cbs))%nat by lia.
  rewrite (fan_user_prefix _ _ cbs [] _ _ Hcb1 Hu).
  destruct (fuel - length cbs)%nat as [|k] eqn:Hk; [lia | ].
  set (w2 := with_results (fun l => l ++ user_log (event x) cbs)
               (advance x q w)).
  assert (Hev2 : ev w2 (event x) = ev w (event x)) by reflexivity.
  cbn [fan]. rewrite Hev2, Hcb. cbn [length Nat.add].
  rewrite list_lookup_middle by reflexivity.
  assert (Hnv : is_PENDING v = false).
  { destruct (is_PENDING v) eqn:E; [ | reflexivity ].
    apply is_PENDING_iff in E. contradiction. }
  unfold call_callback, StopSimulation_callback, ok, value, bind, gets, throw,
    triggered, ret.
  rewrite Hev2, Hv, Hnv. cbn [negb]. rewrite Hev2, Hok. cbn [truthy].
  rewrite Hev2, Hv, Hnv.
  exists w2. split; reflexivity.
Qed.

(** C1, amended.  When [until] is an Event with a callback list, [run]
    appends [StopSimulation.callback] to it and then steps.  [run] catches
    nothing: an error raised by a step, StopSimulation included, leaves
    [run]; [run] returns normally only with an empty queue.  When the
    [until] event is processed as a success, after its user callbacks the
    attached callback raises StopSimulation carrying the event's value,
    with the clock at the event's time. *)
Theorem run_until_event_propagates :
  (forall fuel w e cbs, callbacks (ev w e) = Some cbs ->
     run fuel (UntilEvent e) w =
     run_loop fuel fuel
       (with_events (alter (set_callbacks (Some (cbs ++ [CbStopSimulation]))) e)
          w)) /\
  (forall fuel n w x w', _queue (env w) <> [] ->
     step fuel w = Some (Throw x w') ->
     run_loop fuel (S n) w = Some (Throw x w')) /\
  (forall fuel n w w', run_loop fuel n w = Some (Ok tt w') ->
     _queue (env w') = []) /\
  (forall fuel w x q cbs v,
     Heap.pop queue_compare (_queue (env w)) = (Some x, q) ->
     callbacks (ev w (event x)) = Some (cbs ++ [CbStopSimulation]) ->
     forallb is_user cbs = true ->
     _ok (ev w (event x)) = Some true ->
     _value (ev w (event x)) = v -> v <> PENDING ->
     (length cbs + 1 < fuel)%nat ->
     exists w', step fuel w = Some (Throw (VStopSimulation v) w') /\
                now w' = time x).
Proof.
  split; [ | split; [ | split ] ].
  - intros fuel w e cbs Hcb. unfold run, push_callback, bind, gets.
    rewrite Hcb. reflexivity.
  - intros fuel n w x w' Hne Hstep. simpl.
    destruct (_queue (env w)) eqn:Eq; [congruence | ]. simpl.
    rewrite Hstep. reflexivity.
  - intros fuel n. induction n as [|n IH]; intros w w' Hrun; [discriminate | ].
    simpl in Hrun.
    destruct (0 <? Heap.size (_queue (env w)))%nat eqn:Hsz.
    + destruct (step fuel w) as [[u w1 | e w1]|]; try discriminate.
      eapply IH; eauto.
    + inversion Hrun; subst. apply Nat.ltb_ge in Hsz.
      unfold Heap.size in Hsz. apply length_zero_iff_nil. lia.
  - exact fan_step_StopSimulation.
Qed.

(** ** C3: interrupting a process at construction *)

(** C3 as stated fails: [run()] does not return normally but raises the
    string "Interrupt: boom", and the outcome of the process is a failure. *)
Lemma interrupt_is_not_caught :
  exists w', run 5 UntilNull (interrupted "boom") =
               Some (Throw (VStr "Interrupt: boom") w') /\
    now w' = 0 /\
    _ok (ev w' 0%nat) = Some false.
Proof. eexists. split; [vm_compute; reflexivity | ]. split; reflexivity. Qed.

(** C3, amended.  [interrupt(cause)] gives the process the failure
    outcome "Interrupt: <cause>" and schedules the process itself.  The
    Initialize event runs the coroutine up to its [yield]; then the process
    event is popped: it has no callback, nothing is thrown into the
    coroutine, which stays suspended at its [yield] with the Timeout still
    queued for time 100, and [step] raises the undefused failure value out
    of [run], with the clock at 0. *)
Theorem interrupt_fails_process (cause : string) (fuel : nat) :
  exists w',
    run (S (S fuel)) UntilNull (interrupted cause) =
      Some (Throw (VStr ("Interrupt: " ++ cause)) w') /\
    now w' = 0 /\
    _ok (ev w' 0%nat) = Some false /\
    _value (ev w' 0%nat) = VStr ("Interrupt: " ++ cause) /\
    callbacks (ev w' 0%nat) = Some [] /\
    (exists next thrown, generator_of w' 0%nat = GenSuspendedYield next thrown) /\
    map time (_queue (env w')) = [100].
Proof.
  eexists. split; [vm_compute; reflexivity | ].
  repeat split. simpl. eauto.
Qed.

(** ** C5: resource accounting *)

Lemma sumZ_app l1 l2 : sumZ (l1 ++ l2) = sumZ l1 + sumZ l2.
Proof. induction l1 as [|a l IH]; simpl; lia. Qed.

Lemma sumZ_map_insert {A} (f : A -> Z) (l : list A) e x y :
  l !! e = Some x ->
  sumZ (map f (<[e := y]> l)) = sumZ (map f l) - f x + f y.
Proof.
  revert e. induction l as [|a l IH]; intros [|e] H; simplify_eq/=.
  - lia.
  - rewrite (IH _ H). lia.
Qed.

Lemma sumZ_map_zero {A} (f : A -> Z) (l : list A) :
  (forall x, x ∈ l -> f x = 0) -> sumZ (map f l) = 0.
Proof.
  induction l as [|a l IH]; intros H; simpl; [reflexivity | ].
  rewrite H by (apply elem_of_cons; auto).
  rewrite IH; [reflexivity | ]. intros x Hx. apply H. apply elem_of_cons. auto.
Qed.

Lemma ev_lookup w e :
  (e < length (events w))%nat -> events w !! e = Some (ev w e).
Proof.
  intros He. unfold ev in *.
  destruct (lookup_lt_is_Some_2 _ _ He) as [x Hx]. rewrite Hx. reflexivity.
Qed.

Lemma ev_out_of_range w e :
  (length (events w) <= e)%nat -> ev w e = blank_event IsEvent.
Proof.
  intros He. unfold ev in *. rewrite lookup_ge_None_2 by exact He.
  reflexivity.
Qed.

(** Two event stores that differ at most at [e]. *)
Lemma events_eq_insert w w2 e :
  length (events w2) = length (events w) ->
  (forall x, x <> e -> ev w2 x = ev w x) ->
  events w2 = <[e := ev w2 e]> (events w).
Proof.
  intros Hl Ho. apply list_eq. intros i.
  destruct (decide (i < length (events w))%nat) as [Hi | Hi].
  - destruct (decide (i = e)) as [-> | Hne].
    + rewrite list_lookup_insert_eq by exact Hi.
      apply ev_lookup. rewrite Hl. exact Hi.
    + rewrite list_lookup_insert_ne by congruence.
      rewrite ev_lookup by (rewrite Hl; exact Hi).
      rewrite (ev_lookup w) by exact Hi. rewrite Ho by exact Hne. reflexivity.
  - rewrite !lookup_ge_None_2; [reflexivity | | ].
    + rewrite length_insert. lia.
    + rewrite Hl. lia.
Qed.

Lemma length_push_users a l :
  length (push_users a l) = (length l + Z.to_nat a)%nat.
Proof.
  unfold push_users. induction (Z.to_nat a) as [|n IH]; simpl; [lia | ].
  rewrite length_app, IH. simpl. lia.
Qed.

Lemma length_pop_users a l :
  length (pop_users a l) = (length l - Z.to_nat a)%nat.
Proof.
  unfold pop_users. induction (Z.to_nat a) as [|n IH]; simpl; [lia | ].
  rewrite removelast_firstn_len, length_take, IH. lia.
Qed.

Lemma res_lookup w r R : resources w !! r = Some R -> res w r = R.
Proof. intros H. unfold res in *. rewrite H. reflexivity. Qed.

Lemma res_dangling w r : resources w !! r = None -> res w r = blank_resource.
Proof. intros H. unfold res in *. rewrite H. reflexivity. Qed.

Lemma delete_NoDup_elem (q : list EvId) idx e :
  NoDup q -> q !! idx = Some e ->
  NoDup (delete idx q) /\
  (forall y, y ∈ delete idx q -> y ∈ q /\ y <> e).
Proof.
  intros Hnd Hidx.
  pose proof (delete_Permutation q idx e Hidx) as Hperm.
  rewrite Hperm in Hnd. apply NoDup_cons in Hnd. destruct Hnd as [Hne Hnd].
  split; [exact Hnd | ].
  intros y Hy. split.
  - rewrite Hperm. apply elem_of_cons. auto.
  - intros ->. contradiction.
Qed.

Lemma acquired_insert w w' e r :
  (e < length (events w))%nat ->
  events w' = <[e := ev w' e]> (events w) ->
  acquired w' r = acquired w r - acquired_of r (ev w e) + acquired_of r (ev w' e).
Proof.
  intros He Hev. unfold acquired. rewrite Hev.
  apply sumZ_map_insert. apply ev_lookup. exact He.
Qed.

Lemma released_insert w w' e r :
  (e < length (events w))%nat ->
  events w' = <[e := ev w' e]> (events w) ->
  released w' r = released w r - released_of r (ev w e) + released_of r (ev w' e).
Proof.
  intros He Hev. unfold released. rewrite Hev.
  apply sumZ_map_insert. apply ev_lookup. exact He.
Qed.

(** Granting the queued request [e] of the resource [r]: the event gets
    triggered, leaves its queue, and the user count moves by its amount. *)
Lemma grant_keeps_inv g w w' r R R' e a p idx :
  res_inv w -> resources w !! r = Some R ->
  kind_queue g R !! idx = Some e ->
  class (ev w e) = kind_class g r a p ->
  length (events w') = length (events w) ->
  (forall y, y <> e -> ev w' y = ev w y) ->
  class (ev w' e) = class (ev w e) ->
  callbacks (ev w' e) = callbacks (ev w e) ->
  is_PENDING (_value (ev w' e)) = false ->
  resources w' = <[r := R']> (resources w) ->
  capacity R' = capacity R ->
  kind_queue g R' = delete idx (kind_queue g R) ->
  kind_queue (negb g) R' = kind_queue (negb g) R ->
  Z.of_nat (length (users R')) = Z.of_nat (length (users R)) + kind_delta g a ->
  Z.of_nat (length (users R')) <= capacity R ->
  res_inv w'.
Proof.
  intros Hinv HR Hidx Hcls Hlen Hother Hcls' Hcbs' Hval' Hres Hcap Hq Hq' Hus Hbound.
  destruct Hinv as [Hcb Hrs Htr].
  pose proof (Hrs r R HR) as HRok.
  assert (Hein : e ∈ kind_queue g R) by (apply list_elem_of_lookup; eauto).
  assert (Hqe : queued_ok w e).
  { destruct g; simpl in Hein;
      [apply (ro_get _ _ _ HRok) in Hein | apply (ro_put _ _ _ HRok) in Hein];
      tauto. }
  destruct Hqe as [He Hpend].
  assert (Hrlt : (r < length (resources w))%nat) by (eapply lookup_lt_Some; eauto).
  pose proof (events_eq_insert w w' e Hlen Hother) as Hev.
  assert (Hacq : forall r', acquired w' r' =
            acquired w r' + (if g then if (r =? r')%nat then a else 0 else 0)).
  { intros r'. rewrite (acquired_insert w w' e r' He Hev).
    unfold acquired_of. rewrite Hcls', Hcls, Hval', Hpend.
    destruct g; simpl; [ | lia ].
    rewrite andb_false_r, andb_true_r. destruct (r =? r')%nat; lia. }
  assert (Hrel : forall r', released w' r' =
            released w r' + (if g then 0 else if (r =? r')%nat then a else 0)).
  { intros r'. rewrite (released_insert w w' e r' He Hev).
    unfold released_of. rewrite Hcls', Hcls, Hval', Hpend.
    destruct g; simpl; [lia | ].
    rewrite andb_false_r, andb_true_r. destruct (r =? r')%nat; lia. }
  assert (Hkeep : forall y, y <> e -> queued_ok w y -> queued_ok w' y).
  { intros y Hy [Hy1 Hy2]. split; [rewrite Hlen; exact Hy1 | ].
    rewrite Hother by exact Hy. exact Hy2. }
  constructor.
  - intros y. destruct (decide (y = e)) as [-> | Hy].
    + rewrite Hcbs'. apply Hcb.
    + rewrite Hother by exact Hy. apply Hcb.
  - intros r' R'' HR''. rewrite Hres in HR''.
    destruct (decide (r' = r)) as [-> | Hr'].
    + rewrite list_lookup_insert_eq in HR'' by exact Hrlt.
      inversion HR''; subst R''. clear HR''.
      destruct (delete_NoDup_elem (kind_queue g R) idx e) as [Hnd Hmem];
        [destruct g; [apply (ro_get_nodup _ _ _ HRok) | apply (ro_put_nodup _ _ _ HRok)]
        | exact Hidx | ].
      constructor.
      * rewrite Hcap. apply (ro_capacity _ _ _ HRok).
      * rewrite Hcap. exact Hbound.
      * rewrite Hus, Hacq, Hrel, (ro_count _ _ _ HRok). rewrite Nat.eqb_refl.
        unfold kind_delta. destruct g; lia.
      * destruct g; simpl in *;
          [rewrite Hq; exact Hnd | rewrite Hq'; apply (ro_get_nodup _ _ _ HRok)].
      * destruct g; simpl in *;
          [rewrite Hq'; apply (ro_put_nodup _ _ _ HRok) | rewrite Hq; exact Hnd].
      * intros y Hy.
        assert (Hyold : y ∈ getQueue R /\ y <> e).
        { destruct g; simpl in *.
          - rewrite Hq in Hy. apply Hmem. exact Hy.
          - rewrite Hq' in Hy. split; [exact Hy | ].
            intros ->. destruct (ro_get _ _ _ HRok e Hy) as (_ & a' & p' & Hc & _).
            rewrite Hcls in Hc. discriminate. }
        destruct Hyold as [Hyin Hyne].
        destruct (ro_get _ _ _ HRok y Hyin) as (Hqy & a' & p' & Hc & Ha').
        split; [apply Hkeep; assumption | ].
        exists a', p'. rewrite Hother by exact Hyne. auto.
      * intros y Hy.
        assert (Hyold : y ∈ putQueue R /\ y <> e).
        { destruct g; simpl in *.
          - rewrite Hq' in Hy. split; [exact Hy | ].
            intros ->. destruct (ro_put _ _ _ HRok e Hy) as (_ & a' & p' & Hc & _).
            rewrite Hcls in Hc. discriminate.
          - rewrite Hq in Hy. apply Hmem. exact Hy. }
        destruct Hyold as [Hyin Hyne].
        destruct (ro_put _ _ _ HRok y Hyin) as (Hqy & a' & p' & Hc & Ha').
        split; [apply Hkeep; assumption | ].
        exists a', p'. rewrite Hother by exact Hyne. auto.
    + rewrite list_lookup_insert_ne in HR'' by congruence.
      pose proof (Hrs r' R'' HR'') as Hok'.
      assert (Hneq : (r =? r')%nat = false) by (apply Nat.eqb_neq; congruence).
      constructor.
      * apply (ro_capacity _ _ _ Hok').
      * apply (ro_bound _ _ _ Hok').
      * rewrite Hacq, Hrel, Hneq, (ro_count _ _ _ Hok'). destruct g; lia.
      * apply (ro_get_nodup _ _ _ Hok').
      * apply (ro_put_nodup _ _ _ Hok').
      * intros y Hy.
        destruct (ro_get _ _ _ Hok' y Hy) as (Hqy & a' & p' & Hc & Ha').
        assert (Hyne : y <> e).
        { intros ->. rewrite Hcls in Hc. destruct g; simpl in Hc; congruence. }
        split; [apply Hkeep; assumption | ].
        exists a', p'. rewrite Hother by exact Hyne. auto.
      * intros y Hy.
        destruct (ro_put _ _ _ Hok' y Hy) as (Hqy & a' & p' & Hc & Ha').
        assert (Hyne : y <> e).
        { intros ->. rewrite Hcls in Hc. destruct g; simpl in Hc; congruence. }
        split; [apply Hkeep; assumption | ].
        exists a', p'. rewrite Hother by exact Hyne. auto.
  - intros y Hy.
    assert (Hl : length (resources w') = length (resources w))
      by (rewrite Hres; apply length_insert).
    rewrite Hl.
    destruct (decide (y = e)) as [-> | Hyne].
    + exists r, a, p. split; [exact Hrlt | ].
      rewrite Hcls', Hcls. destruct g; simpl; auto.
    + rewrite Hother in * by exact Hyne. apply Htr. exact Hy.
Qed.

Lemma alter_insert {A} (f : A -> A) (l : list A) i x :
  l !! i = Some x -> alter f i l = <[i := f x]> l.
Proof.
  intros H. apply list_eq. intros j.
  destruct (decide (j = i)) as [-> | Hne].
  - rewrite list_lookup_alter_eq, list_lookup_insert_eq
      by (eapply lookup_lt_Some; eauto).
    rewrite H. reflexivity.
  - rewrite list_lookup_alter_ne, list_lookup_insert_ne by congruence.
    reflexivity.
Qed.

(** The triggered event that [succeed] leaves behind. *)
Lemma succeeded_event x y :
  y = set_value VNull (set_ok (Some true) x) \/
  y = set_scheduled true (set_value VNull (set_ok (Some true) x)) ->
  class y = class x /\ callbacks y = callbacks x /\
  is_PENDING (_value y) = false.
Proof. intros [-> | ->]; repeat split. Qed.

(** [_doGet] on a queued request: it is granted exactly when enough units
    are free; otherwise nothing changes. *)
Lemma _doGet_spec w r R e a p :
  resources w !! r = Some R ->
  class (ev w e) = IsGetResource r a p ->
  queued_ok w e ->
  ((capacity R - Z.of_nat (length (users R)) >=? a) = true ->
   exists w2, _doGet r e w = Ok true w2 /\
     length (events w2) = length (events w) /\
     (forall y, y <> e -> ev w2 y = ev w y) /\
     class (ev w2 e) = class (ev w e) /\
     callbacks (ev w2 e) = callbacks (ev w e) /\
     is_PENDING (_value (ev w2 e)) = false /\
     resources w2 = <[r := set_users (push_users a (users R)) R]> (resources w)) /\
  ((capacity R - Z.of_nat (length (users R)) >=? a) = false ->
   _doGet r e w = Ok false w).
Proof.
  intros HR Hcls [He Hp].
  unfold _doGet, bind, gets, ret. rewrite (res_lookup _ _ _ HR).
  unfold amount_of. rewrite Hcls. cbv zeta.
  split; intros Hav; rewrite Hav; [ | reflexivity ].
  unfold update_resource, modify.
  set (w1 := with_resources
               (alter (set_users (push_users a (users R))) r) w).
  destruct (succeed_pending w1 e VNull He Hp)
    as (w2 & Hs & Hl & Hr & _ & Ho & Hself).
  rewrite Hs. exists w2. split; [reflexivity | ].
  destruct (succeeded_event _ _ Hself) as (Hc & Hcb & Hv).
  split; [exact Hl | ]. split; [exact Ho | ].
  split; [rewrite Hc; exact Hcls | ]. split; [exact Hcb | ].
  split; [exact Hv | ].
  rewrite Hr. unfold w1. simpl. apply alter_insert. exact HR.
Qed.

Lemma _doPut_spec w r R e a p :
  resources w !! r = Some R ->
  class (ev w e) = IsPutResource r a p ->
  queued_ok w e ->
  ((Z.of_nat (length (users R)) >=? a) = true ->
   exists w2, _doPut r e w = Ok true w2 /\
     length (events w2) = length (events w) /\
     (forall y, y <> e -> ev w2 y = ev w y) /\
     class (ev w2 e) = class (ev w e) /\
     callbacks (ev w2 e) = callbacks (ev w e) /\
     is_PENDING (_value (ev w2 e)) = false /\
     resources w2 = <[r := set_users (pop_users a (users R)) R]> (resources w)) /\
  ((Z.of_nat (length (users R)) >=? a) = false ->
   _doPut r e w = Ok false w).
Proof.
  intros HR Hcls [He Hp].
  unfold _doPut, bind, gets, ret. rewrite (res_lookup _ _ _ HR).
  unfold amount_of. rewrite Hcls.
  split; intros Hav; rewrite Hav; [ | reflexivity ].
  unfold update_resource, modify.
  set (w1 := with_resources
               (alter (set_users (pop_users a (users R))) r) w).
  destruct (succeed_pending w1 e VNull He Hp)
    as (w2 & Hs & Hl & Hr & _ & Ho & Hself).
  rewrite Hs. exists w2. split; [reflexivity | ].
  destruct (succeeded_event _ _ Hself) as (Hc & Hcb & Hv).
  split; [exact Hl | ]. split; [exact Ho | ].
  split; [rewrite Hc; exact Hcls | ]. split; [exact Hcb | ].
  split; [exact Hv | ].
  rewrite Hr. unfold w1. simpl. apply alter_insert. exact HR.
Qed.

Lemma _triggerGet_loop_S fuel r idx w :
  _triggerGet_loop (S fuel) r idx w =
  match getQueue (res w r) !! idx with
  | None => Ok tt w
  | Some getEvent =>
      match _doGet r getEvent w with
      | Ok proceed w1 =>
          if triggered w1 getEvent then
            if negb proceed
            then Ok tt (with_resources
                          (alter (fun R => set_getQueue (delete idx (getQueue R)) R) r)
                          w1)
            else _triggerGet_loop fuel r idx
                   (with_resources
                      (alter (fun R => set_getQueue (delete idx (getQueue R)) R) r)
                      w1)
          else
            if negb proceed then Ok tt w1
            else _triggerGet_loop fuel r (S idx) w1
      | Throw x w1 => Throw x w1
      end
  end.
Proof.
  cbn [_triggerGet_loop]. unfold bind, gets, ret.
  destruct (getQueue (res w r) !! idx) as [e|]; [ | reflexivity ].
  destruct (_doGet r e w) as [proceed w1 | x w1]; [ | reflexivity ].
  destruct (triggered w1 e); destruct proceed; reflexivity.
Qed.

Lemma _triggerPut_loop_S fuel r idx w :
  _triggerPut_loop (S fuel) r idx w =
  match putQueue (res w r) !! idx with
  | None => Ok tt w
  | Some putEvent =>
      match _doPut r putEvent w with
      | Ok proceed w1 =>
          if triggered w1 putEvent then
            if negb proceed
            then Ok tt (with_resources
                          (alter (fun R => set_putQueue (delete idx (putQueue R)) R) r)
                          w1)
            else _triggerPut_loop fuel r idx
                   (with_resources
                      (alter (fun R => set_putQueue (delete idx (putQueue R)) R) r)
                      w1)
          else
            if negb proceed then Ok tt w1
            else _triggerPut_loop fuel r (S idx) w1
      | Throw x w1 => Throw x w1
      end
  end.
Proof.
  cbn [_triggerPut_loop]. unfold bind, gets, ret.
  destruct (putQueue (res w r) !! idx) as [e|]; [ | reflexivity ].
  destruct (_doPut r e w) as [proceed w1 | x w1]; [ | reflexivity ].
  destruct (triggered w1 e); destruct proceed; reflexivity.
Qed.

Lemma queue_resource_exists w r (q : Resource -> list EvId) idx e :
  q blank_resource = [] -> q (res w r) !! idx = Some e ->
  exists R, resources w !! r = Some R /\ q R !! idx = Some e.
Proof.
  intros Hblank Hq. destruct (resources w !! r) as [R|] eqn:HR.
  - exists R. rewrite (res_lookup _ _ _ HR) in Hq. auto.
  - rewrite (res_dangling _ _ HR), Hblank in Hq. discriminate.
Qed.

Lemma _triggerGet_loop_inv fuel : forall r idx w,
  res_inv w -> res_inv (world_of (_triggerGet_loop fuel r idx w)).
Proof.
  induction fuel as [|fuel IH]; intros r idx w Hinv; [exact Hinv | ].
  rewrite _triggerGet_loop_S.
  destruct (getQueue (res w r) !! idx) as [e|] eqn:Hq; [ | exact Hinv ].
  destruct (queue_resource_exists w r getQueue idx e eq_refl Hq)
    as (R & HR & Hidx).
  pose proof (ri_resources _ Hinv r R HR) as HRok.
  assert (Hein : e ∈ getQueue R) by (apply list_elem_of_lookup; eauto).
  destruct (ro_get _ _ _ HRok e Hein) as (Hqe & a & p & Hcls & Ha).
  destruct (_doGet_spec w r R e a p HR Hcls Hqe) as [Htrue Hfalse].
  destruct (capacity R - Z.of_nat (length (users R)) >=? a) eqn:Hav.
  - destruct (Htrue eq_refl) as (w2 & Hd & Hl & Ho & Hc & Hcb & Hv & Hres).
    rewrite Hd. unfold triggered. rewrite Hv. simpl. apply IH.
    apply Z.geb_le in Hav. pose proof (ro_bound _ _ _ HRok) as Hb.
    eapply (grant_keeps_inv true w _ r R
              (set_getQueue (delete idx (getQueue R))
                 (set_users (push_users a (users R)) R)) e a p idx);
      eauto; simpl.
    + rewrite Hres. rewrite (alter_insert _ _ _ (set_users (push_users a (users R)) R)).
      * rewrite list_insert_insert_eq. reflexivity.
      * apply list_lookup_insert_eq. eapply lookup_lt_Some; eauto.
    + rewrite length_push_users. lia.
    + rewrite length_push_users. lia.
  - rewrite (Hfalse eq_refl).
    destruct Hqe as [_ Hp]. unfold triggered. rewrite Hp. simpl. exact Hinv.
Qed.

Lemma _triggerPut_loop_inv fuel : forall r idx w,
  res_inv w -> res_inv (world_of (_triggerPut_loop fuel r idx w)).
Proof.
  induction fuel as [|fuel IH]; intros r idx w Hinv; [exact Hinv | ].
  rewrite _triggerPut_loop_S.
  destruct (putQueue (res w r) !! idx) as [e|] eqn:Hq; [ | exact Hinv ].
  destruct (queue_resource_exists w r putQueue idx e eq_refl Hq)
    as (R & HR & Hidx).
  pose proof (ri_resources _ Hinv r R HR) as HRok.
  assert (Hein : e ∈ putQueue R) by (apply list_elem_of_lookup; eauto).
  destruct (ro_put _ _ _ HRok e Hein) as (Hqe & a & p & Hcls & Ha).
  destruct (_doPut_spec w r R e a p HR Hcls Hqe) as [Htrue Hfalse].
  destruct (Z.of_nat (length (users R)) >=? a) eqn:Hav.
  - destruct (Htrue eq_refl) as (w2 & Hd & Hl & Ho & Hc & Hcb & Hv & Hres).
    rewrite Hd. unfold triggered. rewrite Hv. simpl. apply IH.
    apply Z.geb_le in Hav. pose proof (ro_bound _ _ _ HRok) as Hb.
    eapply (grant_keeps_inv false w _ r R
              (set_putQueue (delete idx (putQueue R))
                 (set_users (pop_users a (users R)) R)) e a p idx);
      eauto; simpl.
    + rewrite Hres. rewrite (alter_insert _ _ _ (set_users (pop_users a (users R)) R)).
      * rewrite list_insert_insert_eq. reflexivity.
      * apply list_lookup_insert_eq. eapply lookup_lt_Some; eauto.
    + rewrite length_pop_users. lia.
    + rewrite length_pop_users. lia.
  - rewrite (Hfalse eq_refl).
    destruct Hqe as [_ Hp]. unfold triggered. rewrite Hp. simpl. exact Hinv.
Qed.

Lemma _triggerGet_inv r w : res_inv w -> res_inv (world_of (_triggerGet r w)).
Proof. intros H. unfold _triggerGet, bind, gets. apply _triggerGet_loop_inv. exact H. Qed.

Lemma _triggerPut_inv r w : res_inv w -> res_inv (world_of (_triggerPut r w)).
Proof. intros H. unfold _triggerPut, bind, gets. apply _triggerPut_loop_inv. exact H. Qed.

Lemma res_inv_with_env f w : res_inv w -> res_inv (with_env f w).
Proof. intros [H1 H2 H3]. constructor; [exact H1 | | exact H3].
  intros r R HR. destruct (H2 r R HR). constructor; assumption.
Qed.

Lemma fan_res_inv fuel : forall e i w r,
  res_inv w -> fan fuel e i w = Some r -> res_inv (world_of r).
Proof.
  induction fuel as [|fuel IH]; intros e i w r Hinv Hfan; [discriminate | ].
  simpl in Hfan.
  destruct (ri_callbacks _ Hinv e) as (cbs & Hcb & Htrig).
  rewrite Hcb in Hfan.
  destruct (cbs !! i) as [cb|] eqn:Hi; [ | inversion Hfan; exact Hinv ].
  assert (Hcbt : is_trigger cb = true).
  { rewrite forallb_forall in Htrig. apply Htrig.
    apply list_elem_of_In. apply list_elem_of_lookup. eauto. }
  assert (Hcall : res_inv (world_of (call_callback cb e w))).
  { destruct cb; try discriminate; simpl;
      [apply _triggerPut_inv | apply _triggerGet_inv]; exact Hinv. }
  destruct (call_callback cb e w) as [u w' | x w']; simpl in Hcall.
  - eapply IH; eauto.
  - inversion Hfan. exact Hcall.
Qed.

Lemma step_res_inv fuel w r :
  res_inv w -> step fuel w = Some r -> res_inv (world_of r).
Proof.
  intros Hinv Hstep. unfold step in Hstep.
  destruct (Heap.size (_queue (env w)) =? 0)%nat;
    [inversion Hstep; exact Hinv | ].
  destruct (Heap.pop queue_compare (_queue (env w))) as [[x|] q];
    [ | inversion Hstep; exact Hinv ].
  assert (Hw1 : res_inv (advance x q w)) by (apply res_inv_with_env; exact Hinv).
  destruct (callbacks (ev (advance x q w) (event x)));
    [ | inversion Hstep; exact Hw1 ].
  destruct (fan fuel (event x) 0 (advance x q w)) as [[u w2 | e w2]|] eqn:Hfan;
    [ | | discriminate ].
  - pose proof (fan_res_inv _ _ _ _ _ Hw1 Hfan) as Hw2. simpl in Hw2.
    destruct (negb (truthy (_ok (ev w2 (event x)))) &&
              negb (_defused (ev w2 (event x))));
      inversion Hstep; exact Hw2.
  - pose proof (fan_res_inv _ _ _ _ _ Hw1 Hfan) as Hw2.
    inversion Hstep. exact Hw2.
Qed.

Lemma ev_alloc w x y :
  ev (with_events (fun l => l ++ [x]) w) y =
  if decide (y = length (events w)) then x else ev w y.
Proof.
  unfold ev, with_events in *. simpl.
  destruct (decide (y = length (events w))) as [-> | Hne].
  - rewrite list_lookup_middle by reflexivity. reflexivity.
  - destruct (decide (y < length (events w))%nat).
    + rewrite lookup_app_l by assumption. reflexivity.
    + rewrite !lookup_ge_None_2; [reflexivity | lia | ].
      rewrite length_app. simpl. lia.
Qed.

Lemma acquired_alloc w x r :
  acquired (with_events (fun l => l ++ [x]) w) r = acquired w r + acquired_of r x.
Proof. unfold acquired. simpl. rewrite map_app, sumZ_app. simpl. lia. Qed.

Lemma released_alloc w x r :
  released (with_events (fun l => l ++ [x]) w) r = released w r + released_of r x.
Proof. unfold released. simpl. rewrite map_app, sumZ_app. simpl. lia. Qed.

(** Allocating a pending event without callbacks. *)
Lemma alloc_keeps_inv w cls :
  res_inv w ->
  res_inv (with_events
             (fun l => l ++ [mkEvent (Some []) None false PENDING false None [] 0 cls])
             w).
Proof.
  intros [Hcb Hrs Htr].
  set (x := mkEvent (Some []) None false PENDING false None [] 0 cls).
  assert (Hold : forall y, (y < length (events w))%nat ->
            ev (with_events (fun l => l ++ [x]) w) y = ev w y).
  { intros y Hy. rewrite ev_alloc. rewrite decide_False by lia. reflexivity. }
  assert (Hacq : forall r, acquired_of r x = 0)
    by (intros r; unfold acquired_of; simpl; destruct cls; try reflexivity;
        rewrite andb_false_r; reflexivity).
  assert (Hrel : forall r, released_of r x = 0)
    by (intros r; unfold released_of; simpl; destruct cls; try reflexivity;
        rewrite andb_false_r; reflexivity).
  assert (Hq : forall y, queued_ok w y ->
            queued_ok (with_events (fun l => l ++ [x]) w) y).
  { intros y [Hy Hp]. split.
    - simpl. rewrite length_app. simpl. lia.
    - rewrite Hold by exact Hy. exact Hp. }
  constructor.
  - intros y. rewrite ev_alloc. case_decide; [ | apply Hcb ].
    exists []. split; reflexivity.
  - intros r R HR. simpl in HR. destruct (Hrs r R HR) as [H1 H2 H3 H4 H5 H6 H7].
    constructor; auto.
    + rewrite acquired_alloc, released_alloc, Hacq, Hrel. lia.
    + intros y Hy. destruct (H6 y Hy) as (Hqy & a & p & Hc & Ha).
      split; [apply Hq; exact Hqy | ]. exists a, p.
      rewrite Hold by (apply Hqy). auto.
    + intros y Hy. destruct (H7 y Hy) as (Hqy & a & p & Hc & Ha).
      split; [apply Hq; exact Hqy | ]. exists a, p.
      rewrite Hold by (apply Hqy). auto.
  - intros y. rewrite ev_alloc. case_decide; [discriminate | apply Htr].
Qed.

Lemma map_alter_same {A B} (f : A -> B) (g : A -> A) (l : list A) i :
  (forall x, f (g x) = f x) -> map f (alter g i l) = map f l.
Proof.
  intros H. revert i. induction l as [|a l IH]; intros [|i]; simpl;
    try reflexivity.
  - rewrite H. reflexivity.
  - f_equal. apply IH.
Qed.

Lemma ev_alter f w e y :
  ev (with_events (alter f e) w) y = ev w y \/
  ev (with_events (alter f e) w) y = f (ev w y).
Proof.
  destruct (decide (y = e)) as [-> | Hne].
  - destruct (decide (e < length (events w))%nat).
    + right. apply ev_alter_eq. assumption.
    + left. unfold ev, with_events in *. simpl.
      rewrite !lookup_ge_None_2; [reflexivity | lia | rewrite length_alter; lia].
  - left. apply ev_alter_ne. congruence.
Qed.

(** Pushing a callback that is a resource trigger. *)
Lemma set_callbacks_keeps_inv w e l cb :
  res_inv w -> callbacks (ev w e) = Some l -> is_trigger cb = true ->
  res_inv (with_events (alter (set_callbacks (Some (l ++ [cb]))) e) w).
Proof.
  intros [Hcb Hrs Htr] Hl Hcbt.
  set (w' := with_events (alter (set_callbacks (Some (l ++ [cb]))) e) w).
  assert (Hsame : forall y,
            class (ev w' y) = class (ev w y) /\
            _value (ev w' y) = _value (ev w y)).
  { intros y. unfold w'.
    destruct (ev_alter (set_callbacks (Some (l ++ [cb]))) w e y)
      as [-> | ->]; split; reflexivity. }
  assert (Hacq : forall r, acquired w' r = acquired w r).
  { intros r. unfold acquired, w'. simpl. f_equal. apply map_alter_same.
    intros x. reflexivity. }
  assert (Hrel : forall r, released w' r = released w r).
  { intros r. unfold released, w'. simpl. f_equal. apply map_alter_same.
    intros x. reflexivity. }
  assert (Hq : forall y, queued_ok w y -> queued_ok w' y).
  { intros y [Hy Hp]. split.
    - unfold w'. rewrite length_events_alter. exact Hy.
    - destruct (Hsame y) as [_ ->]. exact Hp. }
  constructor.
  - intros y. destruct (decide (y = e /\ (e < length (events w))%nat))
      as [[-> He] | Hne].
    + unfold w'. rewrite ev_alter_eq by exact He. simpl.
      exists (l ++ [cb]). split; [reflexivity | ].
      destruct (Hcb e) as (cbs & Hc & Ht). rewrite Hl in Hc. inversion Hc; subst.
      rewrite forallb_app, Ht. simpl. rewrite Hcbt. reflexivity.
    + assert (Hev : ev w' y = ev w y).
      { destruct (decide (y = e)) as [-> | Hy].
        - unfold ev, w', with_events in *. simpl.
          rewrite !lookup_ge_None_2; [reflexivity | lia | rewrite length_alter; lia].
        - apply ev_alter_ne. congruence. }
      rewrite Hev. apply Hcb.
  - intros r R HR. destruct (Hrs r R HR) as [H1 H2 H3 H4 H5 H6 H7].
    constructor; auto.
    + rewrite Hacq, Hrel. exact H3.
    + intros y Hy. destruct (H6 y Hy) as (Hqy & a & p & Hc & Ha).
      split; [apply Hq; exact Hqy | ]. exists a, p.
      destruct (Hsame y) as [-> _]. auto.
    + intros y Hy. destruct (H7 y Hy) as (Hqy & a & p & Hc & Ha).
      split; [apply Hq; exact Hqy | ]. exists a, p.
      destruct (Hsame y) as [-> _]. auto.
  - intros y Hy. destruct (Hsame y) as [Hc Hv]. rewrite Hv in Hy.
    rewrite Hc. apply Htr. exact Hy.
Qed.

(** Entering a pending request in the queue of its resource. *)
Lemma push_queue_keeps_inv g w r self a p :
  res_inv w -> queued_ok w self ->
  class (ev w self) = kind_class g r a p -> 0 < a ->
  (forall R, resources w !! r = Some R -> self ∉ kind_queue g R) ->
  res_inv (with_resources (alter (kind_push g self) r) w).
Proof.
  intros [Hcb Hrs Htr] Hself Hcls Ha Hfresh.
  constructor.
  - exact Hcb.
  - intros r' R' HR'. simpl in HR'.
    destruct (decide (r' = r)) as [-> | Hr'].
    + rewrite list_lookup_alter_eq in HR'.
      destruct (resources w !! r) as [R|] eqn:HR; [ | discriminate ].
      simpl in HR'. inversion HR'; subst R'. clear HR'.
      destruct (Hrs r R HR) as [H1 H2 H3 H4 H5 H6 H7].
      pose proof (Hfresh R eq_refl) as Hnin.
      destruct g; simpl in *; constructor; simpl; auto.
      * apply NoDup_app. repeat split; auto.
        { intros y Hy Hy'. apply list_elem_of_singleton in Hy'. subst. contradiction. }
        { apply NoDup_singleton. }
      * intros y Hy. apply elem_of_app in Hy.
        destruct Hy as [Hy | Hy]; [exact (H6 y Hy) | ].
        apply list_elem_of_singleton in Hy. subst y. split; eauto.
      * apply NoDup_app. repeat split; auto.
        { intros y Hy Hy'. apply list_elem_of_singleton in Hy'. subst. contradiction. }
        { apply NoDup_singleton. }
      * intros y Hy. apply elem_of_app in Hy.
        destruct Hy as [Hy | Hy]; [exact (H7 y Hy) | ].
        apply list_elem_of_singleton in Hy. subst y. split; eauto.
    + rewrite list_lookup_alter_ne in HR' by congruence.
      destruct (Hrs r' R' HR'). constructor; auto.
  - intros y Hy. simpl. rewrite length_alter. apply Htr. exact Hy.
Qed.

Lemma new_request_keeps_inv g w r a :
  res_inv w -> 0 < a ->
  res_inv
    (with_events
       (alter (set_callbacks
                 (Some ([] ++ [kind_callback g r])))
          (length (events w)))
       (with_resources (alter (kind_push g (length (events w))) r)
          (with_events
             (fun l => l ++
                [mkEvent (Some []) None false PENDING false None [] 0
                   (kind_class g r a (activeProcess (env w)))])
             w))).
Proof.
  intros Hinv Ha.
  set (x := mkEvent (Some []) None false PENDING false None [] 0
              (kind_class g r a (activeProcess (env w)))).
  set (w1 := with_events (fun l => l ++ [x]) w).
  assert (Hx : ev w1 (length (events w)) = x).
  { unfold w1. rewrite ev_alloc. rewrite decide_True by reflexivity. reflexivity. }
  assert (H1 : res_inv w1) by (apply alloc_keeps_inv; exact Hinv).
  apply set_callbacks_keeps_inv.
  - apply (push_queue_keeps_inv g w1 r (length (events w)) a
             (activeProcess (env w))); auto.
    + split; [unfold w1; simpl; rewrite length_app; simpl; lia | ].
      rewrite Hx. reflexivity.
    + rewrite Hx. reflexivity.
    + intros R HR Hin. change (resources w !! r = Some R) in HR.
      pose proof (ri_resources _ Hinv r R HR) as Hok.
      destruct g; simpl in Hin;
        [apply (ro_get _ _ _ Hok) in Hin | apply (ro_put _ _ _ Hok) in Hin];
        destruct Hin as [[Hlt _] _]; lia.
  - change (callbacks (ev w1 (length (events w))) = Some []).
    rewrite Hx. reflexivity.
  - destruct g; reflexivity.
Qed.

Lemma GetResource_new_inv r a w :
  res_inv w -> res_inv (world_of (GetResource_new r a w)).
Proof.
  intros Hinv. unfold GetResource_new, Event_new, bind, gets, alloc_event, when, ret.
  simpl. destruct (a <=? 0) eqn:Ha.
  - simpl. apply alloc_keeps_inv. exact Hinv.
  - apply Z.leb_gt in Ha.
    unfold update_resource, push_callback, bind, gets, modify, update_event.
    simpl.
    pose proof (new_request_keeps_inv true w r a Hinv Ha) as H3.
    simpl in H3.
    set (w3 := with_events _ _) in H3.
    assert (Hcb : callbacks
              (ev (with_resources
                     (alter (fun R => set_getQueue (getQueue R ++ [length (events w)]) R) r)
                     (with_events (fun l => l ++
                        [mkEvent (Some []) None false PENDING false None [] 0
                           (IsGetResource r a (activeProcess (env w)))]) w))
                  (length (events w))) = Some []).
    { unfold ev. simpl. rewrite list_lookup_middle by reflexivity.
      reflexivity. }
    rewrite Hcb.
    change (res_inv (world_of
              (bind (_triggerPut r)
                 (fun _ => bind (_triggerGet r)
                             (fun _ => ret (length (events w)))) w3))).
    unfold bind, ret.
    pose proof (_triggerPut_inv r w3 H3) as H4.
    destruct (_triggerPut r w3) as [u w4 | e w4]; simpl in *; [ | exact H4 ].
    pose proof (_triggerGet_inv r w4 H4) as H5.
    destruct (_triggerGet r w4) as [u' w5 | e w5]; simpl in *; exact H5.
Qed.

Lemma PutResource_new_inv r a w :
  res_inv w -> res_inv (world_of (PutResource_new r a w)).
Proof.
  intros Hinv. unfold PutResource_new, Event_new, bind, gets, alloc_event, when, ret.
  simpl. destruct (a <=? 0) eqn:Ha.
  - simpl. apply alloc_keeps_inv. exact Hinv.
  - apply Z.leb_gt in Ha.
    unfold update_resource, push_callback, bind, gets, modify, update_event.
    simpl.
    pose proof (new_request_keeps_inv false w r a Hinv Ha) as H3.
    simpl in H3.
    set (w3 := with_events _ _) in H3.
    assert (Hcb : callbacks
              (ev (with_resources
                     (alter (fun R => set_putQueue (putQueue R ++ [length (events w)]) R) r)
                     (with_events (fun l => l ++
                        [mkEvent (Some []) None false PENDING false None [] 0
                           (IsPutResource r a (activeProcess (env w)))]) w))
                  (length (events w))) = Some []).
    { unfold ev. simpl. rewrite list_lookup_middle by reflexivity.
      reflexivity. }
    rewrite Hcb.
    change (res_inv (world_of
              (bind (_triggerPut r) (fun _ => ret (length (events w))) w3))).
    unfold bind, ret.
    pose proof (_triggerPut_inv r w3 H3) as H4.
    destruct (_triggerPut r w3) as [u w4 | e w4]; simpl in *; exact H4.
Qed.

Lemma Resource_new_inv c w :
  res_inv w -> res_inv (world_of (Resource_new c w)).
Proof.
  intros Hinv. unfold Resource_new.
  destruct (c <=? 0) eqn:Hc; [exact Hinv | ].
  apply Z.leb_gt in Hc. simpl.
  destruct Hinv as [Hcb Hrs Htr].
  assert (Hzero : forall x, x ∈ events w ->
            acquired_of (length (resources w)) x = 0 /\
            released_of (length (resources w)) x = 0).
  { intros x Hx. apply list_elem_of_lookup in Hx. destruct Hx as [i Hi].
    assert (Hev : ev w i = x) by (unfold ev; rewrite Hi; reflexivity).
    specialize (Htr i). rewrite Hev in Htr.
    unfold acquired_of, released_of.
    destruct (is_PENDING (_value x)) eqn:Hp.
    - destruct (class x); rewrite ?andb_false_r; auto.
    - destruct (Htr eq_refl) as (r0 & a0 & p0 & Hlt & Hcls).
      destruct Hcls as [-> | ->]; simpl;
        (replace (r0 =? length (resources w))%nat with false
           by (symmetry; apply Nat.eqb_neq; lia)); auto. }
  constructor.
  - exact Hcb.
  - intros r R HR. simpl in HR.
    destruct (decide (r < length (resources w))%nat) as [Hr | Hr].
    + rewrite lookup_app_l in HR by exact Hr.
      destruct (Hrs r R HR). constructor; auto.
    + apply lookup_lt_Some in HR as Hlt. rewrite length_app in Hlt.
      simpl in Hlt. assert (r = length (resources w)) by lia. subst r.
      rewrite list_lookup_middle in HR by reflexivity.
      inversion HR; subst R. clear HR.
      constructor; simpl; try lia; try apply NoDup_nil_2.
      * change (0 = acquired w (length (resources w)) -
                    released w (length (resources w))).
        unfold acquired, released.
        rewrite !sumZ_map_zero; [reflexivity | | ]; intros x Hx; apply Hzero; exact Hx.
      * intros y Hy. inversion Hy.
      * intros y Hy. inversion Hy.
  - intros y Hy. simpl. rewrite length_app. simpl.
    destruct (Htr y Hy) as (r0 & a0 & p0 & Hlt & Hcls).
    exists r0, a0, p0. split; [lia | exact Hcls].
Qed.

Lemma res_inv_new t : res_inv (World_new t).
Proof.
  constructor.
  - intros e. exists []. split; reflexivity.
  - intros r R HR. discriminate.
  - intros e He. discriminate.
Qed.

Lemma remove_first_sublist e q : remove_first e q `sublist_of` q.
Proof.
  induction q as [|x q IH]; simpl; [constructor | ].
  destruct (x =? e)%nat; [apply sublist_cons; reflexivity | ].
  apply sublist_skip. exact IH.
Qed.

(** Taking requests out of a queue. *)
Lemma shrink_queue_keeps_inv g w r (f : Resource -> Resource) :
  res_inv w ->
  (forall R, capacity (f R) = capacity R /\
             users (f R) = users R /\
             kind_queue g (f R) `sublist_of` kind_queue g R /\
             kind_queue (negb g) (f R) = kind_queue (negb g) R) ->
  res_inv (with_resources (alter f r) w).
Proof.
  intros [Hcb Hrs Htr] Hf.
  constructor.
  - exact Hcb.
  - intros r' R' HR'. simpl in HR'.
    destruct (decide (r' = r)) as [-> | Hr'].
    + rewrite list_lookup_alter_eq in HR'.
      destruct (resources w !! r) as [R|] eqn:HR; [ | discriminate ].
      simpl in HR'. inversion HR'; subst R'. clear HR'.
      destruct (Hrs r R HR) as [H1 H2 H3 H4 H5 H6 H7].
      destruct (Hf R) as (Hc & Hu & Hsub & Hsame).
      constructor.
      * rewrite Hc. exact H1.
      * rewrite Hc, Hu. exact H2.
      * rewrite Hu. exact H3.
      * destruct g; simpl in *;
          [exact (sublist_NoDup _ _ H4 Hsub) | rewrite Hsame; exact H4].
      * destruct g; simpl in *;
          [rewrite Hsame; exact H5 | exact (sublist_NoDup _ _ H5 Hsub)].
      * intros y Hy. apply (H6 y).
        destruct g; simpl in *;
          [exact (elem_of_sublist _ _ _ Hy Hsub) | rewrite <- Hsame; exact Hy].
      * intros y Hy. apply (H7 y).
        destruct g; simpl in *;
          [rewrite <- Hsame; exact Hy | exact (elem_of_sublist _ _ _ Hy Hsub)].
    + rewrite list_lookup_alter_ne in HR' by congruence.
      destruct (Hrs r' R' HR'). constructor; auto.
  - intros y Hy. simpl. rewrite length_alter. apply Htr. exact Hy.
Qed.

Lemma cancel_inv e w : res_inv w -> res_inv (world_of (cancel e w)).
Proof.
  intros Hinv. unfold cancel, bind, gets, ret.
  destruct (triggered w e); [exact Hinv | ].
  destruct (class (ev w e)) as [ | | | | r a p | r a p ]; try exact Hinv.
  - apply (shrink_queue_keeps_inv true); [exact Hinv | ].
    intros R. simpl. repeat split; auto using remove_first_sublist.
  - apply (shrink_queue_keeps_inv false); [exact Hinv | ].
    intros R. simpl. repeat split; auto using remove_first_sublist.
Qed.

Lemma call_res_inv fuel a w r :
  resource_call a -> res_inv w -> call fuel a w = Some r ->
  res_inv (world_of r).
Proof.
  intros Ha Hinv Hcall.
  destruct a
    as [? ?|? ?|? ?|? ?|? ?|? ?|? ? ?|? ?|?|? ?|c|r0 am|r0 am|e|r0|r0| |?];
    simpl in Ha; try contradiction; simpl in Hcall.
  - unfold lift in Hcall.
    pose proof (Resource_new_inv c w Hinv) as H.
    destruct (Resource_new c w); inversion Hcall; exact H.
  - unfold lift, get in Hcall.
    pose proof (GetResource_new_inv r0 am w Hinv) as H.
    destruct (GetResource_new r0 am w); inversion Hcall; exact H.
  - unfold lift, put in Hcall.
    pose proof (PutResource_new_inv r0 am w Hinv) as H.
    destruct (PutResource_new r0 am w); inversion Hcall; exact H.
  - unfold lift in Hcall.
    pose proof (cancel_inv e w Hinv) as H.
    destruct (cancel e w); inversion Hcall; exact H.
  - unfold lift in Hcall.
    pose proof (_triggerGet_inv r0 w Hinv) as H.
    destruct (_triggerGet r0 w); inversion Hcall; exact H.
  - unfold lift in Hcall.
    pose proof (_triggerPut_inv r0 w Hinv) as H.
    destruct (_triggerPut r0 w); inversion Hcall; exact H.
  - eapply step_res_inv; eauto.
Qed.

Lemma reachable_res_inv t w : reachable_by resource_call t w -> res_inv w.
Proof.
  induction 1 as [ | w fuel a r Hr IH Ha Hcall ].
  - apply res_inv_new.
  - eapply call_res_inv; eauto.
Qed.

(** ** Amounts that are not integers *)

Lemma turns_inject_Z a : Fractional.turns (inject_Z a) = Z.to_nat a.
Proof. unfold Fractional.turns. rewrite Qceiling_Z. reflexivity. Qed.

Lemma Qle_bool_inject_Z a b : Qle_bool (inject_Z a) (inject_Z b) = (a <=? b).
Proof.
  destruct (a <=? b) eqn:E.
  - apply Qle_bool_iff. rewrite <- Zle_Qle. apply Z.leb_le. exact E.
  - destruct (Qle_bool (inject_Z a) (inject_Z b)) eqn:E'; [ | reflexivity ].
    apply Qle_bool_iff in E'. rewrite <- Zle_Qle in E'.
    apply Z.leb_le in E'. congruence.
Qed.

Lemma Qle_bool_inject_Z_sub a c n :
  Qle_bool (inject_Z a) (inject_Z c - inject_Z n) = (c - n >=? a).
Proof.
  unfold Qminus. rewrite <- inject_Z_opp, <- inject_Z_plus.
  rewrite Qle_bool_inject_Z, Z.geb_leb. reflexivity.
Qed.

(** On integers the rational model is the embedding's. *)
Lemma Fractional_doGet_integer c a us :
  Fractional._doGet (inject_Z a) (Fractional.mk (inject_Z c) us) =
  if c - Z.of_nat (length us) >=? a
  then (true, Fractional.mk (inject_Z c) (push_users a us))
  else (false, Fractional.mk (inject_Z c) us).
Proof.
  unfold Fractional._doGet. cbn [Fractional.capacity Fractional.users].
  rewrite Qle_bool_inject_Z_sub, turns_inject_Z. reflexivity.
Qed.

Lemma Fractional_doPut_integer c a us :
  Fractional._doPut (inject_Z a) (Fractional.mk c us) =
  if Z.of_nat (length us) >=? a
  then (true, Fractional.mk c (pop_users a us))
  else (false, Fractional.mk c us).
Proof.
  unfold Fractional._doPut. cbn [Fractional.capacity Fractional.users].
  rewrite Qle_bool_inject_Z, turns_inject_Z, Z.geb_leb. reflexivity.
Qed.

Lemma length_iter_push n (us : list Z) :
  length (Nat.iter n (fun u => u ++ [1]) us) = (length us + n)%nat.
Proof.
  induction n as [|n IH]; simpl; [lia | ].
  rewrite length_app, IH. simpl. lia.
Qed.

Lemma length_iter_pop n (us : list Z) :
  length (Nat.iter n (@removelast Z) us) = (length us - n)%nat.
Proof.
  induction n as [|n IH]; simpl; [lia | ].
  destruct (Nat.iter n (@removelast Z) us) as [|x l] using rev_ind.
  - simpl in *. lia.
  - rewrite removelast_last. rewrite length_app in IH. simpl in IH. lia.
Qed.

(** A granted request of any amount adds the amount rounded up. *)
Lemma Fractional_doGet_granted amount R R' :
  Fractional._doGet amount R = (true, R') ->
  (amount <= Fractional.capacity R -
             inject_Z (Z.of_nat (length (Fractional.users R))))%Q /\
  Fractional.capacity R' = Fractional.capacity R /\
  length (Fractional.users R') =
    (length (Fractional.users R) + Z.to_nat (Qceiling amount))%nat.
Proof.
  unfold Fractional._doGet.
  destruct (Qle_bool amount _) eqn:E; [ | discriminate ].
  intros H. inversion H; subst R'. clear H. simpl.
  split; [apply Qle_bool_iff; exact E | ]. split; [reflexivity | ].
  apply length_iter_push.
Qed.

Lemma Fractional_doPut_granted amount R R' :
  Fractional._doPut amount R = (true, R') ->
  (amount <= inject_Z (Z.of_nat (length (Fractional.users R))))%Q /\
  Fractional.capacity R' = Fractional.capacity R /\
  length (Fractional.users R') =
    (length (Fractional.users R) - Z.to_nat (Qceiling amount))%nat.
Proof.
  unfold Fractional._doPut.
  destruct (Qle_bool amount _) eqn:E; [ | discriminate ].
  intros H. inversion H; subst R'. clear H. simpl.
  split; [apply Qle_bool_iff; exact E | ]. split; [reflexivity | ].
  apply length_iter_pop.
Qed.

(** C5. For capacities and amounts that are integers: in every state of a
    program that creates resources, gets, puts, cancels and steps, every
    resource has a capacity above 0 and a user count that is the sum of
    the amounts of its triggered get events minus that of its triggered put
    events, and that lies between 0 and the capacity.  [_doGet] triggers a
    pending event only when the free capacity is at least its amount,
    [_doPut] only when the user count is at least its amount.  For every
    amount, integer or not: a [_doGet] that grants has found the amount
    within the free capacity and adds the amount rounded up to the number
    of users; a [_doPut] that grants has found the amount within the
    number of users and takes the amount rounded up away; on integers these
    are the tests and the loops of the embedding. *)
Theorem resource_accounting :
  (forall t w r R, reachable_by resource_call t w ->
     resources w !! r = Some R ->
     0 < capacity R /\
     0 <= user_count w r <= capacity R /\
     user_count w r = acquired w r - released w r) /\
  (forall w r e, triggered w e = false ->
     triggered (world_of (_doGet r e w)) e = true ->
     exists a, amount_of w e = Some a /\
               a <= capacity (res w r) - user_count w r) /\
  (forall w r e, triggered w e = false ->
     triggered (world_of (_doPut r e w)) e = true ->
     exists a, amount_of w e = Some a /\ a <= user_count w r) /\
  (forall amount F F', Fractional._doGet amount F = (true, F') ->
     (amount <= Fractional.capacity F -
                inject_Z (Z.of_nat (length (Fractional.users F))))%Q /\
     Fractional.capacity F' = Fractional.capacity F /\
     length (Fractional.users F') =
       (length (Fractional.users F) + Z.to_nat (Qceiling amount))%nat) /\
  (forall amount F F', Fractional._doPut amount F = (true, F') ->
     (amount <= inject_Z (Z.of_nat (length (Fractional.users F))))%Q /\
     Fractional.capacity F' = Fractional.capacity F /\
     length (Fractional.users F') =
       (length (Fractional.users F) - Z.to_nat (Qceiling amount))%nat) /\
  (forall c a us,
     Fractional._doGet (inject_Z a) (Fractional.mk (inject_Z c) us) =
     if c - Z.of_nat (length us) >=? a
     then (true, Fractional.mk (inject_Z c) (push_users a us))
     else (false, Fractional.mk (inject_Z c) us)) /\
  (forall c a us,
     Fractional._doPut (inject_Z a) (Fractional.mk c us) =
     if Z.of_nat (length us) >=? a
     then (true, Fractional.mk c (pop_users a us))
     else (false, Fractional.mk c us)).
Proof.
  split; [ | split; [ | split; [ | split; [ | split; [ | split ]]]]].
  - intros t w r R Hreach HR.
    pose proof (reachable_res_inv _ _ Hreach) as Hinv.
    destruct (ri_resources _ Hinv r R HR) as [H1 H2 H3 _ _ _ _].
    unfold user_count. rewrite (res_lookup _ _ _ HR). repeat split; auto; lia.
  - intros w r e Hbefore Hafter. unfold _doGet, bind, gets, ret in Hafter.
    destruct (amount_of w e) as [a|]; [ | simpl in Hafter; congruence ].
    cbv zeta in Hafter.
    destruct (capacity (res w r) - Z.of_nat (length (users (res w r))) >=? a)
      eqn:Hav; [ | simpl in Hafter; congruence ].
    exists a. split; [reflexivity | ]. apply Z.geb_le in Hav.
    unfold user_count. lia.
  - intros w r e Hbefore Hafter. unfold _doPut, bind, gets, ret in Hafter.
    destruct (amount_of w e) as [a|]; [ | simpl in Hafter; congruence ].
    destruct (Z.of_nat (length (users (res w r))) >=? a)
      eqn:Hav; [ | simpl in Hafter; congruence ].
    exists a. split; [reflexivity | ]. apply Z.geb_le in Hav.
    unfold user_count. lia.
  - exact Fractional_doGet_granted.
  - exact Fractional_doPut_granted.
  - exact Fractional_doGet_integer.
  - exact Fractional_doPut_integer.
Qed.

(** The accounting at work on [contended]: three units acquired, one
    released, two in use, and the third request granted by the release. *)
Lemma resource_accounting_witness :
  (0 < capacity (res contended 0%nat) /\
   0 <= user_count contended 0%nat <= capacity (res contended 0%nat) /\
   user_count contended 0%nat =
     acquired contended 0%nat - released contended 0%nat) /\
  user_count contended 0%nat = 2 /\
  acquired contended 0%nat = 3 /\
  released contended 0%nat = 1 /\
  getQueue (res contended 0%nat) = [].
Proof.
  split.
  - apply (proj1 resource_accounting 0 contended 0%nat (res contended 0%nat)).
    + apply reachable_run_calls; [apply reach_new | ].
      repeat constructor.
    + reflexivity.
  - vm_compute. repeat split.
Defined.

(** C5 as stated fails on amounts that are not integers, which the
    constructors accept.  On [new Resource(env, 2)] a request of 1 and a
    release of 0.5 are both granted and leave no user, while the amount
    acquired minus the amount released is 0.5; on
    [new Resource(env, 1.5)] requests of 1 and of 0.5 are both granted
    and leave two users, above the capacity. *)
Lemma fractional_amounts_break_accounting :
  Fractional.new 2 = Some (Fractional.mk 2 []) /\
  Fractional.accepts 1 = true /\ Fractional.accepts (1 # 2) = true /\
  Fractional._doGet 1 (Fractional.mk 2 []) = (true, Fractional.mk 2 [1]) /\
  half_released = (true, Fractional.mk 2 []) /\
  ~ (inject_Z (Z.of_nat (length (Fractional.users (snd half_released)))) ==
     1 - (1 # 2))%Q /\
  Fractional.new (3 # 2) = Some (Fractional.mk (3 # 2) []) /\
  overfilled = (true, Fractional.mk (3 # 2) [1; 1]) /\
  (Fractional.capacity (snd overfilled) <
   inject_Z (Z.of_nat (length (Fractional.users (snd overfilled)))))%Q.
Proof.
  repeat split; try reflexivity; vm_compute; congruence.
Qed.

(** ** Fuel *)

Lemma succeed_resources e v w :
  resources (world_of (succeed e v w)) = resources w.
Proof.
  unfold succeed, bind, gets.
  destruct (negb (is_PENDING (_value (ev w e)))); [reflexivity | ].
  unfold update_event, modify, schedule_once, bind, gets, when. simpl.
  match goal with |- context [if ?b then _ else _] => destruct b end;
    reflexivity.
Qed.

Lemma res_set_users w r u r' :
  getQueue (res (with_resources (alter (set_users u) r) w) r') =
    getQueue (res w r') /\
  putQueue (res (with_resources (alter (set_users u) r) w) r') =
    putQueue (res w r').
Proof.
  unfold res. simpl. destruct (decide (r' = r)) as [-> | Hne].
  - rewrite list_lookup_alter_eq. destruct (resources w !! r); split; reflexivity.
  - rewrite list_lookup_alter_ne by congruence. split; reflexivity.
Qed.

(** [_doGet] and [_doPut] leave the queues as they are. *)
Lemma _doGet_queues r e w r' :
  getQueue (res (world_of (_doGet r e w)) r') = getQueue (res w r') /\
  putQueue (res (world_of (_doGet r e w)) r') = putQueue (res w r').
Proof.
  unfold _doGet, bind, gets, ret.
  destruct (amount_of w e) as [a|]; [ | split; reflexivity ].
  cbv zeta. match goal with |- context [if ?b then _ else _] => destruct b end;
    [ | split; reflexivity ].
  unfold update_resource, modify.
  set (w1 := with_resources _ w).
  pose proof (succeed_resources e VNull w1) as Hs.
  assert (Hres : forall x, res (world_of
            (match succeed e VNull w1 with
             | Ok _ w' => Ok true w'
             | Throw x0 w' => Throw x0 w'
             end)) x = res w1 x).
  { intros x. unfold res. destruct (succeed e VNull w1); simpl in *;
      rewrite Hs; reflexivity. }
  rewrite Hres. apply res_set_users.
Qed.

Lemma _doPut_queues r e w r' :
  getQueue (res (world_of (_doPut r e w)) r') = getQueue (res w r') /\
  putQueue (res (world_of (_doPut r e w)) r') = putQueue (res w r').
Proof.
  unfold _doPut, bind, gets, ret.
  destruct (amount_of w e) as [a|]; [ | split; reflexivity ].
  match goal with |- context [if ?b then _ else _] => destruct b end;
    [ | split; reflexivity ].
  unfold update_resource, modify.
  set (w1 := with_resources _ w).
  pose proof (succeed_resources e VNull w1) as Hs.
  assert (Hres : forall x, res (world_of
            (match succeed e VNull w1 with
             | Ok _ w' => Ok true w'
             | Throw x0 w' => Throw x0 w'
             end)) x = res w1 x).
  { intros x. unfold res. destruct (succeed e VNull w1); simpl in *;
      rewrite Hs; reflexivity. }
  rewrite Hres. apply res_set_users.
Qed.

Lemma length_getQueue_delete w r idx e :
  getQueue (res w r) !! idx = Some e ->
  S (length (getQueue
       (res (with_resources
               (alter (fun R => set_getQueue (delete idx (getQueue R)) R) r) w)
            r))) = length (getQueue (res w r)).
Proof.
  intros Hq. pose proof (lookup_lt_Some _ _ _ Hq) as Hlt.
  unfold res in *. simpl. rewrite list_lookup_alter_eq.
  destruct (resources w !! r) as [R|]; simpl in *; [ | lia ].
  rewrite length_delete by eauto. lia.
Qed.

Lemma length_putQueue_delete w r idx e :
  putQueue (res w r) !! idx = Some e ->
  S (length (putQueue
       (res (with_resources
               (alter (fun R => set_putQueue (delete idx (putQueue R)) R) r) w)
            r))) = length (putQueue (res w r)).
Proof.
  intros Hq. pose proof (lookup_lt_Some _ _ _ Hq) as Hlt.
  unfold res in *. simpl. rewrite list_lookup_alter_eq.
  destruct (resources w !! r) as [R|]; simpl in *; [ | lia ].
  rewrite length_delete by eauto. lia.
Qed.

(** The fuel that [_triggerGet] gives to its loop, the length of the
    queue, is never used up: more fuel gives the same result. *)
Lemma _triggerGet_loop_fuel fuel : forall k r idx w,
  (length (getQueue (res w r)) <= fuel + idx)%nat ->
  _triggerGet_loop (fuel + k) r idx w = _triggerGet_loop fuel r idx w.
Proof.
  induction fuel as [|fuel IH]; intros k r idx w Hlen.
  - destruct k; [reflexivity | ]. simpl Nat.add. rewrite _triggerGet_loop_S.
    rewrite lookup_ge_None_2 by lia. reflexivity.
  - change (S fuel + k)%nat with (S (fuel + k)). rewrite !_triggerGet_loop_S.
    destruct (getQueue (res w r) !! idx) as [e|] eqn:Hq; [ | reflexivity ].
    pose proof (proj1 (_doGet_queues r e w r)) as Hsame.
    destruct (_doGet r e w) as [proceed w1 | x w1]; [ | reflexivity ].
    simpl in Hsame. rewrite <- Hsame in Hq, Hlen.
    destruct (triggered w1 e); destruct proceed; simpl; try reflexivity.
    + apply IH. pose proof (length_getQueue_delete w1 r idx e Hq). lia.
    + apply IH. lia.
Qed.

Lemma _triggerPut_loop_fuel fuel : forall k r idx w,
  (length (putQueue (res w r)) <= fuel + idx)%nat ->
  _triggerPut_loop (fuel + k) r idx w = _triggerPut_loop fuel r idx w.
Proof.
  induction fuel as [|fuel IH]; intros k r idx w Hlen.
  - destruct k; [reflexivity | ]. simpl Nat.add. rewrite _triggerPut_loop_S.
    rewrite lookup_ge_None_2 by lia. reflexivity.
  - change (S fuel + k)%nat with (S (fuel + k)). rewrite !_triggerPut_loop_S.
    destruct (putQueue (res w r) !! idx) as [e|] eqn:Hq; [ | reflexivity ].
    pose proof (proj2 (_doPut_queues r e w r)) as Hsame.
    destruct (_doPut r e w) as [proceed w1 | x w1]; [ | reflexivity ].
    simpl in Hsame. rewrite <- Hsame in Hq, Hlen.
    destruct (triggered w1 e); destruct proceed; simpl; try reflexivity.
    + apply IH. pose proof (length_putQueue_delete w1 r idx e Hq). lia.
    + apply IH. lia.
Qed.

(** A result of [fan], [step] or [run] does not depend on the fuel that
    was left over. *)
Lemma fan_fuel fuel : forall k e i w r,
  fan fuel e i w = Some r -> fan (fuel + k) e i w = Some r.
Proof.
  induction fuel as [|fuel IH]; intros k e i w r H; [discriminate | ].
  simpl in *. destruct (callbacks (ev w e)) as [cbs|]; [ | exact H ].
  destruct (cbs !! i) as [cb|]; [ | exact H ].
  destruct (call_callback cb e w); [ | exact H ].
  apply IH. exact H.
Qed.

Lemma step_fuel fuel k w r :
  step fuel w = Some r -> step (fuel + k) w = Some r.
Proof.
  unfold step. intros H.
  destruct (Heap.size (_queue (env w)) =? 0)%nat; [exact H | ].
  destruct (Heap.pop queue_compare (_queue (env w))) as [[x|] q]; [ | exact H ].
  destruct (callbacks (ev (advance x q w) (event x))); [ | exact H ].
  destruct (fan fuel (event x) 0 (advance x q w)) as [r0|] eqn:Hfan;
    [ | discriminate ].
  rewrite (fan_fuel _ k _ _ _ _ Hfan). exact H.
Qed.

Lemma run_loop_fuel fuel k : forall n m w r,
  run_loop fuel n w = Some r -> run_loop (fuel + k) (n + m) w = Some r.
Proof.
  induction n as [|n IH]; intros m w r H; [discriminate | ].
  simpl in *. destruct (0 <? Heap.size (_queue (env w)))%nat; [ | exact H ].
  destruct (step fuel w) as [r0|] eqn:Hstep; [ | discriminate ].
  rewrite (step_fuel _ k _ _ Hstep).
  destruct r0; [apply IH; exact H | exact H].
Qed.

(* ===================================================================== *)
(** * Part III: further properties of the code *)
(* ===================================================================== *)

(** ** core/Heap.ts as a priority queue, for any comparator *)

(** X1. [push] keeps the heap order and adds exactly the pushed item. *)
Theorem heap_push_keeps_heap {T} (compare : T -> T -> Z) (item : T)
  (items : list T) :
  comparator_ok compare -> Heap.heap_ok compare items ->
  Heap.heap_ok compare (Heap.push compare item items) /\
  Heap.push compare item items ≡ₚ item :: items /\
  Heap.size (Heap.push compare item items) = S (Heap.size items).
Proof.
  intros (Hr & Ha & Ht) Hh.
  split; [apply (push_heap_ok compare Ha Ht); exact Hh | ].
  split; [apply push_perm | ].
  unfold Heap.size. rewrite (Permutation_length (push_perm compare item items)).
  reflexivity.
Qed.

Lemma heap_push_keeps_heap_witness :
  Heap.heap_ok Z.sub (Heap.push Z.sub 1 [2; 5; 3]) /\
  Heap.push Z.sub 1 [2; 5; 3] ≡ₚ 1 :: [2; 5; 3] /\
  Heap.size (Heap.push Z.sub 1 [2; 5; 3]) = S (Heap.size [2; 5; 3]).
Proof.
  apply (heap_push_keeps_heap Z.sub 1 [2; 5; 3]).
  - unfold comparator_ok, Heap.cle. repeat split; intros; lia.
  - intros [|[|[|[|i]]]] c p Hi Hc Hp; vm_compute in Hc, Hp;
      try discriminate; try lia; inversion Hc; inversion Hp; subst;
      unfold Heap.cle; lia.
Defined.

(** X2. [pop] on an empty heap returns [null]; on a heap that is not empty it
    returns the root, which precedes every element, and leaves a heap of the
    other elements. *)
Theorem heap_pop_takes_minimum {T} (compare : T -> T -> Z) (items : list T) :
  comparator_ok compare -> Heap.heap_ok compare items ->
  (items = [] -> Heap.pop compare items = (None, [])) /\
  (items <> [] ->
   exists top rest,
     Heap.pop compare items = (Some top, rest) /\
     Heap.peek items = Some top /\
     (forall x, x ∈ items -> Heap.cle compare top x) /\
     Heap.heap_ok compare rest /\
     items ≡ₚ top :: rest /\
     S (Heap.size rest) = Heap.size items).
Proof.
  intros (Hr & Ha & Ht) Hh. split.
  - intros ->. apply pop_nil.
  - intros Hne.
    destruct (pop_cons_inv compare items Hne) as (top & rest & Htop & Hpop).
    destruct (pop_spec compare Hr Ha Ht _ _ _ Hh Hpop) as (_ & Hh' & Hperm).
    exists top, rest. split; [exact Hpop | ]. split; [exact Htop | ].
    split; [exact (pop_minimal compare Hr Ha Ht _ _ _ Hh Hpop) | ].
    split; [exact Hh' | ]. split; [exact Hperm | ].
    unfold Heap.size. rewrite (Permutation_length Hperm). reflexivity.
Qed.

Lemma heap_pop_takes_minimum_witness :
  ([1; 2; 5; 3] = [] -> Heap.pop Z.sub [1; 2; 5; 3] = (None, [])) /\
  ([1; 2; 5; 3] <> [] ->
   exists top rest,
     Heap.pop Z.sub [1; 2; 5; 3] = (Some top, rest) /\
     Heap.peek [1; 2; 5; 3] = Some top /\
     (forall x, x ∈ [1; 2; 5; 3] -> Heap.cle Z.sub top x) /\
     Heap.heap_ok Z.sub rest /\
     [1; 2; 5; 3] ≡ₚ top :: rest /\
     S (Heap.size rest) = Heap.size [1; 2; 5; 3]).
Proof.
  apply (heap_pop_takes_minimum Z.sub [1; 2; 5; 3]).
  - unfold comparator_ok, Heap.cle. repeat split; intros; lia.
  - intros [|[|[|[|i]]]] c p Hi Hc Hp; vm_compute in Hc, Hp;
      try discriminate; try lia; inversion Hc; inversion Hp; subst;
      unfold Heap.cle; lia.
Defined.

Lemma push_all_heap_ok {T} (compare : T -> T -> Z) l : forall items,
  comparator_ok compare -> Heap.heap_ok compare items ->
  Heap.heap_ok compare (push_all compare l items) /\
  push_all compare l items ≡ₚ l ++ items.
Proof.
  induction l as [|x l IH]; intros items Hc Hh; simpl.
  - split; [exact Hh | reflexivity].
  - destruct Hc as (Hr & Ha & Ht).
    destruct (IH (Heap.push compare x items) (conj Hr (conj Ha Ht))
                (push_heap_ok compare Ha Ht x items Hh)) as [H1 H2].
    split; [exact H1 | ].
    rewrite H2, (push_perm compare x items).
    symmetry. apply Permutation_middle.
Qed.

Lemma pop_all_sorted {T} (compare : T -> T -> Z) n : forall items,
  comparator_ok compare -> Heap.heap_ok compare items ->
  (length items <= n)%nat ->
  pop_all compare n items ≡ₚ items /\
  StronglySorted (Heap.cle compare) (pop_all compare n items).
Proof.
  induction n as [|n IH]; intros items Hc Hh Hlen.
  - destruct items; [ | simpl in Hlen; lia ]. simpl. split; constructor.
  - simpl. destruct (decide (items = [])) as [-> | Hne].
    { rewrite pop_nil. split; constructor. }
    destruct (pop_cons_inv compare items Hne) as (x & rest & _ & Hpop).
    rewrite Hpop. pose proof Hc as (Hr & Ha & Ht).
    destruct (pop_spec compare Hr Ha Ht _ _ _ Hh Hpop) as (_ & Hh' & Hperm).
    assert (Hlen' : (length rest <= n)%nat).
    { apply Permutation_length in Hperm. simpl in Hperm. lia. }
    destruct (IH rest Hc Hh' Hlen') as [Hp Hs].
    split; [rewrite Hp, Hperm; reflexivity | ].
    constructor; [exact Hs | ].
    apply Forall_forall. intros y Hy. rewrite Hp in Hy.
    apply (pop_minimal compare Hr Ha Ht _ _ _ Hh Hpop).
    rewrite Hperm. apply elem_of_cons. auto.
Qed.

(** X3. Pushing the elements of a list on an empty heap and popping until it is
    empty gives the elements back in ascending order. *)
Theorem heap_sort_sorts {T} (compare : T -> T -> Z) (l : list T) :
  comparator_ok compare ->
  heap_sort compare l ≡ₚ l /\
  StronglySorted (Heap.cle compare) (heap_sort compare l).
Proof.
  intros Hc. unfold heap_sort.
  destruct (push_all_heap_ok compare l [] Hc (heap_ok_nil compare)) as [Hh Hp].
  rewrite app_nil_r in Hp.
  destruct (pop_all_sorted compare (length l) (push_all compare l []) Hc Hh)
    as [H1 H2].
  { rewrite (Permutation_length Hp). lia. }
  split; [rewrite H1; exact Hp | exact H2].
Qed.

Lemma heap_sort_sorts_witness :
  heap_sort Z.sub [3; 1; 2; 1] ≡ₚ [3; 1; 2; 1] /\
  StronglySorted (Heap.cle Z.sub) (heap_sort Z.sub [3; 1; 2; 1]).
Proof.
  apply (heap_sort_sorts Z.sub [3; 1; 2; 1]).
  unfold comparator_ok, Heap.cle. repeat split; intros; lia.
Defined.

(** ** core/Environment.ts: [peek], the order of scheduling, the clock *)

(** X4. [peek] announces the next step.  On an empty queue it is
    [Infinity].  On a non-empty queue of a state reached with integer
    delays it is the least time in the queue, and the time at which the
    next [step] leaves the clock.  [peek] is the one on JavaScript
    numbers, where [None] is [Infinity]; there [Infinity] is also what
    [peek] returns on the non-empty queue that holds one item scheduled
    with the delay [Infinity], so [peek] alone does not tell that queue
    from the empty one. *)
Theorem peek_is_next_time (t : Z) (w : World) :
  reachable t w ->
  (_queue (env w) = [] -> peek w = None) /\
  (_queue (env w) <> [] ->
   exists t', peek w = Some t' /\
     (forall y, y ∈ _queue (env w) -> t' <= time y) /\
     (exists y, y ∈ _queue (env w) /\ time y = t') /\
     (forall fuel r, step fuel w = Some r -> now (world_of r) = t')) /\
  JsEnvironment.peek (to_js (env w)) =
    match peek w with Some t' => Js.Int t' | None => Js.Infinity end /\
  (forall e p,
     JsEnvironment.Timeout_accepts Js.Infinity = true /\
     JsEnvironment._queue
       (JsEnvironment.schedule e p Js.Infinity (JsEnvironment.new (Js.Int t)))
       <> [] /\
     JsEnvironment.peek
       (JsEnvironment.schedule e p Js.Infinity (JsEnvironment.new (Js.Int t)))
       = Js.Infinity).
Proof.
  intros Hreach.
  destruct (reachable_queue_wf _ _ _ Hreach) as (Hh & _ & _).
  split; [ | split; [ | split ]].
  - intros E. unfold peek, Heap.size. rewrite E. reflexivity.
  - intros Hne.
    destruct (pop_cons_inv queue_compare _ Hne) as (x & q & Htop & Hpop).
    exists (time x). split; [ | split; [ | split ]].
    + unfold peek, Heap.size, Heap.peek. rewrite Htop.
      destruct (_queue (env w)); [congruence | reflexivity].
    + intros y Hy.
      destruct (queue_pop_minimal _ _ _ Hh Hpop y Hy) as [Hlt | (He & _)];
        unfold lex_lt in *; lia.
    + exists x. split; [ | reflexivity ].
      apply list_elem_of_lookup. eauto.
    + intros fuel r Hstep. exact (step_now _ _ _ _ _ Hpop Hstep).
  - unfold JsEnvironment.peek, peek, to_js, JsHeap.size, Heap.size,
      JsHeap.peek, Heap.peek.
    cbn [JsEnvironment._queue]. rewrite length_map.
    destruct (_queue (env w)) as [|a l]; reflexivity.
  - intros e p. split; [reflexivity | ]. split; [discriminate | reflexivity].
Qed.

Lemma peek_is_next_time_witness :
  (_queue (env three_scheduled) = [] -> peek three_scheduled = None) /\
  (_queue (env three_scheduled) <> [] ->
   exists t', peek three_scheduled = Some t' /\
     (forall y, y ∈ _queue (env three_scheduled) -> t' <= time y) /\
     (exists y, y ∈ _queue (env three_scheduled) /\ time y = t') /\
     (forall fuel r, step fuel three_scheduled = Some r ->
                     now (world_of r) = t')) /\
  JsEnvironment.peek (to_js (env three_scheduled)) =
    match peek three_scheduled with
    | Some t' => Js.Int t'
    | None => Js.Infinity
    end /\
  (forall e p,
     JsEnvironment.Timeout_accepts Js.Infinity = true /\
     JsEnvironment._queue
       (JsEnvironment.schedule e p Js.Infinity (JsEnvironment.new (Js.Int 0)))
       <> [] /\
     JsEnvironment.peek
       (JsEnvironment.schedule e p Js.Infinity (JsEnvironment.new (Js.Int 0)))
       = Js.Infinity).
Proof.
  apply (peek_is_next_time 0 three_scheduled).
  apply reachable_run_calls; [apply reach_new | ].
  repeat constructor.
Defined.




(** X6. Only [step] and [run] move the clock: every other call of the
    interface, whatever it schedules or triggers, and whether it returns
    or throws, leaves [now] as it was. *)
Theorem only_step_moves_clock (fuel : nat) (a : Api) (w : World)
  (r : Res unit) :
  is_step a = false -> call fuel a w = Some r -> now (world_of r) = now w.
Proof.
  intros Ha Hcall.
  set (I := fun E : Environment => _now E = now w).
  assert (HI : stable I) by (split; intros; exact H || auto).
  assert (Hgo : forall {A} (m : M A), preserves m ->
            lift m w = Some r -> now (world_of r) = now w).
  { intros A m Hm Hl. apply (lift_keeps m I Hm HI w r); [reflexivity | exact Hl]. }
  destruct a; try discriminate Ha; simpl in Hcall.
  - eapply Hgo; [ | exact Hcall ]. apply preserves_Event_new.
  - eapply Hgo; [ | exact Hcall ]. apply preserves_succeed.
  - eapply Hgo; [ | exact Hcall ]. apply preserves_fail.
  - eapply Hgo; [ | exact Hcall ]. apply preserves_trigger.
  - eapply Hgo; [ | exact Hcall ]. apply preserves_update_event.
  - eapply Hgo; [ | exact Hcall ]. apply preserves_push_callback.
  - unfold lift in Hcall. simpl in Hcall. inversion Hcall. reflexivity.
  - eapply Hgo; [ | exact Hcall ]. apply preserves_Timeout_new.
  - eapply Hgo; [ | exact Hcall ]. apply preserves_process.
  - eapply Hgo; [ | exact Hcall ]. apply preserves_interrupt.
  - eapply Hgo; [ | exact Hcall ]. apply preserves_Resource_new.
  - eapply Hgo; [ | exact Hcall ]. apply preserves_get.
  - eapply Hgo; [ | exact Hcall ]. apply preserves_put.
  - eapply Hgo; [ | exact Hcall ]. apply preserves_cancel.
  - eapply Hgo; [ | exact Hcall ]. apply preserves__triggerGet.
  - eapply Hgo; [ | exact Hcall ]. apply preserves__triggerPut.
Qed.

Lemma only_step_moves_clock_witness :
  now (world_of (schedule 0%nat NORMAL 7 one_event)) = now one_event.
Proof.
  apply (only_step_moves_clock 5 (ApiSchedule 0%nat NORMAL 7) one_event
           (Ok tt (world_of (schedule 0%nat NORMAL 7 one_event)))).
  - reflexivity.
  - vm_compute. reflexivity.
Defined.

(** ** core/Environment.ts: the empty queue and failed events *)

(** X7. On an empty queue [step] throws EmptySchedule and [peek] is
    [Infinity]; [run()] and [run(t)] return at once; nothing is changed.
    An [until] that is neither a number nor an Event is refused before any
    step. *)
Theorem empty_queue_behaviour (w : World) (fuel : nat) :
  _queue (env w) = [] ->
  step fuel w = Some (Throw (VError EmptySchedule) w) /\
  peek w = None /\
  run (S fuel) UntilNull w = Some (Ok tt w) /\
  (forall t, run (S fuel) (UntilNumber t) w = Some (Ok tt w)) /\
  (forall w', run fuel UntilOther w' = Some (Throw (VError InvalidUntil) w')).
Proof.
  intros Hq. unfold step, peek, run. simpl. rewrite Hq. simpl.
  repeat split.
Qed.

Lemma empty_queue_behaviour_witness :
  step 0 one_event = Some (Throw (VError EmptySchedule) one_event) /\
  peek one_event = None /\
  run 1 UntilNull one_event = Some (Ok tt one_event) /\
  (forall t, run 1 (UntilNumber t) one_event = Some (Ok tt one_event)) /\
  (forall w', run 0 UntilOther w' = Some (Throw (VError InvalidUntil) w')).
Proof. apply (empty_queue_behaviour one_event 0). reflexivity. Defined.

(** X8. After the callbacks of the popped event, [step] throws the value of
    an event whose [_ok] is not true, unless the event is defused; this
    includes an event that was scheduled without having been triggered,
    whose value is still 'PENDING'. *)
Theorem step_raises_undefused_failure (fuel : nat) (w : World)
  (x : QueueItem) (q : list QueueItem) (cbs : list Callback) :
  Heap.pop queue_compare (_queue (env w)) = (Some x, q) ->
  callbacks (ev w (event x)) = Some cbs ->
  forallb is_user cbs = true ->
  (length cbs < fuel)%nat ->
  step fuel w =
    Some (if truthy (_ok (ev w (event x))) || _defused (ev w (event x))
          then Ok tt (with_results (fun l => l ++ user_log (event x) cbs)
                        (advance x q w))
          else Throw (_value (ev w (event x)))
                 (with_results (fun l => l ++ user_log (event x) cbs)
                    (advance x q w))).
Proof.
  intros Hpop Hcb Hu Hfuel. unfold step.
  destruct (Heap.size (_queue (env w)) =? 0)%nat eqn:Hsz.
  { apply Nat.eqb_eq in Hsz. apply length_zero_iff_nil in Hsz.
    rewrite Hsz in Hpop. discriminate. }
  rewrite Hpop. cbv zeta.
  assert (Hcb1 : callbacks (ev (advance x q w) (event x)) = Some ([] ++ cbs ++ []))
    by (rewrite app_nil_r; exact Hcb).
  replace (callbacks (ev (advance x q w) (event x))) with (Some cbs)
    by (symmetry; exact Hcb).
  replace fuel with (length cbs + (fuel - length cbs))%nat by lia.
  rewrite (fan_user_prefix _ [] cbs [] _ _ Hcb1 Hu).
  destruct (length cbs + (fuel - length cbs) - length cbs)%nat as [|k] eqn:Hk;
    [lia | ].
  replace (fuel - length cbs)%nat with (S k) by lia.
  cbn [fan].
  replace (callbacks (ev (with_results (fun l => l ++ user_log (event x) cbs)
                            (advance x q w)) (event x)))
    with (Some cbs) by (symmetry; exact Hcb).
  rewrite lookup_ge_None_2 by (simpl; lia).
  change (ev (with_results (fun l => l ++ user_log (event x) cbs)
                (advance x q w)) (event x)) with (ev w (event x)).
  destruct (truthy (_ok (ev w (event x)))), (_defused (ev w (event x)));
    reflexivity.
Qed.

Lemma step_raises_undefused_failure_witness :
  step 5 failed_event =
    Some (Throw (VError (UserError "boom"))
            (with_results (fun l => l ++ [("cb"%string, 0%nat)])
               (advance (mkItem 0 1 0 0%nat) [] failed_event))).
Proof.
  apply (step_raises_undefused_failure 5 failed_event (mkItem 0 1 0 0%nat) []
           [CbUser "cb"]).
  - reflexivity.
  - reflexivity.
  - reflexivity.
  - simpl. lia.
Defined.

(** ** events/Event.ts: reading an outcome, and scheduling on trigger *)

(** X9. [value] and [ok] throw on a pending event; after [succeed(v)], for
    a [v] other than [undefined] (which the default of the parameter
    replaces by [null]) and other than the string 'PENDING', they return
    [v] and [true]; after [fail(x)] with an Error they return [x] and
    [false]; [fail] with a value that is not an Error throws a TypeError
    and changes nothing. *)
Theorem outcome_round_trip (w : World) (e : EvId) :
  (e < length (events w))%nat -> triggered w e = false ->
  value e w = Throw (VError (NotYetAvailable e)) w /\
  ok e w = Throw (VError (NotYetAvailable e)) w /\
  (forall v, v <> PENDING -> v <> VUndefined ->
     exists w', succeed e v w = Ok tt w' /\
       value e w' = Ok v w' /\ ok e w' = Ok (Some true) w') /\
  (forall x, is_Error x = true ->
     exists w', fail e x w = Ok tt w' /\
       value e w' = Ok x w' /\ ok e w' = Ok (Some false) w') /\
  (forall x, is_Error x = false ->
     fail e x w = Throw (VError NotAnException) w).
Proof.
  intros He Ht. pose proof Ht as Hp. unfold triggered in Hp.
  apply negb_false_iff in Hp.
  assert (Hnp : forall v, v <> PENDING -> is_PENDING v = false).
  { intros v Hv. destruct (is_PENDING v) eqn:E; [ | reflexivity ].
    apply is_PENDING_iff in E. contradiction. }
  split; [unfold value, bind, gets; rewrite Hp; reflexivity | ].
  split; [unfold ok, bind, gets; rewrite Ht; reflexivity | ].
  split; [ | split ].
  - intros v Hv _.
    destruct (succeed_pending w e v He Hp) as (w' & Hs & _ & _ & _ & _ & Hself).
    exists w'. split; [exact Hs | ].
    assert (Hval : _value (ev w' e) = v /\ _ok (ev w' e) = Some true)
      by (destruct Hself as [-> | ->]; split; reflexivity).
    destruct Hval as [Hval Hok].
    split.
    + unfold value, bind, gets, ret. rewrite Hval, (Hnp v Hv). reflexivity.
    + unfold ok, triggered, bind, gets. rewrite Hval, (Hnp v Hv). simpl.
      rewrite Hok. reflexivity.
  - intros x Hx.
    destruct (fail_pending w e x He Hp Hx) as (w' & Hs & _ & Ho & Hself).
    exists w'. split; [exact Hs | ].
    assert (Hval : _value (ev w' e) = x /\ _ok (ev w' e) = Some false)
      by (destruct Hself as [-> | ->]; split; reflexivity).
    destruct Hval as [Hval Hok].
    assert (Hxp : is_PENDING x = false) by (destruct x; try discriminate; reflexivity).
    split.
    + unfold value, bind, gets, ret. rewrite Hval, Hxp. reflexivity.
    + unfold ok, triggered, bind, gets. rewrite Hval, Hxp. simpl.
      rewrite Hok. reflexivity.
  - intros x Hx. unfold fail, bind, gets. rewrite Hp, Hx. reflexivity.
Qed.

Lemma outcome_round_trip_witness :
  value 0%nat one_event = Throw (VError (NotYetAvailable 0%nat)) one_event /\
  ok 0%nat one_event = Throw (VError (NotYetAvailable 0%nat)) one_event /\
  (forall v, v <> PENDING -> v <> VUndefined ->
     exists w', succeed 0%nat v one_event = Ok tt w' /\
       value 0%nat w' = Ok v w' /\ ok 0%nat w' = Ok (Some true) w') /\
  (forall x, is_Error x = true ->
     exists w', fail 0%nat x one_event = Ok tt w' /\
       value 0%nat w' = Ok x w' /\ ok 0%nat w' = Ok (Some false) w') /\
  (forall x, is_Error x = false ->
     fail 0%nat x one_event = Throw (VError NotAnException) one_event).
Proof.
  apply (outcome_round_trip one_event 0%nat).
  - vm_compute. lia.
  - reflexivity.
Defined.

Lemma schedule_once_env e w :
  (e < length (events w))%nat ->
  _scheduled (ev (world_of (schedule_once e w)) e) = true /\
  env (world_of (schedule_once e w)) =
    if _scheduled (ev w e) then env w else enqueue e NORMAL 0 (env w).
Proof.
  intros He. unfold schedule_once, bind, gets, when.
  destruct (_scheduled (ev w e)) eqn:Hs; simpl; [auto | ].
  split; [ | reflexivity ].
  rewrite ev_alter_eq by (rewrite length_events_alter; exact He).
  reflexivity.
Qed.

Lemma schedule_once_after f g e w :
  (e < length (events w))%nat ->
  (forall x, _scheduled (g (f x)) = _scheduled x) ->
  queues_once
    (fun w0 => schedule_once e
                 (with_events (alter g e) (with_events (alter f e) w0)))
    w e.
Proof.
  intros He Hfg.
  set (w2 := with_events (alter g e) (with_events (alter f e) w)).
  destruct (schedule_once_spec e w2) as (w' & Hs & _).
  assert (He2 : (e < length (events w2))%nat)
    by (unfold w2; rewrite !length_events_alter; exact He).
  destruct (schedule_once_env e w2 He2) as [H1 H2].
  fold w2. rewrite Hs in H1, H2. simpl in H1, H2.
  assert (Hsch : _scheduled (ev w2 e) = _scheduled (ev w e)).
  { unfold w2. rewrite ev_alter_eq by (rewrite length_events_alter; exact He).
    rewrite ev_alter_eq by exact He. apply Hfg. }
  rewrite Hsch in H2.
  exists w'. split; [exact Hs | ]. split; assumption.
Qed.

(** X10. [succeed], [fail] and [trigger] put their event on the queue only if
    it is not there yet: an event that is not marked as scheduled is
    queued once, for the current time with the priority NORMAL, and
    marked; for an event that is marked the environment is not touched. *)
Theorem trigger_schedules_once (w : World) (e : EvId) :
  (e < length (events w))%nat -> triggered w e = false ->
  (forall v, queues_once (succeed e v) w e) /\
  (forall x, is_Error x = true -> queues_once (fail e x) w e) /\
  (forall src, queues_once (trigger e src) w e).
Proof.
  intros He Ht. unfold triggered in Ht. apply negb_false_iff in Ht.
  split; [ | split ].
  - intros v.
    destruct (schedule_once_after (set_ok (Some true)) (set_value v) e w He)
      as (w' & Hs & H); [reflexivity | ].
    exists w'. split; [ | exact H ].
    unfold succeed, bind, gets. rewrite Ht. exact Hs.
  - intros x Hx.
    destruct (schedule_once_after (set_ok (Some false)) (set_value x) e w He)
      as (w' & Hs & H); [reflexivity | ].
    exists w'. split; [ | exact H ].
    unfold fail, bind, gets. rewrite Ht, Hx. exact Hs.
  - intros src.
    destruct (schedule_once_after (set_ok (_ok (ev w src)))
                (set_value (_value (ev w src))) e w He)
      as (w' & Hs & H); [reflexivity | ].
    exists w'. split; [ | exact H ]. exact Hs.
Qed.

Lemma trigger_schedules_once_witness :
  (forall v, queues_once (succeed 0%nat v) one_event 0%nat) /\
  (forall x, is_Error x = true -> queues_once (fail 0%nat x) one_event 0%nat) /\
  (forall src, queues_once (trigger 0%nat src) one_event 0%nat).
Proof.
  apply (trigger_schedules_once one_event 0%nat).
  - vm_compute. lia.
  - reflexivity.
Defined.

(** ** events/Event.ts: conditions *)

(** X11. [_check], the callback a condition leaves on its children: it does
    nothing once the condition is triggered; a successful child is
    counted, and the condition succeeds when its predicate holds of the new
    count; a failed child is defused and its value fails the condition,
    which throws a TypeError when that value is not an Error. *)
Theorem check_counts_children (w : World) (self child : EvId)
  (f : ConditionEvaluator) :
  (self < length (events w))%nat -> (child < length (events w))%nat ->
  self <> child -> _evaluate (ev w self) = Some f ->
  (triggered w self = true -> _check self child w = Ok tt w) /\
  (triggered w self = false ->
   (truthy (_ok (ev w child)) = true ->
    exists w', _check self child w = Ok tt w' /\
      _count (ev w' self) = _count (ev w self) + 1 /\
      triggered w' self =
        apply_evaluate f (_events (ev w self)) (_count (ev w self) + 1) /\
      (triggered w' self = true ->
       _ok (ev w' self) = Some true /\
       _value (ev w' self) = VConditionValue []) /\
      ev w' child = ev w child) /\
   (truthy (_ok (ev w child)) = false ->
    is_Error (_value (ev w child)) = true ->
    exists w', _check self child w = Ok tt w' /\
      _defused (ev w' child) = true /\
      _ok (ev w' self) = Some false /\
      _value (ev w' self) = _value (ev w child)) /\
   (truthy (_ok (ev w child)) = false ->
    is_Error (_value (ev w child)) = false ->
    exists w', _check self child w = Throw (VError NotAnException) w' /\
      _defused (ev w' child) = true /\
      triggered w' self = false)).
Proof.
  intros Hs Hc Hne Hf. split.
  { intros Ht. unfold triggered in Ht. unfold _check, bind, gets.
    rewrite Ht. reflexivity. }
  intros Ht. unfold triggered in Ht. apply negb_false_iff in Ht.
  set (w1 := with_events (alter (fun x => set_count (_count x + 1) x) self) w).
  assert (Hself1 : ev w1 self = set_count (_count (ev w self) + 1) (ev w self))
    by (unfold w1; rewrite ev_alter_eq by exact Hs; reflexivity).
  assert (Hchild1 : ev w1 child = ev w child)
    by (unfold w1; apply ev_alter_ne; exact Hne).
  assert (Hl1 : length (events w1) = length (events w))
    by (unfold w1; apply length_events_alter).
  assert (Hp1 : is_PENDING (_value (ev w1 self)) = true)
    by (rewrite Hself1; exact Ht).
  assert (Hstart :
            _check self child w =
            (let* child_ok := gets (fun w => _ok (ev w child)) in
             if negb (truthy child_ok) then
               let* _ := update_event child (set_defused true) in
               let* child_value := gets (fun w => _value (ev w child)) in
               fail self child_value
             else
               let* me := gets (fun w => ev w self) in
               match _evaluate me with
               | None => throw (VError NotCallable)
               | Some f =>
                   if apply_evaluate f (_events me) (_count me)
                   then succeed self (VConditionValue [])
                   else ret tt
               end) w1).
  { unfold _check at 1. unfold bind at 1. unfold gets at 1.
    rewrite Ht. reflexivity. }
  split; [ | split ].
  - intros Hok. rewrite Hstart. unfold bind at 1. unfold gets at 1.
    rewrite Hchild1, Hok. cbn [negb]. unfold bind at 1. unfold gets at 1.
    rewrite Hself1. cbn [_evaluate set_count _events _count]. rewrite Hf.
    destruct (apply_evaluate f (_events (ev w self)) (_count (ev w self) + 1))
      eqn:Hev.
    + destruct (succeed_pending w1 self (VConditionValue [])) as
        (w' & Hsuc & _ & _ & _ & Ho & Hself);
        [rewrite Hl1; exact Hs | exact Hp1 | ].
      exists w'. split; [exact Hsuc | ].
      rewrite Hself1 in Hself.
      assert (Hfacts : _count (ev w' self) = _count (ev w self) + 1 /\
                       _value (ev w' self) = VConditionValue [] /\
                       _ok (ev w' self) = Some true)
        by (destruct Hself as [-> | ->]; repeat split).
      destruct Hfacts as (H1 & H2 & H3).
      split; [exact H1 | ]. unfold triggered. rewrite H2. simpl.
      split; [reflexivity | ]. split; [auto | ].
      rewrite Ho by congruence. exact Hchild1.
    + exists w1. split; [reflexivity | ]. rewrite Hself1. simpl.
      split; [reflexivity | ]. unfold triggered. rewrite Hself1. simpl.
      rewrite Ht. simpl. split; [reflexivity | ].
      split; [discriminate | exact Hchild1].
  - intros Hok Herr. rewrite Hstart. unfold bind at 1. unfold gets at 1.
    rewrite Hchild1, Hok. cbn [negb].
    unfold bind at 1. unfold update_event, modify.
    set (w2 := with_events (alter (set_defused true) child) w1).
    assert (Hchild2 : ev w2 child = set_defused true (ev w child)).
    { unfold w2. rewrite ev_alter_eq by (rewrite Hl1; exact Hc).
      rewrite Hchild1. reflexivity. }
    assert (Hself2 : ev w2 self = ev w1 self)
      by (unfold w2; apply ev_alter_ne; congruence).
    unfold bind at 1. unfold gets at 1. rewrite Hchild2.
    cbn [_value set_defused].
    destruct (fail_pending w2 self (_value (ev w child))) as
      (w' & Hfl & _ & Ho & Hself).
    { unfold w2. rewrite length_events_alter, Hl1. exact Hs. }
    { rewrite Hself2. exact Hp1. }
    { exact Herr. }
    exists w'. split; [exact Hfl | ].
    rewrite Ho by congruence. rewrite Hchild2.
    split; [reflexivity | ].
    destruct Hself as [-> | ->]; split; reflexivity.
  - intros Hok Herr. rewrite Hstart. unfold bind at 1. unfold gets at 1.
    rewrite Hchild1, Hok. cbn [negb].
    unfold bind at 1. unfold update_event, modify.
    set (w2 := with_events (alter (set_defused true) child) w1).
    assert (Hchild2 : ev w2 child = set_defused true (ev w child)).
    { unfold w2. rewrite ev_alter_eq by (rewrite Hl1; exact Hc).
      rewrite Hchild1. reflexivity. }
    assert (Hself2 : ev w2 self = ev w1 self)
      by (unfold w2; apply ev_alter_ne; congruence).
    unfold bind at 1. unfold gets at 1. rewrite Hchild2.
    cbn [_value set_defused].
    exists w2. unfold fail, bind, gets. rewrite Hself2, Hp1, Herr.
    split; [reflexivity | ]. rewrite Hchild2.
    split; [reflexivity | ]. unfold triggered. rewrite Hself2, Hp1.
    reflexivity.
Qed.

Lemma check_counts_children_witness :
  (triggered and_condition 2%nat = true ->
   _check 2%nat 0%nat and_condition = Ok tt and_condition) /\
  (triggered and_condition 2%nat = false ->
   (truthy (_ok (ev and_condition 0%nat)) = true ->
    exists w', _check 2%nat 0%nat and_condition = Ok tt w' /\
      _count (ev w' 2%nat) = _count (ev and_condition 2%nat) + 1 /\
      triggered w' 2%nat =
        apply_evaluate allEvents (_events (ev and_condition 2%nat))
          (_count (ev and_condition 2%nat) + 1) /\
      (triggered w' 2%nat = true ->
       _ok (ev w' 2%nat) = Some true /\
       _value (ev w' 2%nat) = VConditionValue []) /\
      ev w' 0%nat = ev and_condition 0%nat) /\
   (truthy (_ok (ev and_condition 0%nat)) = false ->
    is_Error (_value (ev and_condition 0%nat)) = true ->
    exists w', _check 2%nat 0%nat and_condition = Ok tt w' /\
      _defused (ev w' 0%nat) = true /\
      _ok (ev w' 2%nat) = Some false /\
      _value (ev w' 2%nat) = _value (ev and_condition 0%nat)) /\
   (truthy (_ok (ev and_condition 0%nat)) = false ->
    is_Error (_value (ev and_condition 0%nat)) = false ->
    exists w', _check 2%nat 0%nat and_condition =
                 Throw (VError NotAnException) w' /\
      _defused (ev w' 0%nat) = true /\
      triggered w' 2%nat = false)).
Proof.
  apply (check_counts_children and_condition 2%nat 0%nat allEvents).
  - vm_compute. lia.
  - vm_compute. lia.
  - discriminate.
  - reflexivity.
Defined.

(** ** No kernel function releases a callback list *)

Lemma keeps_live_ret {A} (a : A) : keeps_live (ret a).
Proof. intros w H. exact H. Qed.

Lemma keeps_live_throw {A} e : keeps_live (@throw A e).
Proof. intros w H. exact H. Qed.

Lemma keeps_live_gets {A} (f : World -> A) : keeps_live (gets f).
Proof. intros w H. exact H. Qed.

Lemma keeps_live_bind {A B} (m : M A) (k : A -> M B) :
  keeps_live m -> (forall a, keeps_live (k a)) -> keeps_live (bind m k).
Proof.
  intros Hm Hk w Hw. unfold bind. specialize (Hm w Hw).
  destruct (m w) as [a w' | e w']; simpl in *; [apply Hk | ]; assumption.
Qed.

Lemma keeps_live_when b m : keeps_live m -> keeps_live (when b m).
Proof. intros Hm. destruct b; simpl; [exact Hm | apply keeps_live_ret]. Qed.

Lemma keeps_live_try_catch {A} (m : M A) h :
  keeps_live m -> (forall e, keeps_live (h e)) -> keeps_live (try_catch m h).
Proof.
  intros Hm Hh w Hw. unfold try_catch. specialize (Hm w Hw).
  destruct (m w) as [a w' | e w']; simpl in *; [ | apply Hh ]; assumption.
Qed.

Lemma keeps_live_finally {A} (m : M A) f :
  keeps_live m -> keeps_live f -> keeps_live (finally m f).
Proof.
  intros Hm Hf w Hw. unfold finally. specialize (Hm w Hw).
  destruct (m w) as [a w' | e w']; simpl in *; apply Hf; assumption.
Qed.

Lemma keeps_live_modify f :
  (forall w, events (f w) = events w) -> keeps_live (modify f).
Proof. intros Hf w Hw e x. simpl. rewrite Hf. apply Hw. Qed.

Lemma keeps_live_update_event e f :
  (forall x, callbacks x <> None -> callbacks (f x) <> None) ->
  keeps_live (update_event e f).
Proof.
  intros Hf w Hw i x. simpl. intros Hx.
  destruct (decide (i = e)) as [-> | Hne].
  - rewrite list_lookup_alter_eq in Hx.
    destruct (events w !! e) as [y|] eqn:Hy; simplify_eq/=.
    apply Hf. exact (Hw _ _ Hy).
  - rewrite list_lookup_alter_ne in Hx by congruence. exact (Hw _ _ Hx).
Qed.

Lemma keeps_live_update_resource r f : keeps_live (update_resource r f).
Proof. apply keeps_live_modify. reflexivity. Qed.

Lemma keeps_live_alloc_resource x : keeps_live (alloc_resource x).
Proof. intros w Hw. exact Hw. Qed.

Lemma keeps_live_set_activeProcess p : keeps_live (set_activeProcess p).
Proof. apply keeps_live_modify. reflexivity. Qed.

Lemma keeps_live_log f : keeps_live (modify (with_results f)).
Proof. apply keeps_live_modify. reflexivity. Qed.

Lemma keeps_live_enqueue f : keeps_live (modify (with_env f)).
Proof. apply keeps_live_modify. reflexivity. Qed.

Lemma keeps_live_alloc_event x :
  callbacks x <> None -> keeps_live (alloc_event x).
Proof.
  intros Hx w Hw i y. simpl. intros Hy.
  apply lookup_app_Some in Hy. destruct Hy as [Hy | [_ Hy]].
  - exact (Hw _ _ Hy).
  - apply list_lookup_singleton_Some in Hy. destruct Hy as [_ <-]. exact Hx.
Qed.

Create HintDb live.

#[local] Hint Resolve keeps_live_update_resource keeps_live_alloc_resource
  keeps_live_set_activeProcess keeps_live_log keeps_live_enqueue : live.

Ltac live :=
  repeat first
    [ apply keeps_live_ret
    | apply keeps_live_throw
    | apply keeps_live_gets
    | apply keeps_live_bind; [ | intros ? ]
    | apply keeps_live_when
    | apply keeps_live_try_catch; [ | intros ? ]
    | apply keeps_live_finally
    | apply keeps_live_update_event;
      solve [ let x := fresh "x" in let Hx := fresh "Hx" in
              intros x Hx; simpl;
              first [ exact Hx | discriminate
                    | destruct (class x); simpl;
                      first [exact Hx | discriminate] ] ]
    | apply keeps_live_alloc_event; discriminate
    | solve [eauto with live]
    | progress cbv zeta
    | match goal with
      | |- keeps_live (if ?b then _ else _) => destruct b eqn:?
      | |- keeps_live (match ?x with _ => _ end) => destruct x eqn:?
      end ].

Lemma keeps_live_schedule e p d : keeps_live (schedule e p d).
Proof. unfold schedule. live. Qed.
#[local] Hint Resolve keeps_live_schedule : live.

Lemma keeps_live_push_callback e cb : keeps_live (push_callback e cb).
Proof. unfold push_callback. live. Qed.
#[local] Hint Resolve keeps_live_push_callback : live.

Lemma keeps_live_schedule_once e : keeps_live (schedule_once e).
Proof. unfold schedule_once. live. Qed.
#[local] Hint Resolve keeps_live_schedule_once : live.

Lemma keeps_live_trigger e src : keeps_live (trigger e src).
Proof. unfold trigger. live. Qed.

Lemma keeps_live_succeed e v : keeps_live (succeed e v).
Proof. unfold succeed. live. Qed.

Lemma keeps_live_fail e v : keeps_live (fail e v).
Proof. unfold fail. live. Qed.
#[local] Hint Resolve keeps_live_trigger keeps_live_succeed keeps_live_fail
  : live.

Lemma keeps_live__check c e : keeps_live (_check c e).
Proof. unfold _check. live. Qed.

Lemma keeps_live__buildValue c e : keeps_live (_buildValue c e).
Proof. unfold _buildValue, _removeCheckCallbacks. live. Qed.
#[local] Hint Resolve keeps_live__check keeps_live__buildValue : live.

Lemma keeps_live__initializeCondition_loop self children :
  keeps_live (_initializeCondition_loop self children).
Proof. induction children as [|c l IH]; simpl; live. Qed.
#[local] Hint Resolve keeps_live__initializeCondition_loop : live.

Lemma keeps_live__initializeCondition self :
  keeps_live (_initializeCondition self).
Proof. unfold _initializeCondition. live. Qed.
#[local] Hint Resolve keeps_live__initializeCondition : live.

Lemma keeps_live_Event_new cls f l : keeps_live (Event_new cls f l).
Proof. unfold Event_new. live. Qed.
#[local] Hint Resolve keeps_live_Event_new : live.

Lemma keeps_live_Timeout_new d v : keeps_live (Timeout_new d v).
Proof. unfold Timeout_new. live. Qed.

Lemma keeps_live_Initialize_new p : keeps_live (Initialize_new p).
Proof. unfold Initialize_new. live. Qed.

Lemma keeps_live_StopSimulation_callback e :
  keeps_live (StopSimulation_callback e).
Proof. unfold StopSimulation_callback, ok, value. live. Qed.
#[local] Hint Resolve keeps_live_Timeout_new keeps_live_Initialize_new
  keeps_live_StopSimulation_callback : live.

Lemma keeps_live__doGet r e : keeps_live (_doGet r e).
Proof. unfold _doGet. live. Qed.

Lemma keeps_live__doPut r e : keeps_live (_doPut r e).
Proof. unfold _doPut. live. Qed.
#[local] Hint Resolve keeps_live__doGet keeps_live__doPut : live.

Lemma keeps_live__triggerPut_loop fuel : forall r idx,
  keeps_live (_triggerPut_loop fuel r idx).
Proof. induction fuel as [|fuel IH]; intros r idx; simpl; live. Qed.

Lemma keeps_live__triggerGet_loop fuel : forall r idx,
  keeps_live (_triggerGet_loop fuel r idx).
Proof. induction fuel as [|fuel IH]; intros r idx; simpl; live. Qed.
#[local] Hint Resolve keeps_live__triggerPut_loop keeps_live__triggerGet_loop
  : live.

Lemma keeps_live__triggerPut r : keeps_live (_triggerPut r).
Proof. unfold _triggerPut. live. Qed.

Lemma keeps_live__triggerGet r : keeps_live (_triggerGet r).
Proof. unfold _triggerGet. live. Qed.
#[local] Hint Resolve keeps_live__triggerPut keeps_live__triggerGet : live.

Lemma keeps_live_PutResource_new r a : keeps_live (PutResource_new r a).
Proof. unfold PutResource_new. live. Qed.

Lemma keeps_live_GetResource_new r a : keeps_live (GetResource_new r a).
Proof. unfold GetResource_new. live. Qed.

Lemma keeps_live_cancel e : keeps_live (cancel e).
Proof. unfold cancel. live. Qed.
#[local] Hint Resolve keeps_live_PutResource_new keeps_live_GetResource_new
  keeps_live_cancel : live.

Lemma keeps_live_exec_cmd c : keeps_live (exec_cmd c).
Proof. destruct c; unfold exec_cmd, request, release; live. Qed.

Lemma keeps_live__resume_loop self c : keeps_live (_resume_loop self c).
Proof.
  induction c as [v | e | cmd k_ok IHok k_err IHerr | y next IHn thrown IHt];
    simpl.
  - unfold set_generator. live.
  - unfold set_generator. live.
  - intros w Hw.
    pose proof (keeps_live_exec_cmd cmd w Hw) as H.
    destruct (exec_cmd cmd w) as [r w' | e w']; simpl in H.
    + apply IHok; assumption.
    + apply IHerr; assumption.
  - unfold set_generator. apply keeps_live_bind; [live | intros _ ].
    destruct y; live.
    intros w Hw.
    destruct (callbacks (ev w e)).
    + apply keeps_live_push_callback; assumption.
    + destruct (truthy (_ok (ev w e))); [apply IHn | apply IHt]; assumption.
Qed.
#[local] Hint Resolve keeps_live__resume_loop : live.

Lemma keeps_live__resume_enter self e : keeps_live (_resume_enter self e).
Proof. unfold _resume_enter, set_generator. live. Qed.
#[local] Hint Resolve keeps_live__resume_enter : live.

Lemma keeps_live__resume self e : keeps_live (_resume self e).
Proof. unfold _resume. live. Qed.

Lemma keeps_live_Process_new body : keeps_live (Process_new body).
Proof. unfold Process_new. live. Qed.

Lemma keeps_live_interrupt p cause : keeps_live (interrupt p cause).
Proof. unfold interrupt. live. Qed.
#[local] Hint Resolve keeps_live__resume keeps_live_Process_new
  keeps_live_interrupt : live.

Lemma keeps_live_Resource_new c : keeps_live (Resource_new c).
Proof. unfold Resource_new. live. Qed.
#[local] Hint Resolve keeps_live_Resource_new : live.

Lemma keeps_live_call_callback cb e : keeps_live (call_callback cb e).
Proof. destruct cb; simpl; live. Qed.

Lemma fan_live fuel : forall e i w r,
  live w -> fan fuel e i w = Some r -> live (world_of r).
Proof.
  induction fuel as [|fuel IH]; intros e i w r Hw Hfan; [discriminate | ].
  simpl in Hfan.
  destruct (callbacks (ev w e)) as [cbs|]; [ | inversion Hfan; exact Hw ].
  destruct (cbs !! i) as [cb|]; [ | inversion Hfan; exact Hw ].
  pose proof (keeps_live_call_callback cb e w Hw) as Hcb.
  destruct (call_callback cb e w) as [u w' | x w']; simpl in Hcb.
  - eapply IH; eauto.
  - inversion Hfan. exact Hcb.
Qed.

Lemma step_live fuel w r : live w -> step fuel w = Some r -> live (world_of r).
Proof.
  intros Hw Hstep. unfold step in Hstep.
  destruct (Heap.size (_queue (env w)) =? 0)%nat;
    [inversion Hstep; exact Hw | ].
  destruct (Heap.pop queue_compare (_queue (env w))) as [[x|] q] eqn:Hpop;
    [ | inversion Hstep; exact Hw ].
  assert (Hw1 : live (advance x q w)) by exact Hw.
  destruct (callbacks (ev (advance x q w) (event x)));
    [ | inversion Hstep; exact Hw1 ].
  destruct (fan fuel (event x) 0 (advance x q w)) as [[u w2 | e w2]|] eqn:Hfan;
    [ | | discriminate ].
  - pose proof (fan_live _ _ _ _ _ Hw1 Hfan) as Hw2. simpl in Hw2.
    destruct (negb (truthy (_ok (ev w2 (event x)))) &&
              negb (_defused (ev w2 (event x))));
      inversion Hstep; exact Hw2.
  - pose proof (fan_live _ _ _ _ _ Hw1 Hfan) as Hw2.
    inversion Hstep. exact Hw2.
Qed.

Lemma run_loop_live fuel n : forall w r,
  live w -> run_loop fuel n w = Some r -> live (world_of r).
Proof.
  induction n as [|n IH]; intros w r Hw Hrun; [discriminate | ].
  simpl in Hrun.
  destruct (0 <? Heap.size (_queue (env w)))%nat;
    [ | inversion Hrun; exact Hw ].
  destruct (step fuel w) as [[u w' | e w']|] eqn:Hstep; [ | | discriminate ].
  - eapply IH; [ | exact Hrun ]. exact (step_live _ _ _ Hw Hstep).
  - inversion Hrun. exact (step_live _ _ _ Hw Hstep).
Qed.

Lemma run_live fuel until w r :
  live w -> run fuel until w = Some r -> live (world_of r).
Proof.
  intros Hw Hrun. unfold run in Hrun.
  destruct until as [ | t | e | ].
  - eapply run_loop_live; eauto.
  - eapply run_loop_live; eauto.
  - pose proof (keeps_live_push_callback e CbStopSimulation w Hw) as Hp.
    destruct (push_callback e CbStopSimulation w) as [u w' | x w'];
      simpl in Hp.
    + eapply run_loop_live; eauto.
    + inversion Hrun. exact Hp.
  - inversion Hrun. exact Hw.
Qed.

Lemma lift_live {A} (m : M A) w r :
  keeps_live m -> live w -> lift m w = Some r -> live (world_of r).
Proof.
  intros Hm Hw Hl. unfold lift in Hl. specialize (Hm w Hw).
  destruct (m w); inversion Hl; exact Hm.
Qed.

Lemma call_live fuel a w r :
  live w -> call fuel a w = Some r -> live (world_of r).
Proof.
  intros Hw Hcall.
  destruct a; simpl in Hcall;
    try (eapply lift_live; [ | exact Hw | exact Hcall ];
         unfold process, get, put; solve [live]).
  - eapply step_live; eauto.
  - eapply run_live; eauto.
Qed.

Lemma reachable_live allowed t w : reachable_by allowed t w -> live w.
Proof.
  induction 1 as [ | w fuel a r Hr IH Ha Hcall ].
  - intros e x H. destruct e; discriminate.
  - eapply call_live; eauto.
Qed.

(** X12. No call of the interface, [step] and [run] included, ever sets a
    callback list to [null]: in every reachable state [processed] is false
    of every event.  So [_populateValue] finds no processed child, and a
    process that yields an Event always registers its resume callback and
    suspends: the branch of [_resume] for an event that was processed
    already is never taken. *)
Theorem callbacks_never_released (t : Z) (w : World) :
  reachable t w ->
  (forall e, processed w e = false) /\
  (forall children, _populateValue w children = []) /\
  (forall self e next thrown,
     _resume_loop self (CoYield (VEvent e) next thrown) w =
     (let* _ := set_generator self (GenSuspendedYield next thrown) in
      push_callback e (CbResume self)) w).
Proof.
  intros Hreach. pose proof (reachable_live _ _ _ Hreach) as Hlive.
  assert (Hproc : forall w0, live w0 -> forall e, processed w0 e = false).
  { intros w0 Hl e. unfold processed, ev.
    destruct (events w0 !! e) as [x|] eqn:Hx; simpl; [ | reflexivity ].
    specialize (Hl e x Hx). destruct (callbacks x); congruence. }
  split; [exact (Hproc w Hlive) | ]. split.
  - intros l. unfold _populateValue. induction l as [|c l IH]; simpl;
      [reflexivity | ]. rewrite (Hproc w Hlive). exact IH.
  - intros self e next thrown. simpl. unfold bind.
    assert (Hl1 : live (world_of
                     (set_generator self (GenSuspendedYield next thrown) w))).
    { apply (keeps_live_update_event self); [ | exact Hlive ].
      intros x Hx. destruct (class x); simpl; exact Hx. }
    destruct (set_generator self (GenSuspendedYield next thrown) w)
      as [[] w1 | x w1]; [ | reflexivity ].
    simpl in Hl1. pose proof (Hproc w1 Hl1 e) as Hp. unfold processed in Hp.
    destruct (callbacks (ev w1 e)); [reflexivity | discriminate].
Qed.

Lemma callbacks_never_released_witness :
  (forall e, processed and_condition e = false) /\
  (forall children, _populateValue and_condition children = []) /\
  (forall self e next thrown,
     _resume_loop self (CoYield (VEvent e) next thrown) and_condition =
     (let* _ := set_generator self (GenSuspendedYield next thrown) in
      push_callback e (CbResume self)) and_condition).
Proof.
  apply (callbacks_never_released 0 and_condition).
  apply reachable_run_calls; [apply reach_new | ].
  repeat constructor.
Defined.

(** ** core/ConditionValue.ts *)

(** X13. The views of a ConditionValue agree: [get(item)] returns the value of
    [item] exactly when [has(item)], and throws otherwise; [entries()]
    pairs [keys()] with [values()], which lists what [get] returns.  The
    ConditionValue that [_buildValue] stores on a condition in a reachable
    state lists no event, so [get] throws for every child, also for those
    that succeeded. *)
Theorem condition_value_views (w : World) (evs : list EvId) :
  (forall item, ConditionValue_has evs item = true <->
                item ∈ ConditionValue_keys evs) /\
  (forall item, item ∈ evs ->
     ConditionValue_get w evs item = Some (_value (ev w item))) /\
  (forall item, item ∉ evs -> ConditionValue_get w evs item = None) /\
  ConditionValue_entries w evs =
    zip (ConditionValue_keys evs) (ConditionValue_values w evs) /\
  (forall i item, evs !! i = Some item ->
     ConditionValue_values w evs !! i =
       ConditionValue_get w evs item) /\
  (forall t self child,
     reachable t w -> (self < length (events w))%nat ->
     truthy (_ok (ev w child)) = true ->
     exists w', _buildValue self child w = Ok tt w' /\
       _value (ev w' self) = VConditionValue [] /\
       forall item, ConditionValue_get w' [] item = None).
Proof.
  split; [ | split; [ | split; [ | split; [ | split ] ] ] ].
  - intros item. unfold ConditionValue_has, ConditionValue_keys.
    apply bool_decide_eq_true.
  - intros item Hi. unfold ConditionValue_get, ConditionValue_has.
    rewrite bool_decide_eq_true_2 by exact Hi. reflexivity.
  - intros item Hi. unfold ConditionValue_get, ConditionValue_has.
    rewrite bool_decide_eq_false_2 by exact Hi. reflexivity.
  - unfold ConditionValue_entries, ConditionValue_keys, ConditionValue_values.
    induction evs as [|e l IH]; simpl; [reflexivity | ].
    rewrite IH. reflexivity.
  - intros i item Hi. unfold ConditionValue_values, ConditionValue_get,
      ConditionValue_has.
    rewrite list_lookup_fmap, Hi. simpl.
    rewrite bool_decide_eq_true_2; [reflexivity | ].
    apply list_elem_of_lookup. eauto.
  - intros t self child Hreach Hs Hok.
    pose proof (reachable_live _ _ _ Hreach) as Hlive.
    assert (Hpop : forall l, _populateValue w l = []).
    { intros l. unfold _populateValue. induction l as [|c l IH]; simpl;
        [reflexivity | ].
      replace (processed w c) with false; [exact IH | ].
      unfold processed, ev.
      destruct (events w !! c) as [x|] eqn:Hx; simpl;
        [ | reflexivity ].
      specialize (Hlive c x Hx). destruct (callbacks x); congruence. }
    unfold _buildValue, _removeCheckCallbacks, bind, ret, gets, when.
    rewrite Hok, Hpop. eexists. split; [reflexivity | ].
    rewrite ev_alter_eq by exact Hs. split; reflexivity.
Qed.

(** ** Conditions and processes at work *)

(** [_check] on a pending condition, for a successful event. *)
Lemma _check_counted w self child f :
  (self < length (events w))%nat -> child <> self ->
  is_PENDING (_value (ev w self)) = true ->
  _evaluate (ev w self) = Some f ->
  truthy (_ok (ev w child)) = true ->
  exists w', _check self child w = Ok tt w' /\
    length (events w') = length (events w) /\
    (forall y, y <> self -> ev w' y = ev w y) /\
    _count (ev w' self) = _count (ev w self) + 1 /\
    _events (ev w' self) = _events (ev w self) /\
    _evaluate (ev w' self) = Some f /\
    is_PENDING (_value (ev w' self)) =
      negb (apply_evaluate f (_events (ev w self)) (_count (ev w self) + 1)) /\
    (is_PENDING (_value (ev w' self)) = false ->
     _ok (ev w' self) = Some true).
Proof.
  intros Hs Hne Ht Hf Hok.
  set (w1 := with_events (alter (fun x => set_count (_count x + 1) x) self) w).
  assert (Hself1 : ev w1 self = set_count (_count (ev w self) + 1) (ev w self))
    by (unfold w1; rewrite ev_alter_eq by exact Hs; reflexivity).
  assert (Hother1 : forall y, y <> self -> ev w1 y = ev w y)
    by (intros y Hy; unfold w1; apply ev_alter_ne; congruence).
  assert (Hl1 : length (events w1) = length (events w))
    by (unfold w1; apply length_events_alter).
  assert (Hp1 : is_PENDING (_value (ev w1 self)) = true)
    by (rewrite Hself1; exact Ht).
  unfold _check. unfold bind at 1. unfold gets at 1. rewrite Ht.
  cbn [negb]. unfold bind at 1. unfold update_event at 1, modify.
  fold w1. unfold bind at 1. unfold gets at 1.
  rewrite (Hother1 child Hne), Hok. cbn [negb].
  unfold bind at 1. unfold gets at 1.
  rewrite Hself1. cbn [_evaluate set_count _events _count]. rewrite Hf.
  destruct (apply_evaluate f (_events (ev w self)) (_count (ev w self) + 1))
    eqn:Hev.
  - destruct (succeed_pending w1 self (VConditionValue [])) as
      (w' & Hsuc & Hl & _ & _ & Ho & Hself);
      [rewrite Hl1; exact Hs | exact Hp1 | ].
    exists w'. split; [exact Hsuc | ].
    split; [congruence | ].
    split; [intros y Hy; rewrite Ho by exact Hy; auto | ].
    rewrite Hself1 in Hself.
    destruct Hself as [-> | ->]; simpl; repeat split; auto.
  - exists w1. split; [reflexivity | ].
    split; [exact Hl1 | ]. split; [exact Hother1 | ].
    rewrite Hself1. simpl. repeat split; auto. congruence.
Qed.

Lemma existsb_seq_S (g : nat -> bool) n : forall a,
  existsb g (seq (S a) n) = existsb (fun k => g (S k)) (seq a n).
Proof.
  induction n as [|n IH]; intros a; [reflexivity | ].
  simpl. rewrite IH. reflexivity.
Qed.

Lemma existsb_ext_seq (g h : nat -> bool) n a :
  (forall k, g k = h k) -> existsb g (seq a n) = existsb h (seq a n).
Proof.
  intros E. induction (seq a n) as [|x l IH]; [reflexivity | ].
  simpl. rewrite E, IH. reflexivity.
Qed.

(** After [k] calls the count is [c + k] unless the predicate held at an
    earlier count. *)
Lemma check_all_counts self f evs : forall l w,
  (self < length (events w))%nat ->
  is_PENDING (_value (ev w self)) = true ->
  _evaluate (ev w self) = Some f -> _events (ev w self) = evs ->
  (forall c, c ∈ l -> c <> self /\ truthy (_ok (ev w c)) = true) ->
  exists w', check_all self l w = Ok tt w' /\
    triggered w' self =
      existsb (fun k => apply_evaluate f evs (_count (ev w self) + Z.of_nat k))
        (seq 1 (length l)) /\
    (triggered w' self = true -> _ok (ev w' self) = Some true) /\
    (triggered w' self = false ->
     _count (ev w' self) = _count (ev w self) + Z.of_nat (length l)) /\
    (forall c, c <> self -> ev w' c = ev w c).
Proof.
  induction l as [|c l IH]; intros w Hs Hp Hf He Hl.
  - exists w. simpl. unfold triggered. rewrite Hp. simpl.
    repeat split; auto; try discriminate. lia.
  - destruct (Hl c) as [Hc Hok]; [apply elem_of_cons; auto | ].
    destruct (_check_counted w self c f Hs Hc Hp Hf Hok)
      as (w1 & Hck & Hl1 & Ho1 & Hc1 & He1 & Hf1 & Hp1 & Hok1).
    cbn [check_all]. unfold bind at 1. rewrite Hck.
    rewrite He in Hp1.
    cbn [length seq existsb].
    replace (_count (ev w self) + Z.of_nat 1) with (_count (ev w self) + 1)
      by lia.
    destruct (apply_evaluate f evs (_count (ev w self) + 1)) eqn:Hev.
    + (* triggered: the remaining calls return at once *)
      simpl in Hp1.
      assert (Hrest : forall l' : list EvId, check_all self l' w1 = Ok tt w1).
      { induction l' as [|c' l' IH']; [reflexivity | ].
        cbn [check_all]. unfold bind at 1, _check. unfold bind at 1.
        unfold gets at 1. rewrite Hp1. simpl. exact IH'. }
      exists w1. split; [apply Hrest | ].
      unfold triggered. rewrite Hp1. simpl.
      repeat split; auto; discriminate.
    + simpl in Hp1.
      destruct (IH w1) as (w' & Hall & Ht & Hok' & Hcnt & Ho).
      * rewrite Hl1. exact Hs.
      * exact Hp1.
      * exact Hf1.
      * rewrite He1. exact He.
      * intros c' Hc'. destruct (Hl c') as [H1 H2];
          [apply elem_of_cons; auto | ].
        split; [exact H1 | ]. rewrite Ho1 by exact H1. exact H2.
      * exists w'. split; [exact Hall | ].
        split.
        { rewrite Ht. cbn [orb]. rewrite (existsb_seq_S _ (length l) 1).
          apply existsb_ext_seq. intros k. rewrite Hc1. f_equal. lia. }
        split; [exact Hok' | ].
        split.
        { intros Hn. rewrite (Hcnt Hn), Hc1. simpl length. lia. }
        intros c' Hc'. rewrite Ho, Ho1 by exact Hc'. reflexivity.
Qed.

Lemma existsb_all_count n m :
  existsb (fun k => Z.of_nat n =? 0 + Z.of_nat k) (seq 1 m) =
  ((0 <? n)%nat && (n <=? m)%nat).
Proof.
  apply eq_true_iff_eq. rewrite existsb_exists, andb_true_iff.
  rewrite Nat.ltb_lt, Nat.leb_le. split.
  - intros (k & Hk & E). apply in_seq in Hk. apply Z.eqb_eq in E. lia.
  - intros [H1 H2]. exists n. split; [apply in_seq; lia | ].
    apply Z.eqb_eq. lia.
Qed.

Lemma existsb_any_count n m :
  existsb (fun k => (0 <? 0 + Z.of_nat k) || (n =? 0)%nat) (seq 1 m) =
  (0 <? m)%nat.
Proof.
  apply eq_true_iff_eq. rewrite existsb_exists, Nat.ltb_lt. split.
  - intros (k & Hk & _). apply in_seq in Hk. lia.
  - intros H. exists 1%nat. split; [apply in_seq; lia | reflexivity].
Qed.

(** X14. A condition counts the calls of [_check], not its children.  On a
    pending condition whose count is 0, after [_check] has been called for
    the events of any list [l] of successful events, which need not be
    distinct nor be children: with [allEvents] the condition has succeeded
    exactly when it has children and [l] is at least as long as the list
    of children; with [anyEvents] exactly when [l] is not empty; while it
    is pending its count is the length of [l]; no other event is changed.
    So [e0.and(e1)] succeeds once [e0] has been processed twice, with
    [e1] still pending. *)
Theorem condition_counts_calls :
  (forall w self f l,
     (self < length (events w))%nat -> triggered w self = false ->
     _evaluate (ev w self) = Some f -> _count (ev w self) = 0 ->
     (forall c, c ∈ l -> c <> self /\ truthy (_ok (ev w c)) = true) ->
     exists w', check_all self l w = Ok tt w' /\
       triggered w' self =
         match f with
         | allEvents => (0 <? length (_events (ev w self)))%nat &&
                        (length (_events (ev w self)) <=? length l)%nat
         | anyEvents => (0 <? length l)%nat
         end /\
       (triggered w' self = true -> _ok (ev w' self) = Some true) /\
       (triggered w' self = false ->
        _count (ev w' self) = Z.of_nat (length l)) /\
       (forall c, c <> self -> ev w' c = ev w c)) /\
  (forall t0 v,
     triggered (processed_twice t0 v) 2%nat = true /\
     _ok (ev (processed_twice t0 v) 2%nat) = Some true /\
     _count (ev (processed_twice t0 v) 2%nat) = 2 /\
     triggered (processed_twice t0 v) 1%nat = false).
Proof.
  split.
  - intros w self f l Hs Ht Hf Hc Hl.
    unfold triggered in Ht. apply negb_false_iff in Ht.
    destruct (check_all_counts self f (_events (ev w self)) l w Hs Ht Hf
                eq_refl Hl) as (w' & Hall & Htr & Hok & Hcnt & Ho).
    exists w'. split; [exact Hall | ].
    split; [ | split; [exact Hok | split; [ | exact Ho ]]].
    + rewrite Htr, Hc. destruct f; simpl apply_evaluate.
      * apply existsb_all_count.
      * apply existsb_any_count.
    + intros Hn. rewrite (Hcnt Hn), Hc. lia.
  - intros t0 v. destruct t0; vm_compute; repeat split.
Qed.

Lemma condition_counts_calls_witness :
  exists w', check_all 2%nat [0%nat; 1%nat] both_succeeded = Ok tt w' /\
    triggered w' 2%nat =
      ((0 <? length (_events (ev both_succeeded 2%nat)))%nat &&
       (length (_events (ev both_succeeded 2%nat)) <=? 2)%nat) /\
    (triggered w' 2%nat = true -> _ok (ev w' 2%nat) = Some true) /\
    (triggered w' 2%nat = false -> _count (ev w' 2%nat) = Z.of_nat 2) /\
    (forall c, c <> 2%nat -> ev w' c = ev both_succeeded c).
Proof.
  apply (proj1 condition_counts_calls both_succeeded 2%nat allEvents
           [0%nat; 1%nat]).
  - vm_compute. lia.
  - reflexivity.
  - reflexivity.
  - reflexivity.
  - intros c Hc. apply elem_of_cons in Hc. destruct Hc as [-> | Hc].
    + split; [discriminate | reflexivity].
    + apply list_elem_of_singleton in Hc. subst c.
      split; [discriminate | reflexivity].
Defined.

(** X19. Catching the failure of an awaited event inside a process does not
    defuse the event: the process completes with the caught Error as its
    value, and the [step] that processed the failed event still throws the
    Error out of [run]. *)
Theorem caught_failure_still_raised (t0 : Z) (k : ErrKind) (fuel : nat) :
  exists w',
    run (3 + fuel) UntilNull (catching_program t0 k) =
      Some (Throw (VError k) w') /\
    _ok (ev w' 1%nat) = Some true /\
    _value (ev w' 1%nat) = VError k /\
    generator_of w' 1%nat = GenCompleted /\
    _defused (ev w' 0%nat) = false /\
    now w' = now (catching_program t0 k).
Proof.
  destruct t0;
    (eexists; split; [vm_compute; reflexivity | ];
     repeat split; vm_compute; reflexivity).
Qed.




(** ** events/Timeout.ts and events/Process.ts at work *)



(** X16. [_resume] never throws.  Whatever the generator does, the call returns
    normally with [activeProcess] reset to [null]; an exception that leaves
    the generator becomes the failure value of the process, which is then
    scheduled. *)
Theorem resume_never_throws (self event : EvId) (w : World) :
  exists w', _resume self event w = Ok tt w' /\
    activeProcess (env w') = None /\
    (forall e w1,
       _resume_enter self event (world_of (set_activeProcess (Some self) w)) =
         Throw e w1 ->
       (self < length (events w1))%nat ->
       _ok (ev w' self) = Some false /\
       _value (ev w' self) = e /\
       _scheduled (ev w' self) = true /\
       _queue (env w') =
         Heap.push queue_compare
           (mkItem (now w1) (priority_class NORMAL) (_eid (env w1)) self)
           (_queue (env w1))).
Proof.
  unfold _resume, bind at 1, finally, try_catch. simpl.
  destruct (_resume_enter self event _) as [[] w1 | e w1] eqn:Henter.
  - eexists. split; [reflexivity | ]. split; [reflexivity | ].
    intros e w2 H. discriminate H.
  - unfold bind, update_event, schedule, modify. simpl.
    eexists. split; [reflexivity | ]. split; [reflexivity | ].
    intros e' w2 H Hs. inversion H; subst e' w2. clear H.
    assert (Hev :
      ev (with_events (alter (set_scheduled true) self)
            (with_env (enqueue self NORMAL 0)
               (with_events (alter (set_value e) self)
                  (with_events (alter (set_ok (Some false)) self) w1))))
         self =
      set_scheduled true (set_value e (set_ok (Some false) (ev w1 self)))).
    { rewrite ev_alter_eq by (simpl; rewrite !length_alter; exact Hs).
      rewrite ev_with_env.
      rewrite ev_alter_eq by (rewrite length_events_alter; exact Hs).
      rewrite ev_alter_eq by exact Hs. reflexivity. }
    rewrite !ev_with_env, Hev. simpl. unfold now. rewrite Z.add_0_r.
    repeat split.
Qed.

(** X17. A process that waits for a Timeout and returns [v]: [run] ends at
    [now + d] with the process succeeded with [v].  The completed process is
    not put on the queue, so a callback waiting on it is never called. *)
Theorem process_completion_is_silent (t0 d : Z) (v : Value) (tag : string)
  (fuel : nat) :
  0 <= d ->
  exists w',
    run (4 + fuel) UntilNull (sleeper_program t0 d v tag) = Some (Ok tt w') /\
    now w' = t0 + d /\
    _ok (ev w' 0%nat) = Some true /\
    _value (ev w' 0%nat) = v /\
    generator_of w' 0%nat = GenCompleted /\
    _scheduled (ev w' 0%nat) = false /\
    callbacks (ev w' 0%nat) = Some [CbUser tag] /\
    results w' = [] /\
    _queue (env w') = [].
Proof.
  intros Hd.
  destruct t0 as [|q|q], d as [|p|p]; try lia;
    (eexists; split; [vm_compute; reflexivity | ];
     repeat split; vm_compute; reflexivity).
Qed.

Lemma process_completion_is_silent_witness :
  exists w',
    run (4 + 0) UntilNull (sleeper_program 0 3 (VNum 42) "done") =
      Some (Ok tt w') /\
    now w' = 0 + 3 /\
    _ok (ev w' 0%nat) = Some true /\
    _value (ev w' 0%nat) = VNum 42 /\
    generator_of w' 0%nat = GenCompleted /\
    _scheduled (ev w' 0%nat) = false /\
    callbacks (ev w' 0%nat) = Some [CbUser "done"] /\
    results w' = [] /\
    _queue (env w') = [].
Proof. apply (process_completion_is_silent 0 3 (VNum 42) "done" 0). lia. Defined.

(** X18. A process whose generator yields something that is not an Event fails
    with the Invalid Yield error: the error is caught in [_resume], the
    process is scheduled as a failed event, and the [step] that processes it
    throws the error out of [run]. *)
Theorem invalid_yield_fails_process (t0 : Z) (y : Value)
  (next thrown : Value -> Coroutine) (fuel : nat) :
  (forall e, y <> VEvent e) ->
  exists w',
    run (3 + fuel) UntilNull (yielding_program t0 y next thrown) =
      Some (Throw (VError InvalidYield) w') /\
    now w' = t0 /\
    _ok (ev w' 0%nat) = Some false /\
    _value (ev w' 0%nat) = VError InvalidYield /\
    activeProcess (env w') = None /\
    _queue (env w') = [].
Proof.
  intros Hy.
  destruct y; try (exfalso; apply (Hy e); reflexivity);
    destruct t0 as [|q|q];
    (eexists; split; [vm_compute; reflexivity | ];
     repeat split; vm_compute; reflexivity).
Qed.

Lemma invalid_yield_fails_process_witness :
  exists w',
    run (3 + 0) UntilNull
      (yielding_program 0 (VNum 1) (fun _ => CoReturn VNull)
         (fun e => CoThrow e)) =
      Some (Throw (VError InvalidYield) w') /\
    now w' = 0 /\
    _ok (ev w' 0%nat) = Some false /\
    _value (ev w' 0%nat) = VError InvalidYield /\
    activeProcess (env w') = None /\
    _queue (env w') = [].
Proof.
  apply (invalid_yield_fails_process 0 (VNum 1) (fun _ => CoReturn VNull)
           (fun e => CoThrow e) 0).
  discriminate.
Defined.

(** ** resources: requests, the queues and cancellation *)

Lemma geb_false x a : (x >=? a) = false <-> x < a.
Proof. rewrite Z.geb_leb. apply Z.leb_gt. Qed.

(** X21. Head-of-line blocking: when the first request of a queue cannot be
    granted, [_triggerGet] (and [_triggerPut]) stops there and changes
    nothing, whatever the requests behind it ask for. *)
Theorem head_of_line_blocks (w : World) (r : ResId) (R : Resource)
  (e : EvId) (a : Z) (p : option EvId) (rest : list EvId) :
  resources w !! r = Some R -> queued_ok w e ->
  (getQueue R = e :: rest -> class (ev w e) = IsGetResource r a p ->
   capacity R - Z.of_nat (length (users R)) < a ->
   _triggerGet r w = Ok tt w) /\
  (putQueue R = e :: rest -> class (ev w e) = IsPutResource r a p ->
   Z.of_nat (length (users R)) < a ->
   _triggerPut r w = Ok tt w).
Proof.
  intros HR Hq. pose proof Hq as [_ Hp]. split; intros Hqueue Hc Hlt.
  - unfold _triggerGet, bind, gets. rewrite (res_lookup _ _ _ HR), Hqueue.
    cbn [length]. rewrite _triggerGet_loop_S, (res_lookup _ _ _ HR), Hqueue.
    cbn [lookup list_lookup].
    destruct (_doGet_spec w r R e a p HR Hc Hq) as [_ Hno].
    rewrite Hno by (apply geb_false; exact Hlt).
    unfold triggered. rewrite Hp. reflexivity.
  - unfold _triggerPut, bind, gets. rewrite (res_lookup _ _ _ HR), Hqueue.
    cbn [length]. rewrite _triggerPut_loop_S, (res_lookup _ _ _ HR), Hqueue.
    cbn [lookup list_lookup].
    destruct (_doPut_spec w r R e a p HR Hc Hq) as [_ Hno].
    rewrite Hno by (apply geb_false; exact Hlt).
    unfold triggered. rewrite Hp. reflexivity.
Qed.

Lemma head_of_line_blocks_witness :
  (getQueue (res blocked 0%nat) = [1%nat; 2%nat] ->
   class (ev blocked 1%nat) = IsGetResource 0%nat 2 None ->
   capacity (res blocked 0%nat) -
     Z.of_nat (length (users (res blocked 0%nat))) < 2 ->
   _triggerGet 0%nat blocked = Ok tt blocked) /\
  (putQueue (res blocked 0%nat) = [1%nat; 2%nat] ->
   class (ev blocked 1%nat) = IsPutResource 0%nat 2 None ->
   Z.of_nat (length (users (res blocked 0%nat))) < 2 ->
   _triggerPut 0%nat blocked = Ok tt blocked).
Proof.
  apply (head_of_line_blocks blocked 0%nat (res blocked 0%nat) 1%nat 2 None
           [2%nat]).
  - reflexivity.
  - split; [vm_compute; lia | reflexivity].
Defined.

Lemma bind_Ok {A B} (m : M A) (k : A -> M B) w a w' :
  m w = Ok a w' -> bind m k w = k a w'.
Proof. intros H. unfold bind. rewrite H. reflexivity. Qed.

Lemma res_alter_eq f w r R :
  resources w !! r = Some R -> res (with_resources (alter f r) w) r = f R.
Proof.
  intros HR. unfold res, with_resources. simpl.
  rewrite list_lookup_alter_eq, HR. reflexivity.
Qed.

(** X23. A release of an integer amount on a resource on which no release
    waits: it is granted at once when at least [amount] units are in use,
    and the user count drops by the amount; otherwise it stays pending,
    alone in the put queue.  Either way the new event carries the
    resource's [_triggerGet] as its callback.  The test and the loop of
    [_doPut] are those on any amount, integer or not, where a granted
    release takes the amount rounded up away from the users. *)
Theorem release_granted_or_queued (w : World) (r : ResId) (R : Resource)
  (a : Z) :
  resources w !! r = Some R -> putQueue R = [] -> 0 < a ->
  (exists w',
     put r a w = Ok (length (events w)) w' /\
     length (events w') = S (length (events w)) /\
     callbacks (ev w' (length (events w))) = Some [CbTriggerGet r] /\
     if a <=? Z.of_nat (length (users R))
     then triggered w' (length (events w)) = true /\
          _ok (ev w' (length (events w))) = Some true /\
          user_count w' r = user_count w r - a /\
          putQueue (res w' r) = []
     else triggered w' (length (events w)) = false /\
          user_count w' r = user_count w r /\
          putQueue (res w' r) = [length (events w)]) /\
  (forall c,
     Fractional._doPut (inject_Z a) (Fractional.mk c (users R)) =
     if Z.of_nat (length (users R)) >=? a
     then (true, Fractional.mk c (pop_users a (users R)))
     else (false, Fractional.mk c (users R))) /\
  (forall amount F F', Fractional._doPut amount F = (true, F') ->
     (amount <= inject_Z (Z.of_nat (length (Fractional.users F))))%Q /\
     Fractional.capacity F' = Fractional.capacity F /\
     length (Fractional.users F') =
       (length (Fractional.users F) - Z.to_nat (Qceiling amount))%nat).
Proof.
  intros HR Hp Ha.
  split; [ | split; [intros c; apply Fractional_doPut_integer
                    | exact Fractional_doPut_granted]].
  unfold put, PutResource_new, Event_new, bind at 1 2 3 4, alloc_event, when, gets.
  simpl.
  replace (a <=? 0) with false by (symmetry; apply Z.leb_gt; exact Ha).
  set (self := length (events w)).
  set (x0 := mkEvent (Some []) None false PENDING false None [] 0
               (IsPutResource r a (activeProcess (env w)))).
  set (w1 := with_events (fun l => l ++ [x0]) w).
  set (w2 := with_resources
               (alter (fun R0 => set_putQueue (putQueue R0 ++ [self]) R0) r) w1).
  set (w3 := with_events
               (alter (set_callbacks (Some ([] ++ [CbTriggerGet r]))) self) w2).
  assert (Hev1 : ev w1 self = x0).
  { unfold w1, self. rewrite ev_alloc.
    destruct (decide (length (events w) = length (events w))); congruence. }
  assert (Hl1 : length (events w1) = S self).
  { unfold w1, with_events. simpl. rewrite length_app. simpl. unfold self. lia. }
  assert (HR3 : resources w3 !! r = Some (set_putQueue [self] R)).
  { unfold w3, w2, with_events, with_resources. simpl.
    rewrite list_lookup_alter_eq, HR. simpl. rewrite Hp. reflexivity. }
  assert (Hev3 : ev w3 self = set_callbacks (Some [CbTriggerGet r]) x0).
  { unfold w3.
    rewrite ev_alter_eq by (change (events w2) with (events w1); lia).
    change (ev w2 self) with (ev w1 self). rewrite Hev1. reflexivity. }
  assert (H1 : update_resource r
                 (fun R0 => set_putQueue (putQueue R0 ++ [self]) R0) w1 =
               Ok tt w2) by reflexivity.
  assert (H2 : push_callback self (CbTriggerGet r) w2 = Ok tt w3).
  { unfold push_callback, bind, gets.
    change (ev w2 self) with (ev w1 self). rewrite Hev1. reflexivity. }
  rewrite (bind_Ok _ _ _ _ _ H1), (bind_Ok _ _ _ _ _ H2).
  assert (Hq3 : queued_ok w3 self).
  { split; [ | rewrite Hev3; reflexivity ].
    unfold w3. rewrite length_events_alter.
    change (events w2) with (events w1). lia. }
  assert (Hstart : _triggerPut r w3 =
            match _doPut r self w3 with
            | Ok proceed w4 =>
                if triggered w4 self then
                  if negb proceed
                  then Ok tt (with_resources
                                (alter (fun R0 => set_putQueue
                                          (delete 0%nat (putQueue R0)) R0) r) w4)
                  else Ok tt (with_resources
                                (alter (fun R0 => set_putQueue
                                          (delete 0%nat (putQueue R0)) R0) r) w4)
                else if negb proceed then Ok tt w4
                     else _triggerPut_loop 0 r 1%nat w4
            | Throw e w4 => Throw e w4
            end).
  { unfold _triggerPut, bind, gets. rewrite (res_lookup _ _ _ HR3). simpl length.
    rewrite _triggerPut_loop_S, (res_lookup _ _ _ HR3). reflexivity. }
  assert (Hdo : _doPut r self w3 =
            if Z.of_nat (length (users R)) >=? a then
              (let* _ := succeed self VNull in ret true)
                (with_resources
                   (alter (set_users (pop_users a (users R))) r) w3)
            else Ok false w3).
  { unfold _doPut, bind at 1 2, gets. rewrite (res_lookup _ _ _ HR3).
    unfold amount_of. rewrite Hev3. simpl.
    destruct (Z.of_nat (length (users R)) >=? a); reflexivity. }
  rewrite Z.geb_leb in Hdo.
  destruct (a <=? Z.of_nat (length (users R))) eqn:Hav.
  - set (w3' := with_resources
                  (alter (set_users (pop_users a (users R))) r) w3) in *.
    destruct (succeed_pending w3' self VNull) as
      (w4 & Hsuc & Hl4 & Hr4 & _ & _ & Hself).
    { destruct Hq3 as [Hq3 _]. exact Hq3. }
    { change (ev w3' self) with (ev w3 self). rewrite Hev3. reflexivity. }
    rewrite (bind_Ok _ _ _ _ _ Hsuc) in Hdo. unfold ret in Hdo.
    assert (Hfacts : is_PENDING (_value (ev w4 self)) = false /\
                     _ok (ev w4 self) = Some true /\
                     callbacks (ev w4 self) = Some [CbTriggerGet r]).
    { change (ev w3' self) with (ev w3 self) in Hself. rewrite Hev3 in Hself.
      destruct Hself as [-> | ->]; repeat split. }
    destruct Hfacts as (Hnp & Hok & Hcb).
    rewrite Hdo in Hstart. unfold triggered in Hstart. rewrite Hnp in Hstart.
    simpl in Hstart.
    rewrite (bind_Ok _ _ _ _ _ Hstart). unfold ret.
    eexists. split; [reflexivity | ].
    split.
    { simpl. rewrite Hl4. unfold w3', w3. simpl. rewrite length_alter.
      exact Hl1. }
    assert (HR4 : resources w4 !! r =
                  Some (set_users (pop_users a (users R)) (set_putQueue [self] R))).
    { rewrite Hr4.
      change (resources w3')
        with (alter (set_users (pop_users a (users R))) r (resources w3)).
      rewrite list_lookup_alter_eq, HR3. reflexivity. }
    unfold triggered, user_count.
    rewrite (res_alter_eq _ _ _ _ HR4), (res_lookup _ _ _ HR).
    change (ev (with_resources ?f w4) self) with (ev w4 self).
    rewrite Hnp, Hok, Hcb. simpl. rewrite length_pop_users.
    apply Z.leb_le in Hav. repeat split. lia.
  - rewrite Hdo in Hstart. unfold triggered in Hstart.
    destruct Hq3 as [_ Hq3]. rewrite Hq3 in Hstart. simpl in Hstart.
    rewrite (bind_Ok _ _ _ _ _ Hstart). unfold ret.
    exists w3. split; [reflexivity | ].
    split.
    { unfold w3. rewrite length_events_alter. exact Hl1. }
    unfold triggered, user_count.
    rewrite Hq3, Hev3, (res_lookup _ _ _ HR3), (res_lookup _ _ _ HR).
    repeat split.
Qed.

Lemma release_granted_or_queued_witness :
  (exists w',
     put 0%nat 1 in_use = Ok (length (events in_use)) w' /\
     length (events w') = S (length (events in_use)) /\
     callbacks (ev w' (length (events in_use))) = Some [CbTriggerGet 0%nat] /\
     if 1 <=? Z.of_nat (length (users (res in_use 0%nat)))
     then triggered w' (length (events in_use)) = true /\
          _ok (ev w' (length (events in_use))) = Some true /\
          user_count w' 0%nat = user_count in_use 0%nat - 1 /\
          putQueue (res w' 0%nat) = []
     else triggered w' (length (events in_use)) = false /\
          user_count w' 0%nat = user_count in_use 0%nat /\
          putQueue (res w' 0%nat) = [length (events in_use)]) /\
  (forall c,
     Fractional._doPut (inject_Z 1)
       (Fractional.mk c (users (res in_use 0%nat))) =
     if Z.of_nat (length (users (res in_use 0%nat))) >=? 1
     then (true, Fractional.mk c (pop_users 1 (users (res in_use 0%nat))))
     else (false, Fractional.mk c (users (res in_use 0%nat)))) /\
  (forall amount F F', Fractional._doPut amount F = (true, F') ->
     (amount <= inject_Z (Z.of_nat (length (Fractional.users F))))%Q /\
     Fractional.capacity F' = Fractional.capacity F /\
     length (Fractional.users F') =
       (length (Fractional.users F) - Z.to_nat (Qceiling amount))%nat).
Proof.
  apply (release_granted_or_queued in_use 0%nat (res in_use 0%nat) 1).
  - reflexivity.
  - reflexivity.
  - lia.
Defined.









(** ** monitoring/Logger.ts *)

Lemma log_config e t L :
  Logger.logLevel (Logger.log e t L) = Logger.logLevel L /\
  Logger.maxLogEntries (Logger.log e t L) = Logger.maxLogEntries L.
Proof.
  unfold Logger.log. destruct (negb _); split; reflexivity.
Qed.

Lemma log_all_config es : forall L,
  Logger.logLevel (Logger.log_all es L) = Logger.logLevel L /\
  Logger.maxLogEntries (Logger.log_all es L) = Logger.maxLogEntries L.
Proof.
  induction es as [|x es IH]; intros L; simpl; [auto | ].
  destruct (IH (Logger.log (fst x) (snd x) L)) as [H1 H2].
  destruct (log_config (fst x) (snd x) L) as [H3 H4].
  unfold Logger.log_all in *. simpl. split; congruence.
Qed.

(** Appending to the last [Z.to_nat m] elements and dropping the oldest
    when there are more than [m]. *)
Lemma window_snoc {A} (m : Z) (l : list A) (x : A) :
  (if Z.of_nat (length (drop (length l - Z.to_nat m) l ++ [x])) >? m
   then drop 1 (drop (length l - Z.to_nat m) l ++ [x])
   else drop (length l - Z.to_nat m) l ++ [x]) =
  drop (length (l ++ [x]) - Z.to_nat m) (l ++ [x]).
Proof.
  rewrite !length_app, length_drop. simpl.
  destruct (Z.gtb_spec
              (Z.of_nat (length l - (length l - Z.to_nat m) + 1)) m) as [H | H].
  - replace (length l + 1 - Z.to_nat m)%nat
      with ((length l - Z.to_nat m) + 1)%nat by lia.
    rewrite <- drop_drop. f_equal.
    rewrite drop_app_le by lia. reflexivity.
  - replace (length l + 1 - Z.to_nat m)%nat with 0%nat by lia.
    replace (length l - Z.to_nat m)%nat with 0%nat by lia.
    reflexivity.
Qed.

Lemma log_all_snoc es x L :
  Logger.log_all (es ++ [x]) L =
  Logger.log (fst x) (snd x) (Logger.log_all es L).
Proof. unfold Logger.log_all. rewrite fold_left_app. reflexivity. Qed.

Lemma accepted_snoc L es x :
  Logger.accepted L (es ++ [x]) =
  Logger.accepted L es ++
    (if Logger.shouldLog L (Logger.level (fst x))
     then [Logger.set_timestamp (snd x) (fst x)] else []).
Proof.
  unfold Logger.accepted. rewrite List.filter_app, map_app. simpl.
  destruct (Logger.shouldLog L (Logger.level (fst x))); reflexivity.
Qed.

Lemma log_entries e t L :
  Logger.logEntries (Logger.log e t L) =
  if Logger.shouldLog L (Logger.level e) then
    if Z.of_nat (length (Logger.logEntries L ++ [Logger.set_timestamp t e]))
       >? Logger.maxLogEntries L
    then drop 1 (Logger.logEntries L ++ [Logger.set_timestamp t e])
    else Logger.logEntries L ++ [Logger.set_timestamp t e]
  else Logger.logEntries L.
Proof.
  unfold Logger.log.
  destruct (Logger.shouldLog L (Logger.level e)); reflexivity.
Qed.

(** [Logger.log] keeps the last [maxLogEntries] of the entries that passed
    the level, each stamped with the clock reading of its call. *)
Lemma log_all_window (logLevel : Logger.LogLevel) (maxLogEntries : Z)
  (es : list (Logger.BaseLogEntry * Z)) :
  Logger.logEntries (Logger.log_all es (Logger.new logLevel maxLogEntries)) =
  drop (length (Logger.accepted (Logger.new logLevel maxLogEntries) es)
        - Z.to_nat maxLogEntries)
    (Logger.accepted (Logger.new logLevel maxLogEntries) es).
Proof.
  set (L0 := Logger.new logLevel maxLogEntries).
  induction es as [|x es IH] using rev_ind; [reflexivity | ].
  rewrite log_all_snoc, accepted_snoc, log_entries.
  destruct (log_all_config es L0) as [Hlv Hmax].
  replace (Logger.shouldLog (Logger.log_all es L0) (Logger.level (fst x)))
    with (Logger.shouldLog L0 (Logger.level (fst x)))
    by (unfold Logger.shouldLog; rewrite Hlv; reflexivity).
  destruct (Logger.shouldLog L0 (Logger.level (fst x))).
  - rewrite Hmax, IH. apply window_snoc.
  - rewrite app_nil_r. exact IH.
Qed.

(** ** monitoring/Logger.ts: the window of entries, by reference *)

Lemma LoggerRefs_log_all_snoc cs c L :
  LoggerRefs.log_all (cs ++ [c]) L =
  LoggerRefs.log (fst c) (snd c) (LoggerRefs.log_all cs L).
Proof. unfold LoggerRefs.log_all. rewrite fold_left_app. reflexivity. Qed.

Lemma last_stamp_snoc_eq r t cs :
  LoggerRefs.last_stamp r (cs ++ [(r, t)]) = Some t.
Proof.
  unfold LoggerRefs.last_stamp. rewrite List.filter_app. simpl.
  rewrite Nat.eqb_refl, last_snoc. reflexivity.
Qed.

Lemma last_stamp_snoc_ne r r' t cs :
  r' <> r ->
  LoggerRefs.last_stamp r (cs ++ [(r', t)]) = LoggerRefs.last_stamp r cs.
Proof.
  intros Hne. unfold LoggerRefs.last_stamp. rewrite List.filter_app. simpl.
  destruct (Nat.eqb_spec r' r); [congruence | ].
  rewrite app_nil_r. reflexivity.
Qed.

Lemma set_timestamp_stamped t o s :
  Logger.set_timestamp t (LoggerRefs.stamped o s) = Logger.set_timestamp t o.
Proof. destruct s; reflexivity. Qed.

Lemma level_stamped o s :
  Logger.level (LoggerRefs.stamped o s) = Logger.level o.
Proof. destruct s; reflexivity. Qed.

(** The state of the logger after a run of calls. *)
Lemma LoggerRefs_log_all_spec lv mx objs cs :
  LoggerRefs.logLevel (LoggerRefs.log_all cs (LoggerRefs.new lv mx objs)) = lv /\
  LoggerRefs.maxLogEntries (LoggerRefs.log_all cs (LoggerRefs.new lv mx objs))
    = mx /\
  LoggerRefs.logEntries (LoggerRefs.log_all cs (LoggerRefs.new lv mx objs)) =
    drop (length (LoggerRefs.accepted lv objs cs) - Z.to_nat mx)
      (map fst (LoggerRefs.accepted lv objs cs)) /\
  length (LoggerRefs.objects (LoggerRefs.log_all cs (LoggerRefs.new lv mx objs)))
    = length objs /\
  (forall r o, objs !! r = Some o ->
     LoggerRefs.objects (LoggerRefs.log_all cs (LoggerRefs.new lv mx objs)) !! r =
     Some (LoggerRefs.stamped o
             (LoggerRefs.last_stamp r (LoggerRefs.accepted lv objs cs)))).
Proof.
  induction cs as [|[r t] cs IH] using rev_ind.
  - simpl. repeat split; auto.
  - destruct IH as (Hlv & Hmx & Hrefs & Hlen & Hobj).
    rewrite LoggerRefs_log_all_snoc. cbn [fst snd].
    set (L := LoggerRefs.log_all cs (LoggerRefs.new lv mx objs)) in *.
    unfold LoggerRefs.accepted. rewrite List.filter_app.
    fold (LoggerRefs.accepted lv objs cs). cbn [List.filter fst].
    unfold LoggerRefs.log.
    destruct (objs !! r) as [o|] eqn:Ho.
    + rewrite (Hobj r o Ho).
      unfold LoggerRefs.shouldLog. rewrite level_stamped, Hlv.
      destruct (Logger.LOG_LEVELS (Logger.level o) >=? Logger.LOG_LEVELS lv).
      * cbn [negb LoggerRefs.logLevel LoggerRefs.maxLogEntries
               LoggerRefs.logEntries LoggerRefs.objects].
        split; [auto | ]. split; [auto | ].
        split; [ | split ].
        { rewrite ?Hmx, Hrefs, map_app. cbn [map fst].
          replace (length (LoggerRefs.accepted lv objs cs ++ [(r, t)]))
            with (length (map fst (LoggerRefs.accepted lv objs cs) ++ [r]))
            by (rewrite !length_app, length_map; reflexivity).
          rewrite <- (length_map fst (LoggerRefs.accepted lv objs cs)).
          apply window_snoc. }
        { rewrite length_insert. exact Hlen. }
        { intros r' o' Ho'. destruct (decide (r' = r)) as [-> | Hne].
          - rewrite list_lookup_insert_eq
              by (rewrite Hlen; apply lookup_lt_is_Some; eauto).
            rewrite last_stamp_snoc_eq, set_timestamp_stamped.
            simpl. congruence.
          - rewrite list_lookup_insert_ne by congruence.
            rewrite last_stamp_snoc_ne by congruence.
            apply Hobj. exact Ho'. }
      * cbn [negb]. rewrite app_nil_r. repeat split; auto.
    + assert (HL : LoggerRefs.objects L !! r = None).
      { apply lookup_ge_None. rewrite Hlen. apply lookup_ge_None. exact Ho. }
      rewrite HL, app_nil_r. repeat split; auto.
Qed.

Lemma filter_fst_NoDup (r : nat) (t : Z) (cs : list (nat * Z)) :
  NoDup (map fst cs) -> (r, t) ∈ cs ->
  List.filter (fun c => (fst c =? r)%nat) cs = [(r, t)].
Proof.
  induction cs as [|[r' t'] cs IH]; intros Hnd Hin; [inversion Hin | ].
  simpl in Hnd. apply NoDup_cons in Hnd. destruct Hnd as [Hr' Hnd].
  assert (Hnone : forall l : list (nat * Z), r ∉ map fst l ->
            List.filter (fun c => (fst c =? r)%nat) l = []).
  { induction l as [|[a b] l IHl]; intros Hl; [reflexivity | ].
    simpl in *. apply not_elem_of_cons in Hl. destruct Hl as [Hab Hl].
    destruct (Nat.eqb_spec a r); [congruence | ]. apply IHl. exact Hl. }
  apply elem_of_cons in Hin. simpl. destruct Hin as [Hin | Hin].
  - inversion Hin; subst r' t'. rewrite Nat.eqb_refl.
    rewrite Hnone by exact Hr'. reflexivity.
  - destruct (Nat.eqb_spec r' r) as [-> | Hne].
    + exfalso. apply Hr'. apply list_elem_of_fmap. exists (r, t). auto.
    + apply IH; assumption.
Qed.

(** Pairwise distinct objects are each shown with the clock reading of
    their own call. *)
Lemma LoggerRefs_distinct_entries lv mx objs cs :
  NoDup (map fst (LoggerRefs.accepted lv objs cs)) ->
  LoggerRefs.getLogEntries (LoggerRefs.log_all cs (LoggerRefs.new lv mx objs)) =
  map (fun c => option_map (Logger.set_timestamp (snd c)) (objs !! fst c))
    (drop (length (LoggerRefs.accepted lv objs cs) - Z.to_nat mx)
       (LoggerRefs.accepted lv objs cs)).
Proof.
  destruct (LoggerRefs_log_all_spec lv mx objs cs)
    as (_ & _ & Hrefs & _ & Hobj).
  intros Hnd. unfold LoggerRefs.getLogEntries. rewrite Hrefs.
  set (acc := LoggerRefs.accepted lv objs cs) in *.
  rewrite skipn_map, map_map.
  apply map_ext_in. intros [r t] Hin. cbn [fst snd].
  assert (Hacc : (r, t) ∈ acc).
  { rewrite <- (take_drop (length acc - Z.to_nat mx) acc).
    apply elem_of_app. right. apply list_elem_of_In. exact Hin. }
  assert (Hsome : exists o, objs !! r = Some o).
  { unfold acc, LoggerRefs.accepted in Hacc.
    apply list_elem_of_In, filter_In in Hacc. destruct Hacc as [_ Hacc].
    cbn [fst] in Hacc. destruct (objs !! r); [eauto | discriminate]. }
  destruct Hsome as [o Ho]. rewrite (Hobj r o Ho), Ho.
  unfold LoggerRefs.last_stamp.
  rewrite (filter_fst_NoDup r t acc Hnd Hacc). reflexivity.
Qed.


(** When the calls bring pairwise distinct objects, the logger with
    references shows what [Logger.log], which takes entries by value,
    stores. *)
Lemma Forall2_filter_sync {A B} (R : A -> B -> Prop) (p : A -> bool)
  (q : B -> bool) l1 l2 :
  Forall2 R l1 l2 -> (forall a b, R a b -> p a = q b) ->
  Forall2 R (List.filter p l1) (List.filter q l2).
Proof.
  intros H Hpq. induction H as [|a b l1 l2 Hab H IH]; [constructor | ].
  simpl. rewrite (Hpq a b Hab). destruct (q b); [constructor | ]; auto.
Qed.

Lemma Forall2_map_eq {A B C} (f : A -> C) (g : B -> C) l1 l2 :
  Forall2 (fun a b => f a = g b) l1 l2 -> map f l1 = map g l2.
Proof.
  induction 1 as [|a b l1 l2 Hab H IH]; [reflexivity | ].
  simpl. rewrite Hab, IH. reflexivity.
Qed.

Lemma NoDup_map_filter {A B} (f : A -> B) (p : A -> bool) l :
  NoDup (map f l) -> NoDup (map f (List.filter p l)).
Proof.
  induction l as [|a l IH]; intros Hnd; [constructor | ].
  simpl in Hnd. apply NoDup_cons in Hnd. destruct Hnd as [Ha Hnd].
  simpl. destruct (p a); [ | auto ].
  simpl. constructor; [ | auto ].
  intros Hin. apply Ha. apply list_elem_of_fmap in Hin.
  destruct Hin as (y & Hy & Hyl). apply list_elem_of_fmap. exists y.
  split; [exact Hy | ].
  apply list_elem_of_In. apply list_elem_of_In, filter_In in Hyl. tauto.
Qed.

Lemma LoggerRefs_agrees lv mx objs cs es :
  Forall2 (fun c e => objs !! fst c = Some (fst e) /\ snd c = snd e) cs es ->
  NoDup (map fst cs) ->
  LoggerRefs.getLogEntries (LoggerRefs.log_all cs (LoggerRefs.new lv mx objs)) =
  map Some (Logger.logEntries (Logger.log_all es (Logger.new lv mx))).
Proof.
  intros HR Hnd.
  rewrite LoggerRefs_distinct_entries
    by (apply NoDup_map_filter; exact Hnd).
  rewrite log_all_window.
  unfold Logger.accepted, LoggerRefs.accepted.
  match goal with
  | |- context [List.filter ?p cs] => set (fr := List.filter p cs)
  end.
  match goal with
  | |- context [List.filter ?q es] => set (fv := List.filter q es)
  end.
  assert (HF : Forall2 (fun c e => objs !! fst c = Some (fst e) /\
                                   snd c = snd e) fr fv).
  { apply Forall2_filter_sync; [exact HR | ].
    intros c e [Hc _]. rewrite Hc. reflexivity. }
  rewrite !length_map, <- (Forall2_length _ _ _ HF).
  rewrite skipn_map, map_map.
  apply Forall2_map_eq.
  eapply Forall2_impl; [apply Forall2_drop; exact HF | ].
  intros c e [Hc Ht]. simpl. rewrite Hc, Ht. reflexivity.
Qed.

(** X26. The logger keeps a window of references to the latest entry
    objects, and writes into the objects it is given.  After any run of
    [log] calls on a new logger, [logEntries] holds the last
    [maxLogEntries] of the references whose object passed the level, in
    the order of the calls, and each object carries the clock reading of
    the last such call on it.  When the calls bring pairwise distinct
    objects, [getLogEntries] shows each entry with the reading of its own
    call, which is what [Logger.log], taking entries by value, stores; an
    object logged twice is shown twice with the later reading. *)
Theorem log_keeps_latest :
  (forall logLevel maxLogEntries objs cs,
     LoggerRefs.logEntries
       (LoggerRefs.log_all cs (LoggerRefs.new logLevel maxLogEntries objs)) =
     drop (length (LoggerRefs.accepted logLevel objs cs)
           - Z.to_nat maxLogEntries)
       (map fst (LoggerRefs.accepted logLevel objs cs)) /\
     (forall r o, objs !! r = Some o ->
        LoggerRefs.objects
          (LoggerRefs.log_all cs (LoggerRefs.new logLevel maxLogEntries objs))
          !! r =
        Some (LoggerRefs.stamped o
                (LoggerRefs.last_stamp r
                   (LoggerRefs.accepted logLevel objs cs)))) /\
     (NoDup (map fst (LoggerRefs.accepted logLevel objs cs)) ->
      LoggerRefs.getLogEntries
        (LoggerRefs.log_all cs (LoggerRefs.new logLevel maxLogEntries objs)) =
      map (fun c => option_map (Logger.set_timestamp (snd c)) (objs !! fst c))
        (drop (length (LoggerRefs.accepted logLevel objs cs)
               - Z.to_nat maxLogEntries)
           (LoggerRefs.accepted logLevel objs cs))) /\
     (forall es,
        Forall2 (fun c e => objs !! fst c = Some (fst e) /\ snd c = snd e)
          cs es ->
        NoDup (map fst cs) ->
        LoggerRefs.getLogEntries
          (LoggerRefs.log_all cs (LoggerRefs.new logLevel maxLogEntries objs)) =
        map Some
          (Logger.logEntries
             (Logger.log_all es (Logger.new logLevel maxLogEntries))))) /\
  (forall e maxLogEntries, 2 <= maxLogEntries ->
     LoggerRefs.getLogEntries
       (LoggerRefs.log_all [(0%nat, 100); (0%nat, 200)]
          (LoggerRefs.new (Logger.level e) maxLogEntries [e])) =
     [Some (Logger.set_timestamp 200 e); Some (Logger.set_timestamp 200 e)]).
Proof.
  split.
  - intros lv mx objs cs.
    destruct (LoggerRefs_log_all_spec lv mx objs cs)
      as (_ & _ & Hrefs & _ & Hobj).
    split; [exact Hrefs | ]. split; [exact Hobj | ].
    split; [apply LoggerRefs_distinct_entries | ].
    intros es. apply LoggerRefs_agrees.
  - intros e mx Hmx.
    unfold LoggerRefs.getLogEntries, LoggerRefs.log_all, LoggerRefs.log,
      LoggerRefs.new, LoggerRefs.shouldLog.
    cbn [fold_left fst snd LoggerRefs.objects LoggerRefs.logLevel
           LoggerRefs.maxLogEntries LoggerRefs.logEntries lookup list_lookup].
    assert (Hge : forall l,
              (Logger.LOG_LEVELS l >=? Logger.LOG_LEVELS l) = true)
      by (intros l; apply Z.geb_le; lia).
    rewrite Hge. cbn [negb app length].
    replace (Z.of_nat 1 >? mx) with false
      by (symmetry; rewrite Z.gtb_ltb; apply Z.ltb_ge; lia).
    cbn [LoggerRefs.objects LoggerRefs.logLevel LoggerRefs.maxLogEntries
           LoggerRefs.logEntries lookup list_lookup insert list_insert].
    change (Logger.level (Logger.set_timestamp 100 e)) with (Logger.level e).
    rewrite Hge. cbn [negb app length].
    replace (Z.of_nat 2 >? mx) with false
      by (symmetry; rewrite Z.gtb_ltb; apply Z.ltb_ge; lia).
    reflexivity.
Qed.





Lemma dict_get_set {K} `{EqDecision K} (k k' : K) v (d : list (K * Z)) :
  Logger.dict_get k (Logger.dict_set k' v d) =
  if decide (k = k') then Some v else Logger.dict_get k d.
Proof.
  induction d as [|[k0 n] d IH]; simpl.
  - destruct (decide (k = k')); reflexivity.
  - destruct (decide (k' = k0)) as [-> | Hne]; simpl.
    + destruct (decide (k = k0)); reflexivity.
    + destruct (decide (k = k0)) as [-> | Hne2].
      * destruct (decide (k0 = k')); [congruence | reflexivity].
      * exact IH.
Qed.

Lemma dict_sum_set {K} `{EqDecision K} (k : K) v (d : list (K * Z)) :
  sumZ (map snd (Logger.dict_set k v d)) =
  sumZ (map snd d) - default 0 (Logger.dict_get k d) + v.
Proof.
  induction d as [|[k0 n] d IH]; simpl; [lia | ].
  destruct (decide (k = k0)); simpl; [lia | ]. rewrite IH. lia.
Qed.

Lemma bump_value {K} `{EqDecision K} (k : K) (d : list (K * Z)) :
  Logger.bump k d =
  Logger.dict_set k (default 0 (Logger.dict_get k d) + 1) d.
Proof.
  unfold Logger.bump. destruct (Logger.dict_get k d) as [n|]; simpl;
    [ | reflexivity ].
  destruct (Z.eqb_spec n 0) as [-> | _]; reflexivity.
Qed.

(** Counting the keys [f e] of a list into a dictionary. *)
Lemma histogram {K A} `{EqDecision K} (f : A -> K) (l : list A) :
  forall d k,
    let c := Z.of_nat (length (List.filter (fun e => bool_decide (f e = k)) l)) in
    Logger.dict_get k (fold_left (fun d e => Logger.bump (f e) d) l d) =
      (if c =? 0 then Logger.dict_get k d
       else Some (default 0 (Logger.dict_get k d) + c)) /\
    sumZ (map snd (fold_left (fun d e => Logger.bump (f e) d) l d)) =
      sumZ (map snd d) + Z.of_nat (length l).
Proof.
  induction l as [|e l IH]; intros d k.
  - split; [reflexivity | simpl; lia].
  - destruct (IH (Logger.bump (f e) d) k) as [H1 H2]. cbv zeta in H1.
    cbv zeta. cbn [fold_left List.filter].
    rewrite H1, H2, bump_value, dict_get_set, dict_sum_set. clear H1 H2 IH.
    split; [ | cbn [length]; lia ].
    set (n := length (List.filter (fun e0 => bool_decide (f e0 = k)) l)).
    destruct (decide (k = f e)) as [Hk | Hne].
    + rewrite bool_decide_eq_true_2 by congruence. cbn [length]. fold n.
      rewrite Hk.
      destruct (Z.eqb_spec (Z.of_nat n) 0), (Z.eqb_spec (Z.of_nat (S n)) 0);
        try lia; cbn [default from_option id]; f_equal; lia.
    + rewrite bool_decide_eq_false_2 by congruence. reflexivity.
Qed.

Lemma getStatistics_fold l : forall s,
  Logger.totalEntries
    (fold_left
       (fun stats entry =>
          Logger.mkStatistics (Logger.totalEntries stats)
            (Logger.bump (Logger.level entry) (Logger.entriesByLevel stats))
            (Logger.bump (Logger.type entry) (Logger.entriesByType stats))
            (Logger.timeRange stats)) l s) = Logger.totalEntries s /\
  Logger.timeRange
    (fold_left
       (fun stats entry =>
          Logger.mkStatistics (Logger.totalEntries stats)
            (Logger.bump (Logger.level entry) (Logger.entriesByLevel stats))
            (Logger.bump (Logger.type entry) (Logger.entriesByType stats))
            (Logger.timeRange stats)) l s) = Logger.timeRange s /\
  Logger.entriesByLevel
    (fold_left
       (fun stats entry =>
          Logger.mkStatistics (Logger.totalEntries stats)
            (Logger.bump (Logger.level entry) (Logger.entriesByLevel stats))
            (Logger.bump (Logger.type entry) (Logger.entriesByType stats))
            (Logger.timeRange stats)) l s) =
    fold_left (fun d e => Logger.bump (Logger.level e) d) l
      (Logger.entriesByLevel s) /\
  Logger.entriesByType
    (fold_left
       (fun stats entry =>
          Logger.mkStatistics (Logger.totalEntries stats)
            (Logger.bump (Logger.level entry) (Logger.entriesByLevel stats))
            (Logger.bump (Logger.type entry) (Logger.entriesByType stats))
            (Logger.timeRange stats)) l s) =
    fold_left (fun d e => Logger.bump (Logger.type e) d) l
      (Logger.entriesByType s).
Proof.
  induction l as [|e l IH]; intros s; simpl; [auto | ].
  destruct (IH (Logger.mkStatistics (Logger.totalEntries s)
                  (Logger.bump (Logger.level e) (Logger.entriesByLevel s))
                  (Logger.bump (Logger.type e) (Logger.entriesByType s))
                  (Logger.timeRange s))) as (H1 & H2 & H3 & H4).
  rewrite H1, H2, H3, H4. auto.
Qed.

(** X28. [getStatistics] counts right: [totalEntries] is the number of stored
    entries, each dictionary gives for a key the number of stored entries
    with that key and has no entry for a key that does not occur, and the
    counts of a dictionary add up to [totalEntries]. *)
Theorem getStatistics_counts (L : Logger.Logger) :
  Logger.totalEntries (Logger.getStatistics L) =
    Z.of_nat (length (Logger.logEntries L)) /\
  (forall lv,
     let c := Z.of_nat (length (List.filter
                (fun e => bool_decide (Logger.level e = lv))
                (Logger.logEntries L))) in
     Logger.dict_get lv (Logger.entriesByLevel (Logger.getStatistics L)) =
       if c =? 0 then None else Some c) /\
  (forall ty,
     let c := Z.of_nat (length (List.filter
                (fun e => bool_decide (Logger.type e = ty))
                (Logger.logEntries L))) in
     Logger.dict_get ty (Logger.entriesByType (Logger.getStatistics L)) =
       if c =? 0 then None else Some c) /\
  sumZ (map snd (Logger.entriesByLevel (Logger.getStatistics L))) =
    Logger.totalEntries (Logger.getStatistics L) /\
  sumZ (map snd (Logger.entriesByType (Logger.getStatistics L))) =
    Logger.totalEntries (Logger.getStatistics L) /\
  Logger.timeRange (Logger.getStatistics L) =
    (match Logger.logEntries L with
     | e :: _ => Logger.simulationTime e
     | [] => 0
     end,
     match last (Logger.logEntries L) with
     | Some e => Logger.simulationTime e
     | None => 0
     end).
Proof.
  unfold Logger.getStatistics.
  match goal with
  | |- context [fold_left _ _ ?s0] =>
      destruct (getStatistics_fold (Logger.logEntries L) s0)
        as (H1 & H2 & H3 & H4)
  end.
  cbv zeta. rewrite H1, H2, H3, H4. simpl.
  split; [reflexivity | ]. split; [ | split; [ | split; [ | split ] ] ].
  - intros lv.
    destruct (histogram Logger.level (Logger.logEntries L) [] lv) as [H _].
    cbv zeta in H. rewrite H. simpl.
    destruct (_ =? 0); [reflexivity | f_equal; lia].
  - intros ty.
    destruct (histogram Logger.type (Logger.logEntries L) [] ty) as [H _].
    cbv zeta in H. rewrite H. simpl.
    destruct (_ =? 0); [reflexivity | f_equal; lia].
  - destruct (histogram Logger.level (Logger.logEntries L) []
                Logger.DEBUG) as [_ H].
    rewrite H. simpl. lia.
  - destruct (histogram Logger.type (Logger.logEntries L) []
                Logger.EVENT_SCHEDULED) as [_ H].
    rewrite H. simpl. lia.
  - reflexivity.
Qed.

(** ** monitoring/PerformanceMonitor.ts *)

Lemma record_all_snoc ts t P :
  PerformanceMonitor.record_all (ts ++ [t]) P =
  PerformanceMonitor.recordEventExecution t
    (PerformanceMonitor.record_all ts P).
Proof.
  unfold PerformanceMonitor.record_all. rewrite fold_left_app. reflexivity.
Qed.

(** X29. [recordEventExecution] counts every event but keeps a bounded window
    of durations: after any run of calls on a new monitor, the counter is
    the number of calls, and the stored durations are the latest ones, in
    order: all of them up to 10000 calls, never more than 10000, and at
    least the last 5000 from then on. *)
Theorem recordEventExecution_window (Date_now : Z) (ts : list Z) :
  PerformanceMonitor.eventsProcessed
    (PerformanceMonitor.record_all ts (PerformanceMonitor.new Date_now)) =
    Z.of_nat (length ts) /\
  (exists k,
     PerformanceMonitor.eventExecutionTimes
       (PerformanceMonitor.record_all ts (PerformanceMonitor.new Date_now)) =
     drop k ts) /\
  Z.of_nat (length (PerformanceMonitor.eventExecutionTimes
     (PerformanceMonitor.record_all ts (PerformanceMonitor.new Date_now))))
    <= 10000 /\
  (Z.of_nat (length ts) <= 10000 ->
   PerformanceMonitor.eventExecutionTimes
     (PerformanceMonitor.record_all ts (PerformanceMonitor.new Date_now)) =
   ts) /\
  (5000 <= Z.of_nat (length ts) ->
   5000 <= Z.of_nat (length (PerformanceMonitor.eventExecutionTimes
     (PerformanceMonitor.record_all ts (PerformanceMonitor.new Date_now))))).
Proof.
  induction ts as [|t ts IH] using rev_ind.
  - simpl. repeat split; try lia. exists 0%nat. reflexivity.
  - rewrite record_all_snoc. destruct IH as (Hn & (k & Hk) & Hle & Hall & H5).
    set (P := PerformanceMonitor.record_all ts (PerformanceMonitor.new Date_now))
      in *.
    set (times := PerformanceMonitor.eventExecutionTimes P) in *.
    assert (Hsnoc : exists k', times ++ [t] = drop k' (ts ++ [t])).
    { exists (Nat.min k (length ts)). rewrite Hk.
      destruct (Nat.le_gt_cases k (length ts)) as [Hkl | Hkl].
      - rewrite Nat.min_l by lia. rewrite drop_app_le by lia. reflexivity.
      - rewrite Nat.min_r by lia. rewrite drop_ge by lia.
        rewrite drop_app_le by lia. rewrite drop_all. reflexivity. }
    destruct Hsnoc as [k' Hk'].
    assert (Hlen1 : length (times ++ [t]) = S (length times))
      by (rewrite length_app; simpl; lia).
    assert (Hlen2 : length (ts ++ [t]) = S (length ts))
      by (rewrite length_app; simpl; lia).
    unfold PerformanceMonitor.recordEventExecution.
    cbn [PerformanceMonitor.eventsProcessed
         PerformanceMonitor.eventExecutionTimes].
    fold times. rewrite Hlen2.
    destruct (Z.gtb_spec (Z.of_nat (length (times ++ [t]))) 10000)
      as [Hbig | Hsmall].
    + unfold PerformanceMonitor.slice_last.
      set (j := Z.to_nat (Z.of_nat (length (times ++ [t])) - 5000)).
      split; [lia | ]. split.
      { exists (k' + j)%nat. rewrite Hk', drop_drop. reflexivity. }
      rewrite length_drop. split; [lia | ]. split; [ | lia ].
      intros Hlen. exfalso.
      assert (Hts : times = ts) by (apply Hall; lia).
      rewrite Hts in Hbig. lia.
    + split; [lia | ]. split; [eauto | ]. split; [lia | ]. split.
      * intros Hlen. f_equal. apply Hall. lia.
      * intros Hlen. rewrite Hlen1.
        destruct (Z.le_gt_cases (Z.of_nat (length ts)) 10000) as [H | H].
        -- replace times with ts by (symmetry; apply Hall; lia). lia.
        -- lia.
Qed.

(** ** monitoring/Monitor.ts: the identifiers of events *)









